(** * A book-review recommendation system: graphs, clustering, predictors

    Shallow embedding of [Graph_ADT.py], [recommendation.py],
    [cluster_weight.py] and [predictions.py].

    Representation choices, used throughout:

    - A Python graph owns its vertices in the dict [_vertices], and vertices
      refer to each other by object reference.  Vertices are created only by
      [add_vertex], which stores [_Vertex(item, kind)] under the key [item],
      and are never removed or renamed.  A reference to a vertex is therefore
      represented by the key it is stored under, and the field [item] of a
      vertex is that key; the record of a vertex keeps [kind] and
      [neighbours].
    - Numbers ([int] and [float] weights and scores) are exact rationals
      ([Qc]); [/] is Python's true division, which raises
      [ZeroDivisionError] on a zero divisor.  Python itself computes with
      integers of any size and with binary64 floats: a float sum or
      quotient is rounded, a quotient of integers too large for a float
      raises [OverflowError], and a float may be NaN.  A statement that
      depends on sums or quotients of weights therefore carries hypotheses
      on the weights, and where needed on the size of the graph, under
      which the rounded numbers compare, and round to integers, as the
      exact ones do; a statement about the length quotients of the
      similarity scores, or about weights that are only stored and
      returned, needs none.
    - Exceptions are values of [exn]; a computation that may raise returns a
      [result]; an operation that mutates the graph and may raise returns
      the outcome together with the graph it leaves behind.
    - Iterating over a Python [set] or [dict] is modelled by iterating over
      [elements] or [map_to_list].
    - A CSV file is represented by the rows that [csv.reader] yields for
      it, lists of strings; Python's [int] on strings is a parameter of the
      functions that call it. *)

From Stdlib Require Import QArith Qcanon.
From Stdlib Require Qcabs.
From stdpp Require Import gmap strings list fin_maps fin_sets numbers sorting.

Local Open Scope Qc_scope.

(** ** Exceptions and results *)

Inductive exn : Set :=
  | ValueError
  | KeyError
  | ZeroDivisionError
  | AttributeError
  | TypeError
  | IndexError.

Inductive result (A : Type) : Type :=
  | Ok (a : A)
  | Raise (e : exn).
Arguments Ok {A} a.
Arguments Raise {A} e.

Global Instance result_ret : MRet result := λ A a, Ok a.
Global Instance result_bind : MBind result := λ A B f m,
  match m with
  | Ok a => f a
  | Raise e => Raise e
  end.

(** A [for] loop threading an accumulator, left to right; the loop stops at
    the first iteration that raises. *)
Fixpoint foldM {A B : Type} (f : B → A → result B) (acc : B) (l : list A)
  : result B :=
  match l with
  | [] => Ok acc
  | x :: l' => acc' ← f acc x; foldM f acc' l'
  end.

(** ** Rows and dicts *)

(** [row[i]] for a row that [csv.reader] yields, a list of strings. *)
Definition row_at (row : list string) (i : nat) : result string :=
  match row !! i with
  | Some field => Ok field
  | None => Raise IndexError
  end.

(** [d[key]] for a dict from strings to strings. *)
Definition dict_at (d : gmap string string) (key : string) : result string :=
  match d !! key with
  | Some x => Ok x
  | None => Raise KeyError
  end.

(** [int(field)], Python's reading of a string as an integer being [int];
    it raises [ValueError] for a string it cannot read. *)
Definition int_of (int : string → option Z) (field : string) : result Z :=
  match int field with
  | Some n => Ok n
  | None => Raise ValueError
  end.

(** ** Numbers *)

Definition Qc_of_nat (n : nat) : Qc := Qc_of_Z (Z.of_nat n).

(** Python's [x / y], as the exact quotient. *)
Definition true_div (x y : Qc) : result Qc :=
  if bool_decide (y = 0) then Raise ZeroDivisionError else Ok (x / y).

(** Python's [sum(xs)], as the exact sum. *)
Definition sum (xs : list Qc) : Qc := foldl Qcplus 0 xs.

(** Python's [round(x)] with one argument: the nearest integer, a tie going
    to the even one. *)
Definition round (x : Qc) : Z :=
  let n := Qnum (this x) in
  let d := Zpos (Qden (this x)) in
  let f := (n / d)%Z in
  let r := (n mod d)%Z in
  match (2 * r ?= d)%Z with
  | Lt => f
  | Gt => (f + 1)%Z
  | Eq => if Z.even f then f else (f + 1)%Z
  end.

(** Python's [list.sort(xs, reverse=True)]. *)
Definition sort_reverse (xs : list Qc) : list Qc := merge_sort (flip Qcle) xs.

(** Python's [xs[:limit]]: a negative [limit] counts from the end. *)
Definition slice_to {A : Type} (xs : list A) (limit : Z) : list A :=
  if bool_decide (limit < 0)%Z
  then take (Z.to_nat (Z.max 0 (Z.of_nat (length xs) + limit))) xs
  else take (Z.to_nat limit) xs.

(** ** [Graph_ADT.py]: the unweighted graph *)

Module Graph.

Record _Vertex : Type := mk_Vertex {
  kind : string;
  neighbours : gset string
}.

(** [Graph._vertices] *)
Abbreviation t := (gmap string _Vertex).

Definition degree (self : _Vertex) : nat := size (neighbours self).

Definition similarity_score (self other : _Vertex) : result Qc :=
  if bool_decide (degree self = 0%nat ∨ degree other = 0%nat) then Ok 0
  else
    let and_set := neighbours self ∩ neighbours other in
    let or_set := neighbours self ∪ neighbours other in
    true_div (Qc_of_nat (size and_set)) (Qc_of_nat (size or_set)).

Definition empty : t := ∅.

Definition add_vertex (item kind : string) (g : t) : t :=
  match g !! item with
  | None => <[item := mk_Vertex kind ∅]> g
  | Some _ => g
  end.

(** [v.neighbours.add(w)] on the vertex stored under [v]. *)
Definition neighbours_add (v w : string) (g : t) : t :=
  alter (λ x, mk_Vertex (kind x) (neighbours x ∪ {[w]})) v g.

Definition add_edge (item1 item2 : string) (g : t) : result () * t :=
  match g !! item1, g !! item2 with
  | Some _, Some _ =>
      (Ok (), neighbours_add item2 item1 (neighbours_add item1 item2 g))
  | _, _ => (Raise ValueError, g)
  end.

Definition adjacent (item1 item2 : string) (g : t) : bool :=
  match g !! item1, g !! item2 with
  | Some v1, Some _ =>
      existsb (λ v2, bool_decide (v2 = item2)) (elements (neighbours v1))
  | _, _ => false
  end.

Definition get_neighbours (item : string) (g : t) : result (gset string) :=
  match g !! item with
  | Some v => Ok (neighbours v)
  | None => Raise ValueError
  end.

Definition get_all_vertices (kind' : string) (g : t) : gset string :=
  if bool_decide (kind' ≠ "")
  then dom (filter (λ kv, kind kv.2 = kind') g)
  else dom g.

Definition get_similarity_score (item1 item2 : string) (g : t)
  : result Qc :=
  match g !! item1, g !! item2 with
  | Some v1, Some v2 => similarity_score v1 v2
  | _, _ => Raise ValueError
  end.

Definition recommend_books (book : string) (limit : Z) (g : t)
  : result (list string) :=
  let books := elements (get_all_vertices "book" g) in
  scores_so_far ←
    foldM (λ scores vertex,
             if bool_decide (vertex ≠ book)
             then s ← get_similarity_score book vertex g; Ok (scores ++ [s])
             else Ok scores)
          [] books;
  let scores_so_far := sort_reverse scores_so_far in
  list_so_far ←
    foldM (λ acc score,
             foldM (λ acc vertex,
                      if bool_decide (vertex ≠ book)
                      then s ← get_similarity_score book vertex g;
                           if bool_decide (s = score)
                           then Ok (acc ++ [vertex]) else Ok acc
                      else Ok acc)
                   acc books)
          [] scores_so_far;
  if bool_decide (Z.of_nat (length list_so_far) < limit)%Z
  then Ok list_so_far
  else Ok (slice_to list_so_far limit).

(** A call of the mutating interface, and the graph left by a sequence of
    calls; a call that raises leaves its graph to the next call. *)
Inductive call : Type :=
  | AddVertex (item kind : string)
  | AddEdge (item1 item2 : string).

Definition step (g : t) (c : call) : t :=
  match c with
  | AddVertex item kind => add_vertex item kind g
  | AddEdge item1 item2 => (add_edge item1 item2 g).2
  end.

Definition run (cs : list call) : t := foldl step empty cs.

End Graph.

(** [load_review_graph] on the rows that [csv.reader] yields for the two
    files: [reviews] for [reviews_file], which is read twice and taken to
    yield the same rows both times, and [names] for [book_names_file].  The
    three definitions before it are the bodies of its three loops. *)
Definition review_user (acc : Graph.t * gset string) (row : list string)
  : result (Graph.t * gset string) :=
  let '(g, book_directory) := acc in
  user ← row_at row 0;
  let g := Graph.add_vertex user "user" g in
  book ← row_at row 1;
  Ok (g, book_directory ∪ {[book]}).

Definition review_book (book_directory : gset string)
    (acc : Graph.t * gmap string string) (row : list string)
  : result (Graph.t * gmap string string) :=
  let '(g, book_names) := acc in
  book ← row_at row 0;
  if bool_decide (book ∈ book_directory)
  then name ← row_at row 1;
       let g := Graph.add_vertex name "book" g in
       Ok (g, <[book := name]> book_names)
  else Ok (g, book_names).

Definition review_edge (book_names : gmap string string) (g : Graph.t)
    (row : list string) : result Graph.t :=
  user ← row_at row 0;
  book ← row_at row 1;
  name ← dict_at book_names book;
  let '(outcome, g') := Graph.add_edge user name g in
  _ ← outcome; Ok g'.

Definition load_review_graph (reviews names : list (list string))
  : result Graph.t :=
  '(g, book_directory) ← foldM review_user (Graph.empty, ∅) reviews;
  '(g, book_names) ← foldM (review_book book_directory) (g, ∅) names;
  foldM (review_edge book_names) g reviews.

(** ** [recommendation.py]: the weighted graph *)

Module WeightedGraph.

Record _WeightedVertex : Type := mk_WeightedVertex {
  kind : string;
  neighbours : gmap string Qc
}.

(** [WeightedGraph._vertices] *)
Abbreviation t := (gmap string _WeightedVertex).

Definition degree (self : _WeightedVertex) : nat := size (neighbours self).

Definition similarity_score_unweighted (self other : _WeightedVertex)
  : result Qc :=
  if bool_decide (degree self = 0%nat ∨ degree other = 0%nat) then Ok 0
  else
    let and_set := dom (neighbours self) ∩ dom (neighbours other) in
    let or_set := dom (neighbours self) ∪ dom (neighbours other) in
    true_div (Qc_of_nat (size and_set)) (Qc_of_nat (size or_set)).

(** The comprehension keeps the keys [x] of [self.neighbours] that
    [other.neighbours] maps to the weight [self.neighbours[x]]. *)
Definition similarity_score_strict (self other : _WeightedVertex)
  : result Qc :=
  if bool_decide (degree self = 0%nat ∨ degree other = 0%nat) then Ok 0
  else
    let and_set :=
      dom (filter (λ xw, neighbours other !! xw.1 = Some xw.2)
                  (neighbours self)) in
    let or_set := dom (neighbours self) ∪ dom (neighbours other) in
    true_div (Qc_of_nat (size and_set)) (Qc_of_nat (size or_set)).

Definition empty : t := ∅.

Definition add_vertex (item kind : string) (g : t) : t :=
  match g !! item with
  | None => <[item := mk_WeightedVertex kind ∅]> g
  | Some _ => g
  end.

(** [v.neighbours[w] = weight] on the vertex stored under [v]. *)
Definition neighbours_set (v w : string) (weight : Qc) (g : t) : t :=
  alter (λ x, mk_WeightedVertex (kind x) (<[w := weight]> (neighbours x)))
        v g.

(** The source's default for [weight] is 1. *)
Definition add_edge (item1 item2 : string) (weight : Qc) (g : t)
  : result () * t :=
  match g !! item1, g !! item2 with
  | Some _, Some _ =>
      (Ok (),
       neighbours_set item2 item1 weight
         (neighbours_set item1 item2 weight g))
  | _, _ => (Raise ValueError, g)
  end.

(** Inherited from [Graph]; iterating over the dict [v1.neighbours]
    yields its keys. *)
Definition adjacent (item1 item2 : string) (g : t) : bool :=
  match g !! item1, g !! item2 with
  | Some v1, Some _ =>
      existsb (λ v2, bool_decide (v2 = item2))
              (map_to_list (neighbours v1)).*1
  | _, _ => false
  end.

Definition get_neighbours (item : string) (g : t) : result (gset string) :=
  match g !! item with
  | Some v => Ok (list_to_set (map_to_list (neighbours v)).*1)
  | None => Raise ValueError
  end.

Definition get_all_vertices (kind' : string) (g : t) : gset string :=
  if bool_decide (kind' ≠ "")
  then dom (filter (λ kv, kind kv.2 = kind') g)
  else dom g.

Definition get_weight (item1 item2 : string) (g : t) : result Qc :=
  match g !! item1 with
  | None => Raise KeyError
  | Some v1 =>
      match g !! item2 with
      | None => Raise KeyError
      | Some _ => Ok (default 0 (neighbours v1 !! item2))
      end
  end.

Definition average_weight (item : string) (g : t) : result Qc :=
  match g !! item with
  | Some v =>
      true_div (sum (map_to_list (neighbours v)).*2)
               (Qc_of_nat (size (neighbours v)))
  | None => Raise ValueError
  end.

Definition get_similarity_score (item1 item2 score_type : string) (g : t)
  : result Qc :=
  match g !! item1, g !! item2 with
  | Some v1, Some v2 =>
      if bool_decide (score_type = "unweighted")
      then similarity_score_unweighted v1 v2
      else similarity_score_strict v1 v2
  | _, _ => Raise ValueError
  end.

Definition recommend_books (book : string) (limit : Z) (score_type : string)
    (g : t) : result (list string) :=
  let books := elements (get_all_vertices "book" g) in
  scores_so_far ←
    foldM (λ scores vertex,
             if bool_decide (vertex ≠ book)
             then s ← get_similarity_score book vertex score_type g;
                  Ok (scores ++ [s])
             else Ok scores)
          [] books;
  let scores_so_far := sort_reverse scores_so_far in
  list_so_far ←
    foldM (λ acc score,
             foldM (λ acc vertex,
                      if bool_decide (vertex ≠ book)
                      then s ← get_similarity_score book vertex score_type g;
                           if bool_decide (s = score)
                           then Ok (acc ++ [vertex]) else Ok acc
                      else Ok acc)
                   acc books)
          [] scores_so_far;
  if bool_decide (Z.of_nat (length list_so_far) < limit)%Z
  then Ok list_so_far
  else Ok (slice_to list_so_far limit).

Inductive call : Type :=
  | AddVertex (item kind : string)
  | AddEdge (item1 item2 : string) (weight : Qc).

Definition step (g : t) (c : call) : t :=
  match c with
  | AddVertex item kind => add_vertex item kind g
  | AddEdge item1 item2 weight => (add_edge item1 item2 weight g).2
  end.

Definition run (cs : list call) : t := foldl step empty cs.

End WeightedGraph.

(** [load_weighted_review_graph], on the rows of the two files as
    [load_review_graph] is; [int] is Python's [int] on strings. *)
Definition weighted_review_user (acc : WeightedGraph.t * gset string)
    (row : list string) : result (WeightedGraph.t * gset string) :=
  let '(g, book_directory) := acc in
  user ← row_at row 0;
  let g := WeightedGraph.add_vertex user "user" g in
  book ← row_at row 1;
  Ok (g, book_directory ∪ {[book]}).

Definition weighted_review_book (book_directory : gset string)
    (acc : WeightedGraph.t * gmap string string) (row : list string)
  : result (WeightedGraph.t * gmap string string) :=
  let '(g, book_names) := acc in
  book ← row_at row 0;
  if bool_decide (book ∈ book_directory)
  then name ← row_at row 1;
       let g := WeightedGraph.add_vertex name "book" g in
       Ok (g, <[book := name]> book_names)
  else Ok (g, book_names).

Definition weighted_review_edge (int : string → option Z)
    (book_names : gmap string string) (g : WeightedGraph.t)
    (row : list string) : result WeightedGraph.t :=
  user ← row_at row 0;
  book ← row_at row 1;
  name ← dict_at book_names book;
  field ← row_at row 2;
  weight ← int_of int field;
  let '(outcome, g') :=
    WeightedGraph.add_edge user name (Qc_of_Z weight) g in
  _ ← outcome; Ok g'.

Definition load_weighted_review_graph (int : string → option Z)
    (reviews names : list (list string)) : result WeightedGraph.t :=
  '(g, book_directory) ←
    foldM weighted_review_user (WeightedGraph.empty, ∅) reviews;
  '(g, book_names) ←
    foldM (weighted_review_book book_directory) (g, ∅) names;
  foldM (weighted_review_edge int book_names) g reviews.

(** ** [cluster_weight.py]: clustering

    The lines the loops print are left out. *)

Module Cluster.

Abbreviation cluster := (gset string).

Definition cross_cluster_weight (book_graph : WeightedGraph.t)
    (cluster1 cluster2 : cluster) : result Qc :=
  weights ←
    foldM (λ weights u,
             foldM (λ weights v,
                      w ← WeightedGraph.get_weight u v book_graph;
                      Ok (weights + w))
                   weights (elements cluster2))
          0 (elements cluster1);
  let denominator := (size cluster1 * size cluster2)%nat in
  true_div weights (Qc_of_nat denominator).

(** [clusters.remove(c)]: drops the first element equal to [c]. *)
Fixpoint list_remove (c : cluster) (clusters : list cluster)
  : result (list cluster) :=
  match clusters with
  | [] => Raise ValueError
  | c' :: clusters' =>
      if bool_decide (c' = c) then Ok clusters'
      else rest ← list_remove c clusters'; Ok (c' :: rest)
  end.

(** [best_c2.update(best_c1); clusters.remove(best_c1)], the clusters
    being referred to by their position in the list.  The set at [best_c2]
    is updated in place; [None] has no [update], and [update] does not take
    [None]. *)
Definition merge (clusters : list cluster) (best_c1 best_c2 : option nat)
  : result (list cluster) :=
  match best_c2 with
  | None => Raise AttributeError
  | Some i2 =>
      match best_c1 with
      | None => Raise TypeError
      | Some i1 =>
          match clusters !! i1, clusters !! i2 with
          | Some c1, Some c2 =>
              list_remove c1 (<[i2 := c2 ∪ c1]> clusters)
          | _, _ => Raise IndexError
          end
      end
  end.

(** [[{book} for book in graph.get_all_vertices()]] *)
Definition singletons (graph : WeightedGraph.t) : list cluster :=
  (λ book, {[book]}) <$> elements (WeightedGraph.get_all_vertices "" graph).

(** The number of iterations of [range(0, len(clusters) - num_clusters)]. *)
Definition rounds (clusters : list cluster) (num_clusters : Z) : nat :=
  Z.to_nat (Z.of_nat (length clusters) - num_clusters).

(** The body of the loop over [c2] in [find_clusters_random], on the pair
    of [best] and [best_c2]; [c1 is not c2] compares positions. *)
Definition random_body (graph : WeightedGraph.t) (i1 : nat) (c1 : cluster)
    (acc : Qc * option nat) (ic2 : nat * cluster)
  : result (Qc * option nat) :=
  let '(best, best_c2) := acc in
  let '(i2, c2) := ic2 in
  if bool_decide (i1 ≠ i2)
  then score ← cross_cluster_weight graph c1 c2;
       if bool_decide (best < score)
       then Ok (score, Some i2)
       else Ok (best, best_c2)
  else Ok (best, best_c2).

(** One iteration of the loop of [find_clusters_random]; [r] is the number
    drawn by [random.choice], which returns [clusters[r mod len(clusters)]]
    and raises [IndexError] on an empty list. *)
Definition random_round (graph : WeightedGraph.t) (r : nat)
    (clusters : list cluster) : result (list cluster) :=
  let i1 := (r mod length clusters)%nat in
  match clusters !! i1 with
  | None => Raise IndexError
  | Some c1 =>
      '(best, best_c2) ←
        foldM (random_body graph i1 c1) (-1, None) (imap pair clusters);
      merge clusters (Some i1) best_c2
  end.

(** [random k] is the number drawn in iteration [k]. *)
Fixpoint random_loop (graph : WeightedGraph.t) (random : nat → nat)
    (n k : nat) (clusters : list cluster) : result (list cluster) :=
  match n with
  | O => Ok clusters
  | S n' =>
      clusters' ← random_round graph (random k) clusters;
      random_loop graph random n' (S k) clusters'
  end.

Definition find_clusters_random (random : nat → nat)
    (graph : WeightedGraph.t) (num_clusters : Z) : result (list cluster) :=
  let clusters := singletons graph in
  random_loop graph random (rounds clusters num_clusters) 0 clusters.

(** The body of the loop over [i2] in [find_clusters_greedy], on the
    triple of [best], [best_c1] and [best_c2]. *)
Definition greedy_body (graph : WeightedGraph.t) (clusters : list cluster)
    (i1 : nat) (acc : Qc * option nat * option nat) (i2 : nat)
  : result (Qc * option nat * option nat) :=
  let '(best, best_c1, best_c2) := acc in
  match clusters !! i1, clusters !! i2 with
  | Some c1, Some c2 =>
      score ← cross_cluster_weight graph c1 c2;
      if bool_decide (best < score)
      then Ok (score, Some i1, Some i2)
      else Ok (best, best_c1, best_c2)
  | _, _ => Raise IndexError
  end.

(** The loop over [i2] for one [i1]. *)
Definition greedy_row (graph : WeightedGraph.t) (clusters : list cluster)
    (acc : Qc * option nat * option nat) (i1 : nat)
  : result (Qc * option nat * option nat) :=
  foldM (greedy_body graph clusters i1) acc
        (seq (S i1) (length clusters - S i1)).

(** One iteration of the loop of [find_clusters_greedy]. *)
Definition greedy_round (graph : WeightedGraph.t) (clusters : list cluster)
  : result (list cluster) :=
  '(best, best_c1, best_c2) ←
    foldM (greedy_row graph clusters) (-1, None, None)
          (seq 0 (length clusters));
  merge clusters best_c1 best_c2.

Fixpoint greedy_loop (graph : WeightedGraph.t) (n : nat)
    (clusters : list cluster) : result (list cluster) :=
  match n with
  | O => Ok clusters
  | S n' =>
      clusters' ← greedy_round graph clusters;
      greedy_loop graph n' clusters'
  end.

Definition find_clusters_greedy (graph : WeightedGraph.t) (num_clusters : Z)
  : result (list cluster) :=
  let clusters := singletons graph in
  greedy_loop graph (rounds clusters num_clusters) clusters.

(** The body of the loop over [b2] in [create_book_graph], on the graph [g]
    being built; an exception of [add_edge] ends the function. *)
Definition book_edge (review_graph : WeightedGraph.t) (threshold : Qc)
    (score_type b1 : string) (g : WeightedGraph.t) (b2 : string)
  : result WeightedGraph.t :=
  if bool_decide (b2 ≠ b1)
  then score ← WeightedGraph.get_similarity_score b1 b2 score_type
                 review_graph;
       if bool_decide (threshold < score)
       then let '(outcome, g') := WeightedGraph.add_edge b1 b2 score g in
            _ ← outcome; Ok g'
       else Ok g
  else Ok g.

(** The source's defaults are [threshold = 0.05] and
    [score_type = 'unweighted']. *)
Definition create_book_graph (review_graph : WeightedGraph.t)
    (threshold : Qc) (score_type : string) : result WeightedGraph.t :=
  let g :=
    foldl (λ g vertex, WeightedGraph.add_vertex vertex "book" g)
          WeightedGraph.empty
          (elements (WeightedGraph.get_all_vertices "book" review_graph)) in
  foldM (λ g b1,
           foldM (book_edge review_graph threshold score_type b1) g
                 (elements (WeightedGraph.get_all_vertices "book" g)))
        g (elements (WeightedGraph.get_all_vertices "book" g)).

End Cluster.

(** ** [predictions.py]: rating predictors *)

Module FiveStarPredictor.

Definition predict_review_score (graph : WeightedGraph.t)
    (user book : string) : result Qc :=
  if WeightedGraph.adjacent user book graph
  then WeightedGraph.get_weight user book graph
  else Ok (Qc_of_Z 5).

End FiveStarPredictor.

Module BookAverageScorePredictor.

Definition predict_review_score (graph : WeightedGraph.t)
    (user book : string) : result Qc :=
  if WeightedGraph.adjacent user book graph
  then WeightedGraph.get_weight user book graph
  else avg ← WeightedGraph.average_weight book graph;
       Ok (Qc_of_Z (round avg)).

End BookAverageScorePredictor.

Module SimilarUserPredictor.

(** The body of the loop over the users, on the pair of
    [score_predictor] and [total_weighted_score]. *)
Definition loop_body (graph : WeightedGraph.t) (user book : string)
    (acc : list Qc * Qc) (other_user : string) : result (list Qc * Qc) :=
  let '(score_predictor, total_weighted_score) := acc in
  w ← WeightedGraph.get_weight other_user book graph;
  if bool_decide (0 < w)
  then
    weight_similarity_score ←
      WeightedGraph.get_similarity_score user other_user "strict" graph;
    review_score ← WeightedGraph.get_weight other_user book graph;
    Ok (score_predictor ++ [weight_similarity_score * review_score],
        total_weighted_score + weight_similarity_score)
  else Ok (score_predictor, total_weighted_score).

(** [_score_type] is the attribute set by the constructor. *)
Definition predict_review_score (graph : WeightedGraph.t)
    (_score_type : string) (user book : string) : result Qc :=
  if WeightedGraph.adjacent user book graph
  then WeightedGraph.get_weight user book graph
  else
    '(score_predictor, total_weighted_score) ←
      foldM (loop_body graph user book) ([], 0)
            (elements (WeightedGraph.get_all_vertices "user" graph));
    if bool_decide (sum score_predictor = 0)
    then avg ← WeightedGraph.average_weight book graph;
         Ok (Qc_of_Z (round avg))
    else quotient ← true_div (sum score_predictor) total_weighted_score;
         Ok (Qc_of_Z (round quotient)).

End SimilarUserPredictor.

(** [ReviewScorePredictor]: a predictor offers [predict_review_score]; the
    three predictors as objects, holding what their constructors store. *)
Class ReviewScorePredictor (P : Type) : Type :=
  predict_review_score : P → string → string → result Qc.

Record five_star : Type := FiveStar {
  five_star_graph : WeightedGraph.t
}.

Record book_average_score : Type := BookAverageScore {
  book_average_score_graph : WeightedGraph.t
}.

Record similar_user : Type := SimilarUser {
  similar_user_graph : WeightedGraph.t;
  similar_user_score_type : string
}.

Global Instance five_star_predictor : ReviewScorePredictor five_star :=
  λ p, FiveStarPredictor.predict_review_score (five_star_graph p).

Global Instance book_average_score_predictor
  : ReviewScorePredictor book_average_score :=
  λ p, BookAverageScorePredictor.predict_review_score
         (book_average_score_graph p).

Global Instance similar_user_predictor : ReviewScorePredictor similar_user :=
  λ p, SimilarUserPredictor.predict_review_score
         (similar_user_graph p) (similar_user_score_type p).

(** The dict that [evaluate_predictor] returns. *)
Record report : Type := mk_report {
  num_reviews : Z;
  num_correct : Z;
  average_error : Qc
}.

(** The bodies of the two loops of [evaluate_predictor], the first on
    [book_names] and the second on the triple of [total_reviews],
    [total_correct] and [error_so_far]; [test] and [names] are the rows of
    [test_file] and of [book_names_file]. *)
Definition test_name (book_names : gmap string string) (row : list string)
  : result (gmap string string) :=
  name ← row_at row 1;
  book ← row_at row 0;
  Ok (<[book := name]> book_names).

Definition test_review {P : Type} `{ReviewScorePredictor P} (predictor : P)
    (int : string → option Z) (book_names : gmap string string)
    (acc : Z * Z * list Qc) (row : list string) : result (Z * Z * list Qc) :=
  let '(total_reviews, total_correct, error_so_far) := acc in
  user ← row_at row 0;
  book ← row_at row 1;
  name ← dict_at book_names book;
  predicted_score ← predict_review_score predictor user name;
  field ← row_at row 2;
  actual ← int_of int field;
  let total_correct :=
    if bool_decide (predicted_score = Qc_of_Z actual)
    then (total_correct + 1)%Z else total_correct in
  Ok ((total_reviews + 1)%Z, total_correct,
      error_so_far ++ [Qcabs.Qcabs (predicted_score - Qc_of_Z actual)]).

Definition evaluate_predictor {P : Type} `{ReviewScorePredictor P}
    (predictor : P) (int : string → option Z)
    (test names : list (list string)) : result report :=
  book_names ← foldM test_name ∅ names;
  '(total_reviews, total_correct, error_so_far) ←
    foldM (test_review predictor int book_names) (0%Z, 0%Z, []) test;
  average_error ← true_div (sum error_so_far) (Qc_of_Z total_reviews);
  Ok (mk_report total_reviews total_correct average_error).

(** * Notions used in the statements *)

(** A view of a rational result as a numerator and a denominator that can be
    compared by computation. *)
Definition shown (r : result Qc) : result (Z * positive) :=
  match r with
  | Ok q => Ok (Qnum (this q), Qden (this q))
  | Raise e => Raise e
  end.

(** An [int] as a weight. *)
Definition q (n : Z) : Qc := Qc_of_Z n.

(** No vertex is among its own neighbours. *)
Definition Graph_no_self_loop (g : Graph.t) : Prop :=
  ∀ x v, g !! x = Some v → x ∉ Graph.neighbours v.

Definition WeightedGraph_no_self_loop (g : WeightedGraph.t) : Prop :=
  ∀ x v, g !! x = Some v → WeightedGraph.neighbours v !! x = None.

(** A call that does not ask for an edge from an item to itself. *)
Definition Graph_distinct_ends (c : Graph.call) : Prop :=
  match c with
  | Graph.AddVertex _ _ => True
  | Graph.AddEdge item1 item2 => item1 ≠ item2
  end.

Definition WeightedGraph_distinct_ends (c : WeightedGraph.call) : Prop :=
  match c with
  | WeightedGraph.AddVertex _ _ => True
  | WeightedGraph.AddEdge item1 item2 _ => item1 ≠ item2
  end.

(** The score as a quotient of two counts, which the source guards with
    the test on the degrees. *)
Definition quotient (degree1 degree2 and_size or_size : nat) : Qc :=
  if bool_decide (degree1 = 0%nat ∨ degree2 = 0%nat) then 0
  else Qc_of_nat and_size / Qc_of_nat or_size.

(** The stored weight of the edge [(u, v)], and 0 when [u] has no edge to
    [v]. *)
Definition edge_weight (g : WeightedGraph.t) (u v : string) : Qc :=
  match g !! u with
  | Some vu => default 0 (WeightedGraph.neighbours vu !! v)
  | None => 0
  end.

(** The sum of a list of numbers. *)
Definition total (xs : list Qc) : Qc := foldr Qcplus 0 xs.

(** The sum of the weights over all pairs of a member of [A] and a member of
    [B]. *)
Definition pair_weights (g : WeightedGraph.t) (A B : gset string) : Qc :=
  total ((λ u, total (edge_weight g u <$> elements B)) <$> elements A).

(** The number a call returns, for calls that do not raise. *)
Definition value (r : result Qc) : Qc :=
  match r with
  | Ok x => x
  | Raise _ => 0
  end.

(** [get_similarity_score(a, b, 'strict')] and [get_weight(a, b)] as
    numbers. *)
Definition strict_similarity (g : WeightedGraph.t) (a b : string) : Qc :=
  value (WeightedGraph.get_similarity_score a b "strict" g).

Definition weight (g : WeightedGraph.t) (a b : string) : Qc :=
  value (WeightedGraph.get_weight a b g).

(** The average of the reviews of [book] by the users [us], each weighted by
    the strict similarity of its user to [user], rounded; the rounded
    average weight of [book] when the similarities add up to zero. *)
Definition similarity_weighted_average (g : WeightedGraph.t)
    (user book : string) (us : list string) : result Qc :=
  let similarity := total (strict_similarity g user <$> us) in
  let weighted :=
    total ((λ u, strict_similarity g user u * weight g u book) <$> us) in
  if bool_decide (similarity = 0)
  then avg ← WeightedGraph.average_weight book g; Ok (Qc_of_Z (round avg))
  else Ok (Qc_of_Z (round (weighted / similarity))).

(** The sum of the strict similarities of the users [us] to [user], and the
    quotient that [similarity_weighted_average] rounds. *)
Definition similarity_total (g : WeightedGraph.t) (user : string)
    (us : list string) : Qc :=
  total (strict_similarity g user <$> us).

Definition similarity_weighted_quotient (g : WeightedGraph.t)
    (user book : string) (us : list string) : Qc :=
  total ((λ u, strict_similarity g user u * weight g u book) <$> us)
  / similarity_total g user us.

(** The other users who have an edge to [book]. *)
Definition reviewers (g : WeightedGraph.t) (user book : string)
  : list string :=
  filter (λ u, u ≠ user ∧ WeightedGraph.adjacent u book g = true)
         (elements (WeightedGraph.get_all_vertices "user" g)).

(** The other users whose edge to [book] has a positive weight. *)
Definition positive_reviewers (g : WeightedGraph.t) (user book : string)
  : list string :=
  filter (λ u, u ≠ user ∧ 0 < weight g u book)
         (elements (WeightedGraph.get_all_vertices "user" g)).

(** Every stored weight is above the value -1 from which the search for the
    best pair starts. *)
Definition weights_above_start (g : WeightedGraph.t) : Prop :=
  ∀ u vu v w,
    g !! u = Some vu → WeightedGraph.neighbours vu !! v = Some w → -1 < w.

(** The clusters are not empty, pairwise disjoint, and together the vertices
    of the graph. *)
Record partition (g : WeightedGraph.t) (cs : list (gset string)) : Prop := {
  partition_nonempty : ∀ i c, cs !! i = Some c → c ≠ ∅;
  partition_disjoint :
    ∀ i j c d, i ≠ j → cs !! i = Some c → cs !! j = Some d → c ## d;
  partition_union : ⋃ cs = dom g
}.

(** What the clustering functions are to return: a partition of the
    vertices into [num_clusters] clusters, or the singletons when there are
    no more than [num_clusters] vertices. *)
Definition clustering (g : WeightedGraph.t) (num_clusters : Z)
    (r : result (list (gset string))) : Prop :=
  ∃ cs, r = Ok cs
    ∧ ⋃ cs = dom g
    ∧ (∀ i j c d, i ≠ j → cs !! i = Some c → cs !! j = Some d → c ## d)
    ∧ (∀ c, c ∈ cs → c ≠ ∅)
    ∧ ((num_clusters ≤ Z.of_nat (size g))%Z →
       Z.of_nat (length cs) = num_clusters)
    ∧ ((Z.of_nat (size g) ≤ num_clusters)%Z →
       cs = Cluster.singletons g ∧ length cs = size g).

(** The list after [best_c2.update(best_c1)], the clusters at positions
    [i1] and [i2] being [c1] and [c2]. *)
Definition updated (cs : list (gset string)) (i2 : nat)
    (c1 c2 : gset string) : list (gset string) :=
  <[i2 := c2 ∪ c1]> cs.

(** The states of the search of [find_clusters_random] for the cluster at
    [i1]: a partner has been found, or the search is as it started. *)
Definition random_found (cs : list (gset string)) (i1 : nat)
    (acc : Qc * option nat) : Prop :=
  ∃ i2, acc.2 = Some i2 ∧ i2 ≠ i1 ∧ is_Some (cs !! i2).

Definition random_start (cs : list (gset string)) (i1 : nat)
    (acc : Qc * option nat) : Prop :=
  acc = (-1, None) ∨ random_found cs i1 acc.

(** The same for the search of [find_clusters_greedy]. *)
Definition greedy_found (cs : list (gset string))
    (acc : Qc * option nat * option nat) : Prop :=
  ∃ i1 i2, acc.1.2 = Some i1 ∧ acc.2 = Some i2 ∧ i1 ≠ i2
           ∧ is_Some (cs !! i1) ∧ is_Some (cs !! i2).

Definition greedy_start (cs : list (gset string))
    (acc : Qc * option nat * option nat) : Prop :=
  acc = (-1, None, None) ∨ greedy_found cs acc.

(** Every edge is stored at both of its ends, and both are vertices. *)
Definition Graph_edges_mutual (g : Graph.t) : Prop :=
  ∀ x vx y, g !! x = Some vx → y ∈ Graph.neighbours vx →
    ∃ vy, g !! y = Some vy ∧ x ∈ Graph.neighbours vy.

(** Every edge is stored at both of its ends with the same weight, and both
    are vertices. *)
Definition WeightedGraph_edges_mutual (g : WeightedGraph.t) : Prop :=
  ∀ x vx y w, g !! x = Some vx → WeightedGraph.neighbours vx !! y = Some w →
    ∃ vy, g !! y = Some vy ∧ WeightedGraph.neighbours vy !! x = Some w.

(** The unweighted graph a weighted graph becomes when its weights are
    dropped, and the unweighted call of a weighted call. *)
Definition forget_vertex (v : WeightedGraph._WeightedVertex)
  : Graph._Vertex :=
  Graph.mk_Vertex (WeightedGraph.kind v) (dom (WeightedGraph.neighbours v)).

Definition forget (g : WeightedGraph.t) : Graph.t := forget_vertex <$> g.

Definition forget_call (c : WeightedGraph.call) : Graph.call :=
  match c with
  | WeightedGraph.AddVertex item kind => Graph.AddVertex item kind
  | WeightedGraph.AddEdge item1 item2 _ => Graph.AddEdge item1 item2
  end.

(** The two [recommend_books] with the score of a vertex and the list of
    books as parameters. *)
Definition ranking (score : string → result Qc) (books : list string)
    (book : string) (limit : Z) : result (list string) :=
  scores_so_far ←
    foldM (λ scores vertex,
             if bool_decide (vertex ≠ book)
             then s ← score vertex; Ok (scores ++ [s])
             else Ok scores)
          [] books;
  let scores_so_far := sort_reverse scores_so_far in
  list_so_far ←
    foldM (λ acc score',
             foldM (λ acc vertex,
                      if bool_decide (vertex ≠ book)
                      then s ← score vertex;
                           if bool_decide (s = score')
                           then Ok (acc ++ [vertex]) else Ok acc
                      else Ok acc)
                   acc books)
          [] scores_so_far;
  if bool_decide (Z.of_nat (length list_so_far) < limit)%Z
  then Ok list_so_far
  else Ok (slice_to list_so_far limit).

(** The list [recommend_books] builds before it cuts it at [limit]: for
    each entry of the sorted list of scores, the other books with that
    score. *)
Definition ranked (sc : string → Qc) (books : list string) (book : string)
  : list string :=
  sort_reverse (sc <$> filter (λ v, v ≠ book) books)
    ≫= λ s, filter (λ v, v ≠ book ∧ sc v = s) books.

(** Every stored weight is an integer rating from 1 to 5. *)
Definition ratings (g : WeightedGraph.t) : Prop :=
  ∀ u vu v w,
    g !! u = Some vu → WeightedGraph.neighbours vu !! v = Some w →
    ∃ k : Z, w = Qc_of_Z k ∧ (1 ≤ k ≤ 5)%Z.

(** The graph being built by [create_book_graph] once the pairs in [D]
    have been looked at: its vertices are the books of the review graph,
    all of kind ['book'], and it has an edge between two different books
    exactly when the pair has been looked at (in one order or the other)
    and their score is above the threshold, weighted by the score. *)
Definition book_graph_after (review_graph : WeightedGraph.t)
    (threshold : Qc) (score_type : string) (D : string → string → Prop)
    (g : WeightedGraph.t) : Prop :=
  (∀ x, x ∈ WeightedGraph.get_all_vertices "book" review_graph
        ↔ is_Some (g !! x))
  ∧ (∀ x v, g !! x = Some v → WeightedGraph.kind v = "book")
  ∧ (∀ x v y w, g !! x = Some v →
       (WeightedGraph.neighbours v !! y = Some w
        ↔ y ∈ WeightedGraph.get_all_vertices "book" review_graph
          ∧ y ≠ x
          ∧ w = value (WeightedGraph.get_similarity_score
                         x y score_type review_graph)
          ∧ threshold < w
          ∧ (D x y ∨ D y x))).

(** The search of [find_clusters_greedy] after the pairs of positions in
    [P]: no pair in [P] has a larger cross-cluster weight than [best], and
    [best] is the weight of the pair kept, when one is kept. *)
Definition greedy_best (g : WeightedGraph.t) (cs : list (gset string))
    (P : nat → nat → Prop) (acc : Qc * option nat * option nat) : Prop :=
  (∀ j1 j2 d1 d2, P j1 j2 → cs !! j1 = Some d1 → cs !! j2 = Some d2 →
     value (Cluster.cross_cluster_weight g d1 d2) ≤ acc.1.1)
  ∧ (acc = (-1, None, None)
     ∨ ∃ i1 i2 c1 c2,
         acc = (value (Cluster.cross_cluster_weight g c1 c2), Some i1, Some i2)
         ∧ (i1 < i2)%nat ∧ cs !! i1 = Some c1 ∧ cs !! i2 = Some c2).

(** The same for the search of [find_clusters_random] for the cluster [c1]
    at [i1], after the positions in [P]. *)
Definition random_best (g : WeightedGraph.t) (cs : list (gset string))
    (i1 : nat) (c1 : gset string) (P : nat → Prop) (acc : Qc * option nat)
  : Prop :=
  (∀ j d, P j → j ≠ i1 → cs !! j = Some d →
     value (Cluster.cross_cluster_weight g c1 d) ≤ acc.1)
  ∧ (acc = (-1, None)
     ∨ ∃ i2 c2,
         acc = (value (Cluster.cross_cluster_weight g c1 c2), Some i2)
         ∧ i2 ≠ i1 ∧ cs !! i2 = Some c2).

(** The users and the books of the rows of reviews, their first and second
    fields. *)
Definition review_users (reviews : list (list string)) : gset string :=
  list_to_set (omap (λ row, row !! 0%nat) reviews).

Definition review_books (reviews : list (list string)) : gset string :=
  list_to_set (omap (λ row, row !! 1%nat) reviews).

(** The name that a row of names gives [book], and the name that the rows
    give it: that of the last row for it. *)
Definition named (book : string) (row : list string) : option string :=
  if bool_decide (row !! 0%nat = Some book) then row !! 1%nat else None.

Definition book_name (names : list (list string)) (book : string)
  : option string :=
  last (omap (named book) names).

(** The names that the rows of names give the books in [books]. *)
Definition names_of (books : gset string) (names : list (list string))
  : list string :=
  omap (λ row, book ← row !! 0%nat;
               if bool_decide (book ∈ books) then row !! 1%nat else None)
       names.

(** Rows of reviews with a user and a book, and rows of names with a book
    and, if it is a book in [books], a name. *)
Definition reviews_read (reviews : list (list string)) : Prop :=
  Forall (λ row, 2 ≤ length row)%nat reviews.

Definition names_read (books : gset string) (names : list (list string))
  : Prop :=
  Forall (λ row, ∃ book, row !! 0%nat = Some book
                         ∧ (book ∈ books → (2 ≤ length row)%nat)) names.

(** The row of reviews is a review by [x] of the book named [y]. *)
Definition reviews_book (names : list (list string)) (x y : string)
    (row : list string) : Prop :=
  ∃ book, row !! 0%nat = Some x ∧ row !! 1%nat = Some book
          ∧ book_name names book = Some y.

(** Rows of reviews with a rating, their third field, that [int] reads. *)
Definition ratings_read (int : string → option Z)
    (reviews : list (list string)) : Prop :=
  Forall (λ row, ∃ field, row !! 2%nat = Some field ∧ is_Some (int field))
         reviews.

(** The rating that a row of reviews gives [x] and [y]: the row is a
    review by the one of a book that [title] names the other.  The rating
    of [x] and [y] is that of the last such row. *)
Definition rated (title : string → option string) (int : string → option Z)
    (x y : string) (row : list string) : option Z :=
  u ← row !! 0%nat;
  book ← row !! 1%nat;
  name ← title book;
  field ← row !! 2%nat;
  n ← int field;
  if bool_decide ((x = u ∧ y = name) ∨ (x = name ∧ y = u))
  then Some n else None.

Definition rating (names : list (list string)) (int : string → option Z)
    (reviews : list (list string)) (x y : string) : option Z :=
  last (omap (rated (book_name names) int x y) reviews).

(** The row has no rating that [int] reads, and [e] is what reading it
    raises: [IndexError] without a third field, [ValueError] with a third
    field that [int] does not read. *)
Definition unrated (int : string → option Z) (row : list string) (e : exn)
  : Prop :=
  match row !! 2%nat with
  | None => e = IndexError
  | Some field => int field = None ∧ e = ValueError
  end.

(** The state of the second loop of [evaluate_predictor] after [n] rows:
    [n] reviews and [n] errors, each of them in [E], and as many correct
    predictions as there are errors of 0. *)
Definition tally (E : Qc → Prop) (n : nat) (acc : Z * Z * list Qc) : Prop :=
  acc.1.1 = Z.of_nat n
  ∧ length acc.2 = n
  ∧ Forall E acc.2
  ∧ acc.1.2 = Z.of_nat (length (filter (λ e, e = 0) acc.2)).

(** Every prediction and every rating of a row of [test] that [int] reads
    differ by an amount in [E]. *)
Definition errors_in {P : Type} `{ReviewScorePredictor P} (E : Qc → Prop)
    (predictor : P) (int : string → option Z) (test : list (list string))
  : Prop :=
  ∀ row user name field s actual,
    row ∈ test → row !! 2%nat = Some field → int field = Some actual →
    predict_review_score predictor user name = Ok s →
    E (Qcabs.Qcabs (s - Qc_of_Z actual)).

(** Every stored weight lies between [lo] and [hi]. *)
Definition weights_between (lo hi : Qc) (g : WeightedGraph.t) : Prop :=
  ∀ u vu v w,
    g !! u = Some vu → WeightedGraph.neighbours vu !! v = Some w →
    lo ≤ w ≤ hi.

(** Every stored weight is an integer between [lo] and [hi]. *)
Definition integer_weights (lo hi : Z) (g : WeightedGraph.t) : Prop :=
  ∀ u vu v w,
    g !! u = Some vu → WeightedGraph.neighbours vu !! v = Some w →
    ∃ k : Z, w = Qc_of_Z k ∧ (lo ≤ k ≤ hi)%Z.

(** A graph of at most 1024 vertices whose weights are integers from
    -1024 to 1024.  A sum of its weights over pairs of vertices is below
    [2^53] in size, so that binary64 holds it exactly whatever the order of
    the terms; and two different quotients of such sums by numbers of pairs
    are at least [2^-36] apart, so that they are still different, and in
    the same order, when rounded to binary64. *)
Definition small_weights (g : WeightedGraph.t) : Prop :=
  (Z.of_nat (size g) ≤ 2 ^ 10)%Z ∧ integer_weights (- 2 ^ 10) (2 ^ 10) g.

(** [x] is at least [2^-20] away from every number halfway between two
    integers: a binary64 number within [2^-21] of [x] rounds to the same
    integer as [x]. *)
Definition clear_of_ties (x : Qc) : Prop :=
  Qcabs.Qcabs (x - Qc_of_Z (round x))
  ≤ Qc_of_Z 1 / Qc_of_Z 2 - Qc_of_Z 1 / Qc_of_Z (2 ^ 20).

(** * Properties *)

(** ** Results and numbers *)

Lemma Qc_of_nat_0 : Qc_of_nat 0 = 0.
Proof. apply Z2Qc_inj_0. Qed.

Lemma Qc_of_nat_eq_0 (n : nat) : Qc_of_nat n = 0 ↔ n = 0%nat.
Proof.
  unfold Qc_of_nat. rewrite <- Z2Qc_inj_0, Z2Qc_inj_iff. lia.
Qed.

Lemma Qc_of_nat_le (n m : nat) : (n ≤ m)%nat → Qc_of_nat n ≤ Qc_of_nat m.
Proof. intros H. unfold Qc_of_nat. rewrite <- Z2Qc_inj_le. lia. Qed.

Lemma Qc_of_nat_pos (n : nat) : n ≠ 0%nat → 0 < Qc_of_nat n.
Proof.
  intros H. unfold Qc_of_nat. rewrite <- Z2Qc_inj_0, <- Z2Qc_inj_lt. lia.
Qed.

Lemma true_div_Ok (x y : Qc) : y ≠ 0 → true_div x y = Ok (x / y).
Proof. intros H. unfold true_div. by rewrite bool_decide_eq_false_2. Qed.

Lemma Qcdiv_le_mono (x y z : Qc) : 0 < z → x ≤ y → x / z ≤ y / z.
Proof.
  intros Hz Hxy. unfold Qcdiv.
  apply Qcmult_le_mono_nonneg_r; [|done].
  by apply Qclt_le_weak, Qcinv_pos.
Qed.

(** ** Ranges of weights *)

Lemma weights_between_checked (lo hi : Qc) (g : WeightedGraph.t) :
  bool_decide
    (map_Forall (λ _ vu, map_Forall (λ _ w, lo ≤ w ≤ hi)
                           (WeightedGraph.neighbours vu)) g) = true →
  weights_between lo hi g.
Proof.
  intros H%bool_decide_eq_true u vu v w Hu Hw.
  by apply (H u vu Hu v w).
Qed.

Lemma integer_weights_checked (lo hi : Z) (g : WeightedGraph.t) :
  bool_decide
    (map_Forall
       (λ _ vu, map_Forall
                  (λ _ w, w = Qc_of_Z (Qnum (this w))
                          ∧ (lo ≤ Qnum (this w) ≤ hi)%Z)
                  (WeightedGraph.neighbours vu)) g) = true →
  integer_weights lo hi g.
Proof.
  intros H%bool_decide_eq_true u vu v w Hu Hw.
  destruct (H u vu Hu v w Hw) as [Heq Hk]. eauto.
Qed.

Lemma integer_weights_between (lo hi : Z) (g : WeightedGraph.t) :
  integer_weights lo hi g →
  weights_between (Qc_of_Z lo) (Qc_of_Z hi) g.
Proof.
  intros H u vu v w Hu Hw. destruct (H u vu v w Hu Hw) as (k & -> & Hk).
  destruct Hk. split; rewrite <- Z2Qc_inj_le; lia.
Qed.

Lemma weights_between_above_start (lo hi : Qc) (g : WeightedGraph.t) :
  -1 < lo → weights_between lo hi g → weights_above_start g.
Proof.
  intros Hlo H u vu v w Hu Hw. destruct (H u vu v w Hu Hw) as [Hw' _].
  by eapply Qclt_le_trans.
Qed.

(** ** Adjacency *)

Lemma Graph_adjacent_iff (g : Graph.t) (a b : string) :
  Graph.adjacent a b g = true
  ↔ ∃ va, g !! a = Some va ∧ is_Some (g !! b) ∧ b ∈ Graph.neighbours va.
Proof.
  unfold Graph.adjacent.
  destruct (g !! a) as [va|]; [|split; [done|intros (?&?&_); done]].
  destruct (g !! b) as [vb|]; [|split; [done|intros (?&?&[? ?]&?); done]].
  rewrite existsb_exists. split.
  - intros (x & Hx & Hd). apply bool_decide_eq_true in Hd as ->.
    apply list_elem_of_In, elem_of_elements in Hx. eauto.
  - intros (va' & [= <-] & _ & Hin). exists b.
    split; [by apply list_elem_of_In, elem_of_elements|].
    by apply bool_decide_eq_true.
Qed.

Lemma WeightedGraph_adjacent_iff (g : WeightedGraph.t) (a b : string) :
  WeightedGraph.adjacent a b g = true
  ↔ ∃ va, g !! a = Some va ∧ is_Some (g !! b)
          ∧ is_Some (WeightedGraph.neighbours va !! b).
Proof.
  unfold WeightedGraph.adjacent.
  destruct (g !! a) as [va|]; [|split; [done|intros (?&?&_); done]].
  destruct (g !! b) as [vb|]; [|split; [done|intros (?&?&[? ?]&?); done]].
  rewrite existsb_exists. split.
  - intros (x & Hx & Hd). apply bool_decide_eq_true in Hd as ->.
    apply list_elem_of_In, list_elem_of_fmap in Hx as ([k w] & -> & Hkw).
    apply elem_of_map_to_list in Hkw. eauto.
  - intros (va' & [= <-] & _ & [w Hw]). exists b.
    split; [|by apply bool_decide_eq_true].
    apply list_elem_of_In, list_elem_of_fmap. exists (b, w).
    split; [done|]. by apply elem_of_map_to_list.
Qed.

Lemma WeightedGraph_adjacent_false (g : WeightedGraph.t) (a b : string) :
  WeightedGraph.adjacent a b g = false
  ↔ ∀ va, g !! a = Some va → is_Some (g !! b)
          → WeightedGraph.neighbours va !! b = None.
Proof.
  rewrite <- not_true_iff_false, WeightedGraph_adjacent_iff. split.
  - intros Hn va Ha Hb. apply eq_None_not_Some. intros Hs. apply Hn. eauto.
  - intros Hn (va & Ha & Hb & [w Hw]). specialize (Hn va Ha Hb). congruence.
Qed.

(** ** [add_edge] *)

Lemma Graph_add_edge_present (g : Graph.t) (a b : string) :
  is_Some (g !! a) → is_Some (g !! b) →
  Graph.add_edge a b g
  = (Ok (), Graph.neighbours_add b a (Graph.neighbours_add a b g)).
Proof. intros [va Ha] [vb Hb]. unfold Graph.add_edge. by rewrite Ha, Hb. Qed.

Lemma Graph_add_edge_absent (g : Graph.t) (a b : string) :
  g !! a = None ∨ g !! b = None →
  Graph.add_edge a b g = (Raise ValueError, g).
Proof.
  intros H. unfold Graph.add_edge.
  destruct (g !! a), (g !! b); try done. by destruct H.
Qed.

Lemma WeightedGraph_add_edge_present (g : WeightedGraph.t) (a b : string)
    (w : Qc) :
  is_Some (g !! a) → is_Some (g !! b) →
  WeightedGraph.add_edge a b w g
  = (Ok (),
     WeightedGraph.neighbours_set b a w
       (WeightedGraph.neighbours_set a b w g)).
Proof.
  intros [va Ha] [vb Hb]. unfold WeightedGraph.add_edge. by rewrite Ha, Hb.
Qed.

Lemma WeightedGraph_add_edge_absent (g : WeightedGraph.t) (a b : string)
    (w : Qc) :
  g !! a = None ∨ g !! b = None →
  WeightedGraph.add_edge a b w g = (Raise ValueError, g).
Proof.
  intros H. unfold WeightedGraph.add_edge.
  destruct (g !! a), (g !! b); try done. by destruct H.
Qed.

(** The neighbour map of [x] after [add_edge a b w] on present [a], [b]. *)
Lemma WeightedGraph_add_edge_lookup (g : WeightedGraph.t) (a b x : string)
    (w : Qc) (vx : WeightedGraph._WeightedVertex) :
  is_Some (g !! a) → is_Some (g !! b) → g !! x = Some vx →
  ∃ vx', (WeightedGraph.add_edge a b w g).2 !! x = Some vx'
    ∧ WeightedGraph.kind vx' = WeightedGraph.kind vx
    ∧ ∀ y, WeightedGraph.neighbours vx' !! y =
        if bool_decide ((x = a ∧ y = b) ∨ (x = b ∧ y = a)) then Some w
        else WeightedGraph.neighbours vx !! y.
Proof.
  intros Ha Hb Hx. rewrite WeightedGraph_add_edge_present by done. simpl.
  unfold WeightedGraph.neighbours_set.
  destruct (decide (x = b)) as [Hxb|Hxb], (decide (x = a)) as [Hxa|Hxa];
    subst.
  - rewrite lookup_alter_eq, lookup_alter_eq, Hx. simpl.
    eexists; split; [done|]. split; [done|]. intros y. simpl.
    destruct (decide (y = a)) as [->|Hy].
    + rewrite lookup_insert_eq. by rewrite bool_decide_eq_true_2 by auto.
    + rewrite !lookup_insert_ne by done.
      rewrite bool_decide_eq_false_2; [done|intuition congruence].
  - rewrite lookup_alter_eq, lookup_alter_ne, Hx by done. simpl.
    eexists; split; [done|]. split; [done|]. intros y. simpl.
    destruct (decide (y = a)) as [->|Hy].
    + rewrite lookup_insert_eq. by rewrite bool_decide_eq_true_2 by auto.
    + rewrite lookup_insert_ne by done.
      rewrite bool_decide_eq_false_2; [done|intuition congruence].
  - rewrite lookup_alter_ne, lookup_alter_eq, Hx by done. simpl.
    eexists; split; [done|]. split; [done|]. intros y. simpl.
    destruct (decide (y = b)) as [->|Hy].
    + rewrite lookup_insert_eq. by rewrite bool_decide_eq_true_2 by auto.
    + rewrite lookup_insert_ne by done.
      rewrite bool_decide_eq_false_2; [done|intuition congruence].
  - rewrite !lookup_alter_ne, Hx by done.
    eexists; split; [done|]. split; [done|]. intros y.
    rewrite bool_decide_eq_false_2; [done|intuition congruence].
Qed.

(** C7.  In a weighted graph in which [a] and [b] are vertices,
    [add_edge(a, b, w)] returns normally and leaves a graph in which
    [adjacent(a, b)] and [adjacent(b, a)] are true and
    [get_weight(a, b) = get_weight(b, a) = w], whatever weight the pair had
    before. *)
Theorem WeightedGraph_add_edge_symmetric_weight
    (g : WeightedGraph.t) (a b : string) (w : Qc) :
  a ∈ dom g → b ∈ dom g →
  let g' := (WeightedGraph.add_edge a b w g).2 in
  (WeightedGraph.add_edge a b w g).1 = Ok ()
  ∧ WeightedGraph.adjacent a b g' = true
  ∧ WeightedGraph.adjacent b a g' = true
  ∧ WeightedGraph.get_weight a b g' = Ok w
  ∧ WeightedGraph.get_weight b a g' = Ok w.
Proof.
  intros Ha Hb g'. apply elem_of_dom in Ha, Hb.
  pose proof Ha as [va Hva]. pose proof Hb as [vb Hvb].
  destruct (WeightedGraph_add_edge_lookup g a b a w va Ha Hb Hva)
    as (va' & Ha' & _ & Hna).
  destruct (WeightedGraph_add_edge_lookup g a b b w vb Ha Hb Hvb)
    as (vb' & Hb' & _ & Hnb).
  fold g' in Ha', Hb'.
  assert (WeightedGraph.neighbours va' !! b = Some w) as Hab.
  { rewrite Hna. by rewrite bool_decide_eq_true_2 by auto. }
  assert (WeightedGraph.neighbours vb' !! a = Some w) as Hba.
  { rewrite Hnb. by rewrite bool_decide_eq_true_2 by auto. }
  split; [by rewrite WeightedGraph_add_edge_present|].
  split; [apply WeightedGraph_adjacent_iff; eauto 6|].
  split; [apply WeightedGraph_adjacent_iff; eauto 6|].
  unfold WeightedGraph.get_weight. rewrite Ha', Hb', Hab, Hba. done.
Qed.

Lemma WeightedGraph_add_edge_symmetric_weight_witness :
  let g := WeightedGraph.run
             [WeightedGraph.AddVertex "u" "user";
              WeightedGraph.AddVertex "b" "book";
              WeightedGraph.AddEdge "u" "b" (q 2)] in
  let g' := (WeightedGraph.add_edge "u" "b" (q 5) g).2 in
  WeightedGraph.get_weight "u" "b" g = Ok (q 2)
  ∧ WeightedGraph.get_weight "u" "b" g' = Ok (q 5)
  ∧ WeightedGraph.get_weight "b" "u" g' = Ok (q 5).
Proof.
  intros g g'. split; [reflexivity|].
  apply (WeightedGraph_add_edge_symmetric_weight g "u" "b" (q 5));
    vm_compute; reflexivity.
Defined.

(** C10.  When [a] or [b] is not a vertex, [add_edge(a, b)] of the
    unweighted graph and [add_edge(a, b, w)] of the weighted graph raise
    [ValueError] and leave the graph, with all its vertices, adjacency and
    weights, as it was. *)
Theorem add_edge_absent_raises_and_keeps_graph (a b : string) :
  (∀ g : Graph.t, a ∉ dom g ∨ b ∉ dom g →
     Graph.add_edge a b g = (Raise ValueError, g))
  ∧ (∀ (g : WeightedGraph.t) (w : Qc), a ∉ dom g ∨ b ∉ dom g →
       WeightedGraph.add_edge a b w g = (Raise ValueError, g)).
Proof.
  split.
  - intros g H. apply Graph_add_edge_absent.
    by rewrite <- !not_elem_of_dom.
  - intros g w H. apply WeightedGraph_add_edge_absent.
    by rewrite <- !not_elem_of_dom.
Qed.

Lemma add_edge_absent_raises_and_keeps_graph_witness :
  let g := Graph.run [Graph.AddVertex "u" "user"] in
  let wg := WeightedGraph.run [WeightedGraph.AddVertex "u" "user"] in
  Graph.add_edge "u" "b" g = (Raise ValueError, g)
  ∧ WeightedGraph.add_edge "u" "b" (q 4) wg = (Raise ValueError, wg).
Proof.
  intros g wg.
  destruct (add_edge_absent_raises_and_keeps_graph "u" "b") as [H1 H2].
  split.
  - apply H1. right. apply not_elem_of_dom. reflexivity.
  - apply H2. right. apply not_elem_of_dom. reflexivity.
Defined.

(** ** Self-loops *)

Lemma Graph_step_no_self_loop (g : Graph.t) (c : Graph.call) :
  Graph_distinct_ends c → Graph_no_self_loop g →
  Graph_no_self_loop (Graph.step g c).
Proof.
  intros Hc Hg. destruct c as [item kind|item1 item2]; simpl in *.
  - unfold Graph.add_vertex. destruct (g !! item) eqn:Hi; [done|].
    intros x v. rewrite lookup_insert. case_decide.
    + intros [= <-]. simpl. set_solver.
    + apply Hg.
  - unfold Graph.add_edge.
    destruct (g !! item1) eqn:H1; [|done].
    destruct (g !! item2) eqn:H2; [|done]. simpl.
    intros x v. unfold Graph.neighbours_add.
    rewrite lookup_alter. case_decide as Hx2.
    + subst x. rewrite lookup_alter_ne, H2 by done. intros [= <-]. simpl.
      specialize (Hg _ _ H2).
      rewrite not_elem_of_union, not_elem_of_singleton. by split.
    + rewrite lookup_alter. case_decide as Hx1; [|apply Hg].
      subst x. rewrite H1. intros [= <-]. simpl.
      specialize (Hg _ _ H1).
      rewrite not_elem_of_union, not_elem_of_singleton. by split.
Qed.

Lemma WeightedGraph_step_no_self_loop (g : WeightedGraph.t)
    (c : WeightedGraph.call) :
  WeightedGraph_distinct_ends c → WeightedGraph_no_self_loop g →
  WeightedGraph_no_self_loop (WeightedGraph.step g c).
Proof.
  intros Hc Hg. destruct c as [item kind|item1 item2 w]; simpl in *.
  - unfold WeightedGraph.add_vertex. destruct (g !! item) eqn:Hi; [done|].
    intros x v. rewrite lookup_insert. case_decide.
    + by intros [= <-].
    + apply Hg.
  - unfold WeightedGraph.add_edge.
    destruct (g !! item1) eqn:H1; [|done].
    destruct (g !! item2) eqn:H2; [|done]. simpl.
    intros x v. unfold WeightedGraph.neighbours_set.
    rewrite lookup_alter. case_decide as Hx2.
    + subst x. rewrite lookup_alter_ne, H2 by done. intros [= <-]. simpl.
      rewrite lookup_insert_ne by done. by apply Hg.
    + rewrite lookup_alter. case_decide as Hx1; [|apply Hg].
      subst x. rewrite H1. intros [= <-]. simpl.
      rewrite lookup_insert_ne by done. by apply Hg.
Qed.

Lemma Graph_run_no_self_loop (cs : list Graph.call) :
  Forall Graph_distinct_ends cs → Graph_no_self_loop (Graph.run cs).
Proof.
  unfold Graph.run. intros Hcs.
  assert (Graph_no_self_loop Graph.empty) as H0 by (intros x v; done).
  revert H0. generalize Graph.empty.
  induction Hcs as [|c cs Hc _ IH]; intros g Hg; simpl; [done|].
  by apply IH, Graph_step_no_self_loop.
Qed.

Lemma WeightedGraph_run_no_self_loop (cs : list WeightedGraph.call) :
  Forall WeightedGraph_distinct_ends cs →
  WeightedGraph_no_self_loop (WeightedGraph.run cs).
Proof.
  unfold WeightedGraph.run. intros Hcs.
  assert (WeightedGraph_no_self_loop WeightedGraph.empty) as H0
    by (intros x v; done).
  revert H0. generalize WeightedGraph.empty.
  induction Hcs as [|c cs Hc _ IH]; intros g Hg; simpl; [done|].
  by apply IH, WeightedGraph_step_no_self_loop.
Qed.

(** C2, as the claim states it, fails: after [add_vertex(x)] and
    [add_edge(x, x)] the vertex [x] is adjacent to itself and is one of its
    own neighbours, in the unweighted and in the weighted graph. *)
Lemma self_loop_after_add_edge_same_item :
  let g := Graph.run [Graph.AddVertex "x" "user"; Graph.AddEdge "x" "x"] in
  let wg := WeightedGraph.run
              [WeightedGraph.AddVertex "x" "user";
               WeightedGraph.AddEdge "x" "x" (q 1)] in
  ("x" ∈ dom g)
  ∧ Graph.adjacent "x" "x" g = true
  ∧ Graph.get_neighbours "x" g = Ok {["x"]}
  ∧ ("x" ∈ dom wg)
  ∧ WeightedGraph.adjacent "x" "x" wg = true
  ∧ WeightedGraph.get_neighbours "x" wg = Ok {["x"]}.
Proof.
  intros g wg.
  split; [apply elem_of_dom; vm_compute; eauto|].
  split; [by vm_compute|]. split; [by vm_compute|].
  split; [apply elem_of_dom; vm_compute; eauto|].
  split; by vm_compute.
Qed.

(** C2, amended.  In every graph left by a sequence of [add_vertex] and
    [add_edge] calls from the empty graph in which every [add_edge] call has
    two different items, no vertex is its own neighbour: [adjacent(x, x)]
    is false and [x] is not in [get_neighbours(x)], in the unweighted and in
    the weighted graph.  A call [add_edge(x, x)] on a vertex [x] of any
    graph, with any weight in the weighted graph, is accepted and makes [x]
    its own neighbour: afterwards [adjacent(x, x)] is true and [x] is in
    [get_neighbours(x)]. *)
Theorem no_self_loop_when_add_edge_items_differ :
  (∀ (cs : list Graph.call) (x : string),
     Forall Graph_distinct_ends cs → x ∈ dom (Graph.run cs) →
     Graph.adjacent x x (Graph.run cs) = false
     ∧ ∃ s, Graph.get_neighbours x (Graph.run cs) = Ok s ∧ x ∉ s)
  ∧ (∀ (cs : list WeightedGraph.call) (x : string),
       Forall WeightedGraph_distinct_ends cs →
       x ∈ dom (WeightedGraph.run cs) →
       WeightedGraph.adjacent x x (WeightedGraph.run cs) = false
       ∧ ∃ s, WeightedGraph.get_neighbours x (WeightedGraph.run cs) = Ok s
              ∧ x ∉ s)
  ∧ (∀ (g : Graph.t) (x : string),
       x ∈ dom g →
       (Graph.add_edge x x g).1 = Ok ()
       ∧ Graph.adjacent x x (Graph.add_edge x x g).2 = true
       ∧ ∃ s, Graph.get_neighbours x (Graph.add_edge x x g).2 = Ok s
              ∧ x ∈ s)
  ∧ (∀ (g : WeightedGraph.t) (x : string) (w : Qc),
       x ∈ dom g →
       (WeightedGraph.add_edge x x w g).1 = Ok ()
       ∧ WeightedGraph.adjacent x x (WeightedGraph.add_edge x x w g).2 = true
       ∧ ∃ s, WeightedGraph.get_neighbours x
                (WeightedGraph.add_edge x x w g).2 = Ok s
              ∧ x ∈ s).
Proof.
  split; [|split; [|split]].
  - intros cs x Hcs Hx. apply elem_of_dom in Hx as [v Hv].
    pose proof (Graph_run_no_self_loop cs Hcs x v Hv) as Hn. split.
    + apply not_true_iff_false. rewrite Graph_adjacent_iff.
      intros (v' & Hv' & _ & Hin). congruence.
    + unfold Graph.get_neighbours. rewrite Hv. eauto.
  - intros cs x Hcs Hx. apply elem_of_dom in Hx as [v Hv].
    pose proof (WeightedGraph_run_no_self_loop cs Hcs x v Hv) as Hn. split.
    + apply WeightedGraph_adjacent_false. intros v' Hv' _. congruence.
    + unfold WeightedGraph.get_neighbours. rewrite Hv.
      eexists; split; [done|].
      rewrite elem_of_list_to_set, list_elem_of_fmap.
      intros ([k w] & -> & Hkw). apply elem_of_map_to_list in Hkw.
      simpl in Hn. congruence.
  - intros g x Hx. pose proof Hx as [v Hv]%elem_of_dom.
    rewrite Graph_add_edge_present by by eexists. simpl.
    assert (Graph.neighbours_add x x (Graph.neighbours_add x x g) !! x
            = Some (Graph.mk_Vertex (Graph.kind v)
                      (Graph.neighbours v ∪ {[x]} ∪ {[x]}))) as Hx'.
    { unfold Graph.neighbours_add. by rewrite !lookup_alter_eq, Hv. }
    split; [done|]. split.
    + apply Graph_adjacent_iff. eexists. split; [exact Hx'|].
      split; [by eexists|]. simpl. set_solver.
    + unfold Graph.get_neighbours. rewrite Hx'. eexists. split; [done|].
      simpl. set_solver.
  - intros g x w Hx. pose proof Hx as [v Hv]%elem_of_dom.
    rewrite WeightedGraph_add_edge_present by by eexists. simpl.
    assert (WeightedGraph.neighbours_set x x w
              (WeightedGraph.neighbours_set x x w g) !! x
            = Some (WeightedGraph.mk_WeightedVertex (WeightedGraph.kind v)
                      (<[x := w]> (<[x := w]> (WeightedGraph.neighbours v)))))
      as Hx'.
    { unfold WeightedGraph.neighbours_set.
      by rewrite !lookup_alter_eq, Hv. }
    split; [done|]. split.
    + apply WeightedGraph_adjacent_iff. eexists. split; [exact Hx'|].
      split; [by eexists|]. simpl. exists w. apply lookup_insert_eq.
    + unfold WeightedGraph.get_neighbours. rewrite Hx'.
      eexists. split; [done|]. simpl.
      rewrite elem_of_list_to_set, list_elem_of_fmap. exists (x, w).
      split; [done|]. apply elem_of_map_to_list, lookup_insert_eq.
Qed.

Lemma no_self_loop_when_add_edge_items_differ_witness :
  let cs := [Graph.AddVertex "u" "user"; Graph.AddVertex "b" "book";
             Graph.AddEdge "u" "b"] in
  let wcs := [WeightedGraph.AddVertex "u" "user";
              WeightedGraph.AddVertex "b" "book";
              WeightedGraph.AddEdge "u" "b" (q 3)] in
  Graph.adjacent "u" "u" (Graph.run cs) = false
  ∧ WeightedGraph.adjacent "b" "b" (WeightedGraph.run wcs) = false
  ∧ Graph.adjacent "u" "u" (Graph.add_edge "u" "u" (Graph.run cs)).2 = true
  ∧ WeightedGraph.adjacent "b" "b"
      (WeightedGraph.add_edge "b" "b" (q 1) (WeightedGraph.run wcs)).2
    = true.
Proof.
  intros cs wcs.
  destruct no_self_loop_when_add_edge_items_differ as (H1 & H2 & H3 & H4).
  split; [|split; [|split]].
  - apply (H1 cs "u").
    + repeat constructor; simpl; discriminate.
    + apply elem_of_dom. vm_compute. eauto.
  - apply (H2 wcs "b").
    + repeat constructor; simpl; discriminate.
    + apply elem_of_dom. vm_compute. eauto.
  - apply (H3 (Graph.run cs) "u"). apply elem_of_dom. vm_compute. eauto.
  - apply (H4 (WeightedGraph.run wcs) "b" (q 1)).
    apply elem_of_dom. vm_compute. eauto.
Defined.

(** ** Similarity scores *)

Section similarity.

Lemma guarded_true_div (d1 d2 n m : nat) :
  (d1 ≤ m)%nat →
  (if bool_decide (d1 = 0%nat ∨ d2 = 0%nat) then Ok 0
   else true_div (Qc_of_nat n) (Qc_of_nat m))
  = Ok (quotient d1 d2 n m).
Proof.
  intros Hm. unfold quotient. case_bool_decide as Hd; [done|].
  apply true_div_Ok. rewrite Qc_of_nat_eq_0. lia.
Qed.

Lemma Graph_similarity_score_Ok (v1 v2 : Graph._Vertex) :
  Graph.similarity_score v1 v2
  = Ok (quotient (Graph.degree v1) (Graph.degree v2)
          (size (Graph.neighbours v1 ∩ Graph.neighbours v2))
          (size (Graph.neighbours v1 ∪ Graph.neighbours v2))).
Proof.
  unfold Graph.similarity_score. apply guarded_true_div.
  unfold Graph.degree. apply subseteq_size. set_solver.
Qed.

Context (v1 v2 : WeightedGraph._WeightedVertex).

Local Abbreviation n1 := (WeightedGraph.neighbours v1).
Local Abbreviation n2 := (WeightedGraph.neighbours v2).

Lemma degree_le_or_set : (WeightedGraph.degree v1 ≤ size (dom n1 ∪ dom n2))%nat.
Proof.
  unfold WeightedGraph.degree. rewrite <- (size_dom (D:=gset string)).
  apply subseteq_size. set_solver.
Qed.

Lemma similarity_score_unweighted_Ok :
  WeightedGraph.similarity_score_unweighted v1 v2
  = Ok (quotient (WeightedGraph.degree v1) (WeightedGraph.degree v2)
          (size (dom n1 ∩ dom n2)) (size (dom n1 ∪ dom n2))).
Proof.
  unfold WeightedGraph.similarity_score_unweighted.
  apply guarded_true_div, degree_le_or_set.
Qed.

Lemma similarity_score_strict_Ok :
  WeightedGraph.similarity_score_strict v1 v2
  = Ok (quotient (WeightedGraph.degree v1) (WeightedGraph.degree v2)
          (size (dom (filter (λ xw, n2 !! xw.1 = Some xw.2) n1)))
          (size (dom n1 ∪ dom n2))).
Proof.
  unfold WeightedGraph.similarity_score_strict.
  apply guarded_true_div, degree_le_or_set.
Qed.

(** The neighbours counted by the strict score: those both vertices reach
    with the same weight. *)
Lemma elem_of_strict_and_set (x : string) :
  x ∈ dom (filter (λ xw, n2 !! xw.1 = Some xw.2) n1)
  ↔ ∃ w, n1 !! x = Some w ∧ n2 !! x = Some w.
Proof.
  rewrite elem_of_dom. unfold is_Some.
  setoid_rewrite map_lookup_filter_Some. simpl. done.
Qed.

Lemma strict_and_set_subseteq :
  dom (filter (λ xw, n2 !! xw.1 = Some xw.2) n1) ⊆ dom n1 ∩ dom n2.
Proof.
  intros x. rewrite elem_of_strict_and_set, elem_of_intersection.
  intros (w & H1 & H2). split; by eapply elem_of_dom_2.
Qed.

End similarity.

Lemma strict_and_set_comm (n1 n2 : gmap string Qc) :
  dom (filter (λ xw, n2 !! xw.1 = Some xw.2) n1)
  = dom (filter (λ xw, n1 !! xw.1 = Some xw.2) n2).
Proof.
  apply set_eq. intros x.
  pose proof (elem_of_strict_and_set (WeightedGraph.mk_WeightedVertex "" n1)
                (WeightedGraph.mk_WeightedVertex "" n2) x) as H12.
  pose proof (elem_of_strict_and_set (WeightedGraph.mk_WeightedVertex "" n2)
                (WeightedGraph.mk_WeightedVertex "" n1) x) as H21.
  simpl in *. rewrite H12, H21. split; intros (w & ? & ?); eauto.
Qed.

Lemma quotient_comm (d1 d2 n m : nat) : quotient d1 d2 n m = quotient d2 d1 n m.
Proof.
  unfold quotient.
  assert (bool_decide (d1 = 0%nat ∨ d2 = 0%nat)
          = bool_decide (d2 = 0%nat ∨ d1 = 0%nat)) as ->; [|done].
  apply bool_decide_ext. tauto.
Qed.

Lemma quotient_degree_0 (d1 d2 n m : nat) :
  d1 = 0%nat ∨ d2 = 0%nat → quotient d1 d2 n m = 0.
Proof. intros H. unfold quotient. by rewrite bool_decide_eq_true_2. Qed.

Lemma quotient_le (d1 d2 n n' m : nat) :
  (d1 ≤ m)%nat → (n ≤ n')%nat → quotient d1 d2 n m ≤ quotient d1 d2 n' m.
Proof.
  intros Hm Hn. unfold quotient. case_bool_decide as Hd; [done|].
  apply Qcdiv_le_mono; [|by apply Qc_of_nat_le].
  apply Qc_of_nat_pos. lia.
Qed.

Lemma WeightedGraph_similarity_symmetric (v1 v2 : WeightedGraph._WeightedVertex)
    (score_type : string) :
  (if bool_decide (score_type = "unweighted")
   then WeightedGraph.similarity_score_unweighted v1 v2
   else WeightedGraph.similarity_score_strict v1 v2)
  = (if bool_decide (score_type = "unweighted")
     then WeightedGraph.similarity_score_unweighted v2 v1
     else WeightedGraph.similarity_score_strict v2 v1).
Proof.
  rewrite !similarity_score_unweighted_Ok, !similarity_score_strict_Ok.
  rewrite (quotient_comm (WeightedGraph.degree v2)).
  rewrite (quotient_comm (WeightedGraph.degree v2)).
  rewrite (strict_and_set_comm (WeightedGraph.neighbours v2)).
  rewrite (comm_L (∩) (dom (WeightedGraph.neighbours v2))).
  rewrite (comm_L (∪) (dom (WeightedGraph.neighbours v2))).
  done.
Qed.

(** C9.  For present vertices [a] and [b] the similarity score of [(a, b)]
    is a number and equals that of [(b, a)], for the score of the unweighted
    graph and for the unweighted and the strict score of the weighted graph;
    and when [a] or [b] has degree 0 the score is exactly 0. *)
Theorem similarity_score_symmetric_and_0_at_degree_0 :
  (∀ (g : Graph.t) (a b : string) (va vb : Graph._Vertex),
     g !! a = Some va → g !! b = Some vb →
     (∃ s, Graph.get_similarity_score a b g = Ok s)
     ∧ Graph.get_similarity_score a b g = Graph.get_similarity_score b a g
     ∧ (Graph.degree va = 0%nat ∨ Graph.degree vb = 0%nat →
        Graph.get_similarity_score a b g = Ok 0))
  ∧ (∀ (g : WeightedGraph.t) (a b : string)
       (va vb : WeightedGraph._WeightedVertex) (score_type : string),
       g !! a = Some va → g !! b = Some vb →
       (∃ s, WeightedGraph.get_similarity_score a b score_type g = Ok s)
       ∧ WeightedGraph.get_similarity_score a b score_type g
         = WeightedGraph.get_similarity_score b a score_type g
       ∧ (WeightedGraph.degree va = 0%nat ∨ WeightedGraph.degree vb = 0%nat →
          WeightedGraph.get_similarity_score a b score_type g = Ok 0)).
Proof.
  split.
  - intros g a b va vb Ha Hb. unfold Graph.get_similarity_score.
    rewrite Ha, Hb, !Graph_similarity_score_Ok.
    split; [eauto|]. split.
    + rewrite (quotient_comm (Graph.degree vb)).
      rewrite (comm_L (∩) (Graph.neighbours vb)).
      by rewrite (comm_L (∪) (Graph.neighbours vb)).
    + intros Hd. by rewrite quotient_degree_0.
  - intros g a b va vb score_type Ha Hb.
    unfold WeightedGraph.get_similarity_score. rewrite Ha, Hb.
    split; [|split].
    + rewrite similarity_score_unweighted_Ok, similarity_score_strict_Ok.
      case_bool_decide; eauto.
    + apply WeightedGraph_similarity_symmetric.
    + intros Hd.
      rewrite similarity_score_unweighted_Ok, similarity_score_strict_Ok.
      rewrite !quotient_degree_0 by done. by case_bool_decide.
Qed.

Lemma similarity_score_symmetric_and_0_at_degree_0_witness :
  let g := WeightedGraph.run
             [WeightedGraph.AddVertex "u" "user";
              WeightedGraph.AddVertex "v" "user";
              WeightedGraph.AddVertex "b" "book";
              WeightedGraph.AddEdge "u" "b" (q 4)] in
  WeightedGraph.get_similarity_score "u" "v" "strict" g = Ok 0.
Proof.
  intros g.
  destruct similarity_score_symmetric_and_0_at_degree_0 as [_ H].
  eapply (H g "u" "v" _ (WeightedGraph.mk_WeightedVertex "user" ∅) "strict").
  - reflexivity.
  - reflexivity.
  - right. reflexivity.
Defined.

(** C6.  For present vertices [a] and [b] of a weighted graph, the strict
    similarity score is at most the unweighted similarity score. *)
Theorem strict_similarity_le_unweighted
    (g : WeightedGraph.t) (a b : string) :
  a ∈ dom g → b ∈ dom g →
  ∃ strict unweighted : Qc,
    WeightedGraph.get_similarity_score a b "strict" g = Ok strict
    ∧ WeightedGraph.get_similarity_score a b "unweighted" g = Ok unweighted
    ∧ strict ≤ unweighted.
Proof.
  intros [va Ha]%elem_of_dom [vb Hb]%elem_of_dom.
  unfold WeightedGraph.get_similarity_score. rewrite Ha, Hb.
  rewrite bool_decide_eq_false_2, bool_decide_eq_true_2 by done.
  rewrite similarity_score_unweighted_Ok, similarity_score_strict_Ok.
  do 2 eexists. split; [done|]. split; [done|].
  apply quotient_le; [apply degree_le_or_set|].
  apply subseteq_size, strict_and_set_subseteq.
Qed.

Lemma strict_similarity_le_unweighted_witness :
  let g := WeightedGraph.run
             [WeightedGraph.AddVertex "u" "user";
              WeightedGraph.AddVertex "v" "user";
              WeightedGraph.AddVertex "b" "book";
              WeightedGraph.AddVertex "c" "book";
              WeightedGraph.AddEdge "u" "b" (q 4);
              WeightedGraph.AddEdge "v" "b" (q 5);
              WeightedGraph.AddEdge "u" "c" (q 3);
              WeightedGraph.AddEdge "v" "c" (q 3)] in
  ∃ strict unweighted : Qc,
    WeightedGraph.get_similarity_score "u" "v" "strict" g = Ok strict
    ∧ WeightedGraph.get_similarity_score "u" "v" "unweighted" g
      = Ok unweighted
    ∧ strict ≤ unweighted.
Proof.
  intros g. apply (strict_similarity_le_unweighted g "u" "v").
  - apply elem_of_dom. vm_compute. eauto.
  - apply elem_of_dom. vm_compute. eauto.
Defined.

(** ** Recommendations *)

(** C1.  User ["u1"] reviewed book ["A"], user ["u2"] books ["B"] and
    ["C"].  The books ["B"] and ["C"] have the same score 0 with ["A"], and
    [recommend_books("A", 10)] lists each of them twice, in the unweighted
    and in the weighted graph. *)
Theorem recommend_books_lists_tied_books_twice :
  let g := Graph.run
             [Graph.AddVertex "u1" "user"; Graph.AddVertex "u2" "user";
              Graph.AddVertex "A" "book"; Graph.AddVertex "B" "book";
              Graph.AddVertex "C" "book";
              Graph.AddEdge "u1" "A"; Graph.AddEdge "u2" "B";
              Graph.AddEdge "u2" "C"] in
  let wg := WeightedGraph.run
              [WeightedGraph.AddVertex "u1" "user";
               WeightedGraph.AddVertex "u2" "user";
               WeightedGraph.AddVertex "A" "book";
               WeightedGraph.AddVertex "B" "book";
               WeightedGraph.AddVertex "C" "book";
               WeightedGraph.AddEdge "u1" "A" (q 5);
               WeightedGraph.AddEdge "u2" "B" (q 4);
               WeightedGraph.AddEdge "u2" "C" (q 3)] in
  ∃ l : list string,
    Graph.recommend_books "A" 10 g = Ok l
    ∧ WeightedGraph.recommend_books "A" 10 "unweighted" wg = Ok l
    ∧ WeightedGraph.recommend_books "A" 10 "strict" wg = Ok l
    ∧ l ≡ₚ ["B"; "B"; "C"; "C"]
    ∧ ¬ NoDup l.
Proof.
  intros g wg. exists ["C"; "B"; "C"; "B"].
  split; [by vm_compute|]. split; [by vm_compute|]. split; [by vm_compute|].
  split.
  - etrans; [apply Permutation_swap|]. apply Permutation_skip.
    etrans; [apply Permutation_skip, Permutation_swap|].
    apply Permutation_swap.
  - intros Hnd. apply NoDup_cons in Hnd as [Hnin _].
    apply Hnin. set_solver.
Qed.

(** ** Cross-cluster weight *)

Lemma get_weight_present (g : WeightedGraph.t) (u v : string) :
  u ∈ dom g → v ∈ dom g →
  WeightedGraph.get_weight u v g = Ok (edge_weight g u v).
Proof.
  intros [vu Hu]%elem_of_dom [vv Hv]%elem_of_dom.
  unfold WeightedGraph.get_weight, edge_weight. by rewrite Hu, Hv.
Qed.

Lemma weights_of_row (g : WeightedGraph.t) (u : string) (l : list string)
    (weights : Qc) :
  u ∈ dom g → Forall (λ v, v ∈ dom g) l →
  foldM (λ weights v,
           w ← WeightedGraph.get_weight u v g; Ok (weights + w)) weights l
  = Ok (weights + total (edge_weight g u <$> l)).
Proof.
  intros Hu Hl. revert weights.
  induction Hl as [|v l Hv _ IH]; intros weights; simpl.
  - f_equal. ring.
  - rewrite get_weight_present by done. simpl. rewrite IH. f_equal.
    symmetry. apply Qcplus_assoc.
Qed.

Lemma weights_of_rows (g : WeightedGraph.t) (l1 l2 : list string)
    (weights : Qc) :
  Forall (λ u, u ∈ dom g) l1 → Forall (λ v, v ∈ dom g) l2 →
  foldM (λ weights u,
           foldM (λ weights v,
                    w ← WeightedGraph.get_weight u v g; Ok (weights + w))
                 weights l2) weights l1
  = Ok (weights + total ((λ u, total (edge_weight g u <$> l2)) <$> l1)).
Proof.
  intros Hl1 Hl2. revert weights.
  induction Hl1 as [|u l1 Hu _ IH]; intros weights; simpl.
  - f_equal. ring.
  - rewrite weights_of_row by done. simpl. rewrite IH. f_equal.
    symmetry. apply Qcplus_assoc.
Qed.

Lemma Forall_elements_dom (g : WeightedGraph.t) (A : gset string) :
  A ⊆ dom g → Forall (λ u, u ∈ dom g) (elements A).
Proof.
  intros HA. apply Forall_forall. intros u Hu. apply HA.
  by apply elem_of_elements.
Qed.

Lemma size_nonempty (A : gset string) : A ≠ ∅ → size A ≠ 0%nat.
Proof. intros HA. by rewrite size_non_empty_iff, leibniz_equiv_iff. Qed.

Lemma cross_cluster_weight_Ok (g : WeightedGraph.t) (A B : gset string) :
  A ≠ ∅ → B ≠ ∅ → A ⊆ dom g → B ⊆ dom g →
  Cluster.cross_cluster_weight g A B
  = Ok (pair_weights g A B / Qc_of_nat (size A * size B)).
Proof.
  intros HA HB HAg HBg. unfold Cluster.cross_cluster_weight.
  rewrite weights_of_rows by by apply Forall_elements_dom. simpl.
  rewrite true_div_Ok.
  - unfold pair_weights. do 2 f_equal. apply Qcplus_0_l.
  - rewrite Qc_of_nat_eq_0.
    pose proof (size_nonempty A HA). pose proof (size_nonempty B HB).
    lia.
Qed.

(** ** Predictors and absent keys *)

Lemma get_all_vertices_subseteq (g : WeightedGraph.t) (k : string) :
  WeightedGraph.get_all_vertices k g ⊆ dom g.
Proof.
  unfold WeightedGraph.get_all_vertices. case_bool_decide; [|done].
  apply dom_filter_subseteq.
Qed.

Lemma adjacent_absent (g : WeightedGraph.t) (user book : string) :
  user ∉ dom g ∨ book ∉ dom g → WeightedGraph.adjacent user book g = false.
Proof.
  rewrite !not_elem_of_dom. intros H. unfold WeightedGraph.adjacent.
  destruct (g !! user), (g !! book); by destruct H.
Qed.

Lemma loop_body_present (g : WeightedGraph.t) (user book u : string)
    (score_predictor : list Qc) (total_weighted_score : Qc) :
  u ∈ dom g → book ∈ dom g →
  SimilarUserPredictor.loop_body g user book
    (score_predictor, total_weighted_score) u
  = if bool_decide (0 < edge_weight g u book)
    then s ← WeightedGraph.get_similarity_score user u "strict" g;
         Ok (score_predictor ++ [s * edge_weight g u book],
             total_weighted_score + s)
    else Ok (score_predictor, total_weighted_score).
Proof.
  intros Hu Hb. unfold SimilarUserPredictor.loop_body.
  rewrite get_weight_present by done. simpl.
  case_bool_decide; [|done].
  by destruct (WeightedGraph.get_similarity_score _ _ _ _).
Qed.

(** The loop over the users when [user] is absent and [book] present: it
    raises at the first user whose review of [book] is positive. *)
Lemma loop_absent_user (g : WeightedGraph.t) (user book : string)
    (l : list string) (acc : list Qc * Qc) :
  user ∉ dom g → book ∈ dom g → Forall (λ u, u ∈ dom g) l →
  foldM (SimilarUserPredictor.loop_body g user book) acc l
  = if bool_decide (Exists (λ u, 0 < edge_weight g u book) l)
    then Raise ValueError else Ok acc.
Proof.
  intros Hu Hb Hl. apply not_elem_of_dom in Hu.
  revert acc. induction Hl as [|u l Hul _ IH]; intros [sp t]; cbn [foldM].
  - rewrite bool_decide_eq_false_2; [done|]. by intros ?%Exists_nil.
  - rewrite loop_body_present by done.
    destruct (decide (0 < edge_weight g u book)) as [Hw|Hw].
    + rewrite (bool_decide_eq_true_2 _ Hw).
      unfold WeightedGraph.get_similarity_score. rewrite Hu.
      cbn [mbind result_bind].
      rewrite bool_decide_eq_true_2; [done|]. by left.
    + rewrite (bool_decide_eq_false_2 _ Hw). cbn [mbind result_bind].
      rewrite IH. apply (f_equal (λ b : bool, if b then _ else _)).
      apply bool_decide_ext. rewrite Exists_cons. tauto.
Qed.

(** C3, as the claim states it, fails: with no vertex at all,
    [FiveStarPredictor] returns 5; and with a present, reviewed book and an
    absent user, [BookAverageScorePredictor] returns the rounded average. *)
Lemma predictors_return_for_absent_keys :
  let g := WeightedGraph.run
             [WeightedGraph.AddVertex "v" "user";
              WeightedGraph.AddVertex "b" "book";
              WeightedGraph.AddEdge "v" "b" (q 4)] in
  ("u" ∉ dom g)
  ∧ FiveStarPredictor.predict_review_score g "u" "b" = Ok (q 5)
  ∧ FiveStarPredictor.predict_review_score WeightedGraph.empty "u" "b"
    = Ok (q 5)
  ∧ BookAverageScorePredictor.predict_review_score g "u" "b" = Ok (q 4).
Proof.
  intros g. split; [|by vm_compute].
  apply not_elem_of_dom. reflexivity.
Qed.

(** C3, amended.  When [user] or [book] is not a vertex:
    [FiveStarPredictor] returns 5; when [book] is absent,
    [BookAverageScorePredictor] raises [ValueError] and
    [SimilarUserPredictor] raises [KeyError], or [ValueError] when the graph
    has no user vertex; when only [user] is absent,
    [BookAverageScorePredictor] returns the rounded average weight of
    [book] as for any user without a review, and [SimilarUserPredictor]
    raises [ValueError] as soon as some user vertex has a review of [book]
    with a positive weight. *)
Theorem predictors_on_absent_keys
    (g : WeightedGraph.t) (score_type user book : string) :
  user ∉ dom g ∨ book ∉ dom g →
  FiveStarPredictor.predict_review_score g user book = Ok (Qc_of_Z 5)
  ∧ (book ∉ dom g →
     BookAverageScorePredictor.predict_review_score g user book
     = Raise ValueError
     ∧ SimilarUserPredictor.predict_review_score g score_type user book
       = Raise (if bool_decide (WeightedGraph.get_all_vertices "user" g = ∅)
                then ValueError else KeyError))
  ∧ (book ∈ dom g →
     BookAverageScorePredictor.predict_review_score g user book
     = (avg ← WeightedGraph.average_weight book g; Ok (Qc_of_Z (round avg)))
     ∧ ((∃ u w, u ∈ WeightedGraph.get_all_vertices "user" g
                ∧ WeightedGraph.get_weight u book g = Ok w ∧ 0 < w) →
        SimilarUserPredictor.predict_review_score g score_type user book
        = Raise ValueError)).
Proof.
  intros Habs. pose proof (adjacent_absent g user book Habs) as Hadj.
  unfold FiveStarPredictor.predict_review_score,
    BookAverageScorePredictor.predict_review_score,
    SimilarUserPredictor.predict_review_score.
  rewrite Hadj. split; [done|]. split.
  - intros Hb. apply not_elem_of_dom in Hb.
    unfold WeightedGraph.average_weight. rewrite Hb. split; [done|].
    pose proof (get_all_vertices_subseteq g "user") as Hsub.
    destruct (elements (WeightedGraph.get_all_vertices "user" g))
      as [|u l] eqn:Hl.
    + apply elements_empty_inv, leibniz_equiv in Hl.
      by rewrite bool_decide_eq_true_2 by done.
    + assert (u ∈ WeightedGraph.get_all_vertices "user" g) as Hu.
      { apply elem_of_elements. rewrite Hl. by left. }
      rewrite bool_decide_eq_false_2
        by (intros Hemp; rewrite Hemp in Hu; by apply not_elem_of_empty in Hu).
      apply Hsub, elem_of_dom in Hu as [vu Hu]. simpl.
      unfold WeightedGraph.get_weight. by rewrite Hu, Hb.
  - intros Hb. split; [done|]. intros (u & w & Hu & Hw & Hpos).
    assert (user ∉ dom g) as Huser by (by destruct Habs).
    rewrite loop_absent_user; [| done | done |].
    + rewrite bool_decide_eq_true_2; [done|].
      apply Exists_exists. exists u. split; [by apply elem_of_elements|].
      rewrite get_weight_present in Hw.
      * by injection Hw as ->.
      * by apply get_all_vertices_subseteq in Hu.
      * done.
    + apply Forall_forall. intros x Hx%elem_of_elements.
      by apply get_all_vertices_subseteq in Hx.
Qed.

Lemma predictors_on_absent_keys_witness :
  let g := WeightedGraph.run
             [WeightedGraph.AddVertex "v" "user";
              WeightedGraph.AddVertex "b" "book";
              WeightedGraph.AddEdge "v" "b" (q 4)] in
  FiveStarPredictor.predict_review_score g "u" "b" = Ok (Qc_of_Z 5)
  ∧ SimilarUserPredictor.predict_review_score g "strict" "u" "b"
    = Raise ValueError
  ∧ BookAverageScorePredictor.predict_review_score g "v" "c"
    = Raise ValueError.
Proof.
  intros g.
  assert ("u" ∉ dom g) as Hu by (apply not_elem_of_dom; reflexivity).
  assert ("c" ∉ dom g) as Hc by (apply not_elem_of_dom; reflexivity).
  assert ("b" ∈ dom g) as Hb by (apply elem_of_dom; vm_compute; eauto).
  destruct (predictors_on_absent_keys g "strict" "u" "b" (or_introl Hu))
    as (H5 & _ & Hpresent).
  destruct (predictors_on_absent_keys g "strict" "v" "c" (or_intror Hc))
    as (_ & Habsent & _).
  split; [exact H5|]. split.
  - apply (Hpresent Hb). exists "v", (q 4).
    split; [|split]; [| reflexivity | reflexivity].
    apply elem_of_elements. vm_compute. by left.
  - apply (Habsent Hc).
Defined.

(** ** The prediction of [SimilarUserPredictor] *)

Lemma foldl_Qcplus (xs : list Qc) (a : Qc) : foldl Qcplus a xs = a + total xs.
Proof.
  revert a. induction xs as [|x xs IH]; intros a; simpl.
  - symmetry. apply Qcplus_0_r.
  - rewrite IH. symmetry. apply Qcplus_assoc.
Qed.

Lemma sum_total (xs : list Qc) : sum xs = total xs.
Proof. unfold sum. rewrite foldl_Qcplus. apply Qcplus_0_l. Qed.

Lemma total_app (xs ys : list Qc) : total (xs ++ ys) = total xs + total ys.
Proof.
  induction xs as [|x xs IH]; simpl.
  - symmetry. apply Qcplus_0_l.
  - rewrite IH. apply Qcplus_assoc.
Qed.

Lemma Qcplus_nonneg_eq_0 (x y : Qc) :
  0 ≤ x → 0 ≤ y → x + y = 0 → x = 0 ∧ y = 0.
Proof.
  intros Hx Hy Hxy.
  assert (x = 0) as ->.
  { apply Qcle_antisym; [|done]. rewrite <- Hxy.
    rewrite <- (Qcplus_0_r x) at 1. by apply Qcplus_le_mono_l. }
  split; [done|]. by rewrite Qcplus_0_l in Hxy.
Qed.

Lemma total_nonneg (xs : list Qc) : Forall (Qcle 0) xs → 0 ≤ total xs.
Proof.
  induction 1 as [|x xs Hx _ IH]; simpl; [done|].
  by apply Qcplus_nonneg_nonneg.
Qed.

Lemma total_eq_0 (xs : list Qc) :
  Forall (Qcle 0) xs → total xs = 0 ↔ Forall (λ x, x = 0) xs.
Proof.
  induction 1 as [|x xs Hx Hxs IH]; simpl.
  - split; [by constructor|done].
  - rewrite Forall_cons. split.
    + intros [-> H0]%Qcplus_nonneg_eq_0; [|done|by apply total_nonneg].
      split; [done|]. by apply IH.
    + intros [-> H0]. apply IH in H0. rewrite H0. apply Qcplus_0_l.
Qed.

Lemma quotient_nonneg (d1 d2 n m : nat) : 0 ≤ quotient d1 d2 n m.
Proof.
  unfold quotient. case_bool_decide; [done|].
  destruct (decide (m = 0%nat)) as [->|Hm].
  - rewrite Qc_of_nat_0. unfold Qcdiv. by rewrite Qcmult_0_r.
  - unfold Qcdiv. apply Qcmult_nonneg_nonneg.
    + rewrite <- Qc_of_nat_0. apply Qc_of_nat_le. lia.
    + by apply Qclt_le_weak, Qcinv_pos, Qc_of_nat_pos.
Qed.

Lemma strict_similarity_Ok (g : WeightedGraph.t) (a b : string) :
  a ∈ dom g → b ∈ dom g →
  WeightedGraph.get_similarity_score a b "strict" g
  = Ok (strict_similarity g a b)
  ∧ 0 ≤ strict_similarity g a b.
Proof.
  intros [va Ha]%elem_of_dom [vb Hb]%elem_of_dom.
  unfold strict_similarity, WeightedGraph.get_similarity_score.
  rewrite Ha, Hb, bool_decide_eq_false_2 by done.
  rewrite similarity_score_strict_Ok. simpl.
  split; [done|]. apply quotient_nonneg.
Qed.

Lemma weight_present (g : WeightedGraph.t) (u v : string) :
  u ∈ dom g → v ∈ dom g → weight g u v = edge_weight g u v.
Proof. intros Hu Hv. unfold weight. by rewrite get_weight_present. Qed.

(** The loop over the users when [user] and [book] are present: it collects
    the users whose review of [book] is positive. *)
Lemma loop_present (g : WeightedGraph.t) (user book : string)
    (l : list string) (score_predictor : list Qc)
    (total_weighted_score : Qc) :
  user ∈ dom g → book ∈ dom g → Forall (λ u, u ∈ dom g) l →
  let us := filter (λ u, 0 < edge_weight g u book) l in
  foldM (SimilarUserPredictor.loop_body g user book)
        (score_predictor, total_weighted_score) l
  = Ok (score_predictor
          ++ ((λ u, strict_similarity g user u * edge_weight g u book)
                <$> us),
        total_weighted_score + total (strict_similarity g user <$> us)).
Proof.
  intros Hu Hb Hl. revert score_predictor total_weighted_score.
  induction Hl as [|u l Hul _ IH]; intros sp t; cbn [foldM].
  - cbn. rewrite app_nil_r, Qcplus_0_r. done.
  - rewrite loop_body_present by done.
    destruct (strict_similarity_Ok g user u Hu Hul) as [Hs _].
    destruct (decide (0 < edge_weight g u book)) as [Hw|Hw].
    + rewrite (bool_decide_eq_true_2 _ Hw), Hs. cbn [mbind result_bind].
      rewrite IH, filter_cons_True by done. cbn [fmap list_fmap total foldr].
      rewrite <- app_assoc, <- Qcplus_assoc. done.
    + rewrite (bool_decide_eq_false_2 _ Hw). cbn [mbind result_bind].
      by rewrite IH, filter_cons_False by done.
Qed.

Lemma weight_eq_edge_weight (g : WeightedGraph.t) (u book : string) :
  book ∈ dom g → weight g u book = edge_weight g u book.
Proof.
  intros [vb Hb]%elem_of_dom.
  unfold weight, edge_weight, WeightedGraph.get_weight.
  destruct (g !! u); [|done]. by rewrite Hb.
Qed.

Lemma edge_weight_not_adjacent (g : WeightedGraph.t) (user book : string) :
  book ∈ dom g → WeightedGraph.adjacent user book g = false →
  edge_weight g user book = 0.
Proof.
  intros Hb Hadj. unfold edge_weight.
  destruct (g !! user) as [vu|] eqn:Hu; [|done].
  rewrite WeightedGraph_adjacent_false in Hadj.
  rewrite (Hadj vu); [done|done|by apply elem_of_dom].
Qed.

Lemma positive_reviewers_filter (g : WeightedGraph.t) (user book : string) :
  book ∈ dom g → WeightedGraph.adjacent user book g = false →
  positive_reviewers g user book
  = filter (λ u, 0 < edge_weight g u book)
           (elements (WeightedGraph.get_all_vertices "user" g)).
Proof.
  intros Hb Hadj. unfold positive_reviewers. apply list_filter_iff.
  intros u. rewrite weight_eq_edge_weight by done. split; [by intros [_ ?]|].
  intros Hw. split; [|done]. intros ->.
  rewrite edge_weight_not_adjacent in Hw by done. by apply Qclt_not_eq in Hw.
Qed.

Lemma Forall_iff_on {A : Type} (P Q R : A → Prop) (l : list A) :
  Forall R l → (∀ x, R x → P x ↔ Q x) → Forall P l ↔ Forall Q l.
Proof.
  intros HR H. induction HR as [|x l Hx _ IH]; [by split; constructor|].
  rewrite !Forall_cons, IH, (H x Hx). done.
Qed.

(** With positive weights and similarities that are not negative, the
    weighted reviews add up to zero exactly when the similarities do. *)
Lemma weighted_total_eq_0 (g : WeightedGraph.t) (user book : string)
    (us : list string) :
  user ∈ dom g → Forall (λ u, u ∈ dom g ∧ 0 < edge_weight g u book) us →
  total ((λ u, strict_similarity g user u * edge_weight g u book) <$> us) = 0
  ↔ total (strict_similarity g user <$> us) = 0.
Proof.
  intros Hu Hus. rewrite !total_eq_0.
  - rewrite !Forall_fmap. apply (Forall_iff_on _ _ _ _ Hus).
    intros u [_ Hw]. simpl. split.
    + intros [H|H]%Qcmult_integral; [done|].
      rewrite H in Hw. by apply Qclt_not_eq in Hw.
    + intros ->. apply Qcmult_0_l.
  - apply Forall_fmap. eapply Forall_impl; [exact Hus|].
    intros u [Hud _]. simpl. by apply strict_similarity_Ok.
  - apply Forall_fmap. eapply Forall_impl; [exact Hus|].
    intros u [Hud Hw]. simpl. apply Qcmult_nonneg_nonneg.
    + by apply strict_similarity_Ok.
    + by apply Qclt_le_weak.
Qed.

(** C5, as the claim states it, fails: users ["V"] and ["W"] are equally
    similar to ["U"]; ["V"] has an edge of weight 0 to book ["B"] and ["W"]
    one of weight 4.  The average over the users with an edge to ["B"] is 2;
    the predictor leaves ["V"] out and returns 4. *)
Lemma similar_user_prediction_skips_weight_0 :
  let g := WeightedGraph.run
             [WeightedGraph.AddVertex "U" "user";
              WeightedGraph.AddVertex "V" "user";
              WeightedGraph.AddVertex "W" "user";
              WeightedGraph.AddVertex "B" "book";
              WeightedGraph.AddVertex "C" "book";
              WeightedGraph.AddEdge "U" "C" (q 3);
              WeightedGraph.AddEdge "V" "C" (q 3);
              WeightedGraph.AddEdge "W" "C" (q 3);
              WeightedGraph.AddEdge "V" "B" (q 0);
              WeightedGraph.AddEdge "W" "B" (q 4)] in
  WeightedGraph.adjacent "U" "B" g = false
  ∧ reviewers g "U" "B" = ["W"; "V"]
  ∧ shown (similarity_weighted_average g "U" "B" (reviewers g "U" "B"))
    = Ok (2%Z, 1%positive)
  ∧ shown (SimilarUserPredictor.predict_review_score g "unweighted" "U" "B")
    = Ok (4%Z, 1%positive)
  ∧ SimilarUserPredictor.predict_review_score g "unweighted" "U" "B"
    ≠ similarity_weighted_average g "U" "B" (reviewers g "U" "B").
Proof.
  intros g.
  split; [by vm_compute|]. split; [by vm_compute|].
  split; [by vm_compute|]. split; [by vm_compute|].
  intros H. apply (f_equal shown) in H. vm_compute in H. discriminate.
Qed.

(** C5, amended.  In a graph of at most [2^20] vertices whose weights are
    all integers from 0 to 5, for present [user] and [book] with no edge
    between them,
    [SimilarUserPredictor.predict_review_score(user, book)] is, whatever
    score type the predictor was made with, the rounding of the sum of
    strict similarity times review weight over the sum of the strict
    similarities, both sums over the other users whose edge to [book] has a
    positive weight, provided that quotient is at least [2^-20] away from
    every number halfway between two integers; when those similarities add
    up to zero it is [round(average_weight(book))].

    The bounds are those under which the binary64 computation rounds to the
    same integer as the exact one.  Each similarity is a quotient of two
    numbers of neighbours, rounded once; each sum has at most [2^20] terms,
    one for a user; so the binary64 quotient of the sums, a number from 1
    to 5, is within [2^-28] of the exact one.  The binary64 sums are zero
    exactly when the exact ones are.  And the average weight of [book], a
    vertex with at most [2^20] neighbours whose weights are integers from 0
    to 5, is halfway between two integers or at least [2^-21] away from
    that, so that its binary64 value rounds as it does. *)
Theorem similar_user_prediction_over_positive_reviews
    (g : WeightedGraph.t) (score_type user book : string) :
  integer_weights 0 5 g → (Z.of_nat (size g) ≤ 2 ^ 20)%Z →
  user ∈ dom g → book ∈ dom g →
  WeightedGraph.adjacent user book g = false →
  (similarity_total g user (positive_reviewers g user book) ≠ 0 →
   clear_of_ties
     (similarity_weighted_quotient g user book
        (positive_reviewers g user book))) →
  SimilarUserPredictor.predict_review_score g score_type user book
  = similarity_weighted_average g user book (positive_reviewers g user book).
Proof.
  intros _ _ Hu Hb Hadj _.
  unfold SimilarUserPredictor.predict_review_score.
  rewrite Hadj, positive_reviewers_filter by done.
  assert (Forall (λ u, u ∈ dom g)
            (elements (WeightedGraph.get_all_vertices "user" g))) as Hl.
  { apply Forall_forall. intros x Hx%elem_of_elements.
    by apply get_all_vertices_subseteq in Hx. }
  rewrite loop_present by done. cbn [mbind result_bind].
  set (us := filter (λ u, 0 < edge_weight g u book)
               (elements (WeightedGraph.get_all_vertices "user" g))).
  assert (Forall (λ u, u ∈ dom g ∧ 0 < edge_weight g u book) us) as Hus.
  { apply Forall_forall. intros u [Hw Hin]%list_elem_of_filter.
    rewrite Forall_forall in Hl. auto. }
  unfold similarity_weighted_average.
  rewrite app_nil_l, Qcplus_0_l, sum_total.
  assert ((λ u, strict_similarity g user u * weight g u book) <$> us
          = (λ u, strict_similarity g user u * edge_weight g u book) <$> us)
    as ->.
  { apply list_fmap_ext. intros _ u _. by rewrite weight_eq_edge_weight. }
  pose proof (weighted_total_eq_0 g user book us Hu Hus) as H0.
  destruct (decide (total (strict_similarity g user <$> us) = 0)) as [Hs|Hs].
  - rewrite (bool_decide_eq_true_2 _ Hs).
    by rewrite bool_decide_eq_true_2 by by apply H0.
  - rewrite (bool_decide_eq_false_2 _ Hs).
    rewrite bool_decide_eq_false_2 by by rewrite H0.
    by rewrite true_div_Ok.
Qed.

Lemma similar_user_prediction_over_positive_reviews_witness :
  let g := WeightedGraph.run
             [WeightedGraph.AddVertex "U" "user";
              WeightedGraph.AddVertex "V" "user";
              WeightedGraph.AddVertex "W" "user";
              WeightedGraph.AddVertex "B" "book";
              WeightedGraph.AddVertex "C" "book";
              WeightedGraph.AddVertex "D" "book";
              WeightedGraph.AddEdge "U" "C" (q 3);
              WeightedGraph.AddEdge "U" "D" (q 2);
              WeightedGraph.AddEdge "V" "C" (q 3);
              WeightedGraph.AddEdge "V" "D" (q 2);
              WeightedGraph.AddEdge "V" "B" (q 5);
              WeightedGraph.AddEdge "W" "C" (q 3);
              WeightedGraph.AddEdge "W" "B" (q 2)] in
  SimilarUserPredictor.predict_review_score g "unweighted" "U" "B"
  = similarity_weighted_average g "U" "B" (positive_reviewers g "U" "B")
  ∧ positive_reviewers g "U" "B" = ["W"; "V"]
  ∧ shown (SimilarUserPredictor.predict_review_score g "unweighted" "U" "B")
    = Ok (4%Z, 1%positive).
Proof.
  intros g. split; [|split; by vm_compute].
  apply (similar_user_prediction_over_positive_reviews g "unweighted" "U" "B").
  - apply integer_weights_checked. by vm_compute.
  - by vm_compute.
  - apply elem_of_dom. vm_compute. eauto.
  - apply elem_of_dom. vm_compute. eauto.
  - reflexivity.
  - intros _. by vm_compute.
Defined.

(** ** Clustering *)

Lemma weights_above_start_checked (g : WeightedGraph.t) :
  bool_decide
    (map_Forall (λ _ vu, map_Forall (λ _ w, -1 < w)
                           (WeightedGraph.neighbours vu)) g) = true →
  weights_above_start g.
Proof.
  intros H%bool_decide_eq_true u vu v w Hu Hw.
  by apply (H u vu Hu v w).
Qed.

Lemma partition_subseteq (g : WeightedGraph.t) (cs : list (gset string))
    (i : nat) (c : gset string) :
  partition g cs → cs !! i = Some c → c ⊆ dom g.
Proof.
  intros Hp Hc x Hx. rewrite <- (partition_union _ _ Hp).
  apply elem_of_union_list. exists c. split; [|done].
  by eapply list_elem_of_lookup_2.
Qed.

Section scores.

Context (g : WeightedGraph.t) (Hg : weights_above_start g).

Lemma edge_weight_above (u v : string) : -1 < edge_weight g u v.
Proof.
  unfold edge_weight. destruct (g !! u) as [vu|] eqn:Hu; [|done].
  destruct (WeightedGraph.neighbours vu !! v) as [w|] eqn:Hw; [|done].
  simpl. by eapply Hg.
Qed.

Lemma Qcplus_lt_le (x y z w : Qc) : x < y → z ≤ w → x + z < y + w.
Proof.
  intros Hxy Hzw. apply Qclt_le_trans with (y + z).
  - by apply Qcplus_lt_mono_r.
  - by apply Qcplus_le_mono_l.
Qed.

Lemma Qc_of_nat_S (n : nat) : Qc_of_nat (S n) = 1 + Qc_of_nat n.
Proof.
  unfold Qc_of_nat. rewrite Nat2Z.inj_succ, <- Z.add_1_l.
  by rewrite Z2Qc_inj_add, Z2Qc_inj_1.
Qed.

(** A sum of numbers that are all at least [c]. *)
Lemma total_ge (c : Qc) (xs : list Qc) :
  Forall (Qcle c) xs → Qc_of_nat (length xs) * c ≤ total xs.
Proof.
  induction 1 as [|x xs Hx _ IH]; simpl.
  - rewrite Qc_of_nat_0, Qcmult_0_l. done.
  - rewrite Qc_of_nat_S, Qcmult_plus_distr_l, Qcmult_1_l.
    by apply Qcplus_le_compat.
Qed.

Lemma total_gt (c : Qc) (xs : list Qc) :
  xs ≠ [] → Forall (Qclt c) xs → Qc_of_nat (length xs) * c < total xs.
Proof.
  intros Hne Hxs. destruct Hxs as [|x xs Hx Hxs]; [done|]. simpl.
  rewrite Qc_of_nat_S, Qcmult_plus_distr_l, Qcmult_1_l.
  apply Qcplus_lt_le; [done|]. apply total_ge.
  eapply Forall_impl; [exact Hxs|]. intros y. apply Qclt_le_weak.
Qed.

Lemma pair_weights_above (A B : gset string) :
  A ≠ ∅ → B ≠ ∅ →
  Qc_of_nat (size A * size B) * -1 < pair_weights g A B.
Proof.
  intros HA HB. unfold pair_weights.
  assert (elements A ≠ []) as HA'.
  { intros H. by apply elements_empty_inv, leibniz_equiv in H. }
  assert (elements B ≠ []) as HB'.
  { intros H. by apply elements_empty_inv, leibniz_equiv in H. }
  assert (Qc_of_nat (size A * size B) * -1
          = Qc_of_nat (size A) * (Qc_of_nat (size B) * -1)) as ->.
  { unfold Qc_of_nat. rewrite Nat2Z.inj_mul, Z2Qc_inj_mul.
    symmetry. apply Qcmult_assoc. }
  unfold size at 1, set_size. simpl.
  rewrite <- (length_fmap (λ u, total (edge_weight g u <$> elements B))).
  apply total_gt; [by destruct (elements A)|].
  apply Forall_fmap, Forall_forall. intros u _. simpl.
  unfold size, set_size. simpl.
  rewrite <- (length_fmap (edge_weight g u)).
  apply total_gt; [by destruct (elements B)|].
  apply Forall_fmap, Forall_forall. intros v _. apply edge_weight_above.
Qed.

(** The score of two clusters of a partition is a number above -1. *)
Lemma cross_cluster_weight_above (A B : gset string) :
  A ≠ ∅ → B ≠ ∅ → A ⊆ dom g → B ⊆ dom g →
  ∃ score, Cluster.cross_cluster_weight g A B = Ok score ∧ -1 < score.
Proof.
  intros HA HB HAg HBg. rewrite cross_cluster_weight_Ok by done.
  eexists. split; [done|].
  pose proof (size_nonempty A HA). pose proof (size_nonempty B HB).
  assert (0 < Qc_of_nat (size A * size B)) as Hd
    by (apply Qc_of_nat_pos; lia).
  apply (Qcmult_lt_mono_pos_r _ _ _ Hd).
  rewrite (Qcmult_comm (_ / _)), Qcmult_div_r
    by (by apply not_eq_sym, Qclt_not_eq).
  rewrite Qcmult_comm. by apply pair_weights_above.
Qed.

End scores.

Lemma list_remove_at (c : gset string) (l : list (gset string)) (i : nat) :
  l !! i = Some c → (∀ j d, (j < i)%nat → l !! j = Some d → d ≠ c) →
  Cluster.list_remove c l = Ok (delete i l).
Proof.
  revert i. induction l as [|d l IH]; intros [|i] Hi Hb; simplify_eq/=.
  - by rewrite bool_decide_eq_true_2.
  - rewrite bool_decide_eq_false_2 by (apply (Hb 0%nat); [lia|done]).
    rewrite (IH i); [done|done|].
    intros j d' Hj. apply (Hb (S j)). lia.
Qed.

Section merge.

Context (g : WeightedGraph.t) (cs : list (gset string)).
Context (i1 i2 : nat) (c1 c2 : gset string).
Context (Hp : partition g cs) (Hne : i1 ≠ i2).
Context (H1 : cs !! i1 = Some c1) (H2 : cs !! i2 = Some c2).

Lemma updated_lookup (k : nat) (X : gset string) :
  (updated cs i2 c1 c2) !! k = Some X
  ↔ (k = i2 ∧ X = c2 ∪ c1) ∨ (k ≠ i2 ∧ cs !! k = Some X).
Proof.
  unfold updated. destruct (decide (k = i2)) as [->|Hk].
  - rewrite list_lookup_insert_eq by by eapply lookup_lt_Some.
    split; [intros [= <-]; by left|]. by intros [[_ ->]|[? _]].
  - rewrite list_lookup_insert_ne by done.
    split; [by right|]. by intros [[? _]|[_ ?]].
Qed.

Lemma c1_nonempty : c1 ≠ ∅.
Proof. by eapply partition_nonempty. Qed.

Lemma c2_nonempty : c2 ≠ ∅.
Proof. by eapply partition_nonempty. Qed.

Lemma c1_c2_disjoint : c1 ## c2.
Proof. by eapply (partition_disjoint _ _ Hp i1 i2). Qed.

(** [clusters.remove(best_c1)] finds [best_c1] itself: no other cluster
    is equal to it. *)
Lemma updated_remove :
  Cluster.list_remove c1 (updated cs i2 c1 c2)
  = Ok (delete i1 (updated cs i2 c1 c2)).
Proof.
  apply list_remove_at.
  - apply updated_lookup. by right.
  - intros j d Hj [[-> ->]|[Hj2 Hd]]%updated_lookup Heq.
    + destruct (set_choose_L c2 c2_nonempty) as [x Hx].
      apply (c1_c2_disjoint x); [|done].
      rewrite <- Heq. by apply elem_of_union_l.
    + subst d. assert (j ≠ i1) as Hj1 by lia.
      pose proof (partition_disjoint _ _ Hp j i1 c1 c1 Hj1 Hd H1).
      pose proof c1_nonempty. set_solver.
Qed.

Lemma merged_lookup (j : nat) (X : gset string) :
  delete i1 (updated cs i2 c1 c2) !! j = Some X →
  ∃ k, k ≠ i1 ∧ k = (if decide (j < i1)%nat then j else S j)
       ∧ ((k = i2 ∧ X = c2 ∪ c1) ∨ (k ≠ i2 ∧ cs !! k = Some X)).
Proof.
  rewrite list_lookup_delete. intros HX%updated_lookup.
  eexists. split; [|split; [done|exact HX]]. case_decide; lia.
Qed.

Lemma merged_lookup_of (k : nat) (X : gset string) :
  k ≠ i1 → (updated cs i2 c1 c2) !! k = Some X →
  ∃ j, delete i1 (updated cs i2 c1 c2) !! j = Some X.
Proof.
  intros Hk HX. exists (if decide (k < i1)%nat then k else pred k).
  rewrite list_lookup_delete. rewrite <- HX. f_equal.
  repeat case_decide; lia.
Qed.

Lemma merged_partition : partition g (delete i1 (updated cs i2 c1 c2)).
Proof.
  pose proof c1_nonempty as Hc1. pose proof c2_nonempty as Hc2.
  pose proof c1_c2_disjoint as Hc12. split.
  - intros j X (k & Hk1 & _ & [[_ ->]|[_ HX]])%merged_lookup.
    + set_solver.
    + by eapply partition_nonempty.
  - intros j j' X X' Hjj' (k & Hk1 & Hk & HX)%merged_lookup
      (k' & Hk'1 & Hk' & HX')%merged_lookup.
    assert (k ≠ k') as Hkk' by (repeat case_decide; lia).
    destruct HX as [[-> ->]|[Hk2 HX]], HX' as [[-> ->]|[Hk'2 HX']].
    + done.
    + apply disjoint_union_l. split.
      * by apply (partition_disjoint _ _ Hp _ _ _ _ Hkk' H2 HX').
      * by apply (partition_disjoint _ _ Hp _ _ _ _ (not_eq_sym Hk'1) H1 HX').
    + apply disjoint_union_r. split.
      * by apply (partition_disjoint _ _ Hp _ _ _ _ Hkk' HX H2).
      * by apply (partition_disjoint _ _ Hp _ _ _ _ Hk1 HX H1).
    + by eapply (partition_disjoint _ _ Hp k k').
  - rewrite <- (partition_union _ _ Hp). apply set_eq. intros x.
    rewrite !elem_of_union_list. split.
    + intros (X & [j Hj]%list_elem_of_lookup_1 & Hx).
      apply merged_lookup in Hj as (k & _ & _ & [[_ ->]|[_ HX]]).
      * apply elem_of_union in Hx as [Hx|Hx].
        -- exists c2. split; [by eapply list_elem_of_lookup_2|done].
        -- exists c1. split; [by eapply list_elem_of_lookup_2|done].
      * exists X. split; [by eapply list_elem_of_lookup_2|done].
    + intros (X & [k Hk]%list_elem_of_lookup_1 & Hx).
      assert ((updated cs i2 c1 c2) !! i2 = Some (c2 ∪ c1)) as Hu2
        by (apply updated_lookup; by left).
      destruct (merged_lookup_of i2 _ (not_eq_sym Hne) Hu2) as [j2 Hj2].
      destruct (decide (k = i1)) as [->|Hk1];
        [|destruct (decide (k = i2)) as [->|Hk2]].
      * exists (c2 ∪ c1). split; [by eapply list_elem_of_lookup_2|].
        rewrite H1 in Hk. injection Hk as <-. set_solver.
      * exists (c2 ∪ c1). split; [by eapply list_elem_of_lookup_2|].
        rewrite H2 in Hk. injection Hk as <-. set_solver.
      * assert ((updated cs i2 c1 c2) !! k = Some X) as HuX
          by (apply updated_lookup; by right).
        destruct (merged_lookup_of k _ Hk1 HuX) as [j Hj].
        exists X. split; [by eapply list_elem_of_lookup_2|done].
Qed.

(** Merging two different clusters of a partition gives a partition with
    one cluster less. *)
Lemma merge_partition :
  ∃ cs', Cluster.merge cs (Some i1) (Some i2) = Ok cs'
         ∧ partition g cs' ∧ length cs' = (length cs - 1)%nat.
Proof.
  exists (delete i1 (updated cs i2 c1 c2)). split; [|split].
  - unfold Cluster.merge. rewrite H1, H2. apply updated_remove.
  - apply merged_partition.
  - rewrite length_delete.
    + unfold updated. by rewrite length_insert.
    + exists c1. apply updated_lookup. by right.
Qed.

End merge.

Section search.

Context (g : WeightedGraph.t) (Hg : weights_above_start g).
Context (cs : list (gset string)) (Hp : partition g cs).

Lemma score_above (i1 i2 : nat) (c1 c2 : gset string) :
  cs !! i1 = Some c1 → cs !! i2 = Some c2 →
  ∃ score, Cluster.cross_cluster_weight g c1 c2 = Ok score ∧ -1 < score.
Proof.
  intros H1 H2. apply cross_cluster_weight_above; [done|..].
  - by eapply partition_nonempty.
  - by eapply partition_nonempty.
  - by eapply partition_subseteq.
  - by eapply partition_subseteq.
Qed.

(** *** The search of [find_clusters_random] *)

Lemma random_body_step (i1 i2 : nat) (c1 c2 : gset string)
    (acc : Qc * option nat) :
  cs !! i1 = Some c1 → cs !! i2 = Some c2 → random_start cs i1 acc →
  ∃ acc', Cluster.random_body g i1 c1 acc (i2, c2) = Ok acc'
          ∧ random_start cs i1 acc'
          ∧ (i2 ≠ i1 → random_found cs i1 acc')
          ∧ (random_found cs i1 acc → random_found cs i1 acc').
Proof.
  intros H1 H2 Hacc. destruct acc as [best b]. unfold Cluster.random_body.
  destruct (decide (i1 = i2)) as [<-|Hi].
  - rewrite bool_decide_eq_false_2 by (by intros ?).
    eexists. split; [done|]. split; [done|]. split; [done|done].
  - rewrite bool_decide_eq_true_2 by done.
    destruct (score_above i1 i2 c1 c2 H1 H2) as (score & -> & Hs).
    cbn [mbind result_bind].
    assert (random_found cs i1 (score, Some i2)) as Hnew.
    { exists i2. split; [done|]. split; [done|]. by eexists. }
    destruct (decide (best < score)) as [Hb|Hb].
    + rewrite (bool_decide_eq_true_2 _ Hb).
      eexists. split; [done|]. split; [by right|]. done.
    + rewrite (bool_decide_eq_false_2 _ Hb).
      destruct Hacc as [[= -> ->]|Hf]; [done|].
      eexists. split; [done|]. split; [by right|]. done.
Qed.

Lemma random_search_step (i1 : nat) (c1 : gset string)
    (l : list (nat * gset string)) (acc : Qc * option nat) :
  cs !! i1 = Some c1 → Forall (λ ic, cs !! ic.1 = Some ic.2) l →
  random_start cs i1 acc →
  ∃ acc', foldM (Cluster.random_body g i1 c1) acc l = Ok acc'
          ∧ random_start cs i1 acc'
          ∧ (Exists (λ ic, ic.1 ≠ i1) l → random_found cs i1 acc')
          ∧ (random_found cs i1 acc → random_found cs i1 acc').
Proof.
  intros H1 Hl. revert acc.
  induction Hl as [|[i2 c2] l H2 _ IH]; intros acc Hacc; cbn [foldM].
  - eexists. split; [done|]. split; [done|]. split; [|done].
    by intros ?%Exists_nil.
  - destruct (random_body_step i1 i2 c1 c2 acc H1 H2 Hacc)
      as (acc1 & -> & Hs1 & Hne1 & Hf1).
    cbn [mbind result_bind].
    destruct (IH acc1 Hs1) as (acc' & -> & Hs' & Hex' & Hf').
    eexists. split; [done|]. split; [done|]. split; [|by auto].
    intros [Hi|Hex]%Exists_cons; auto.
Qed.

Lemma random_round_partition (r : nat) :
  (2 ≤ length cs)%nat →
  ∃ cs', Cluster.random_round g r cs = Ok cs'
         ∧ partition g cs' ∧ length cs' = (length cs - 1)%nat.
Proof.
  intros Hlen. unfold Cluster.random_round.
  set (i1 := (r mod length cs)%nat).
  assert (i1 < length cs)%nat as Hi1 by (apply Nat.mod_upper_bound; lia).
  destruct (lookup_lt_is_Some_2 cs i1 Hi1) as [c1 H1]. rewrite H1.
  destruct (random_search_step i1 c1 (imap pair cs) (-1, None) H1)
    as (acc' & -> & _ & Hex & _).
  - apply Forall_lookup. intros i [i' c] Hic.
    rewrite list_lookup_imap in Hic.
    destruct (cs !! i) as [c'|] eqn:Hi; by simplify_eq/=.
  - by left.
  - cbn [mbind result_bind]. destruct Hex as (i2 & Hb & Hi2 & [c2 H2]).
    + apply Exists_exists.
      assert (∃ k, k ≠ i1 ∧ k < length cs)%nat as (k & Hk & Hklen).
      { destruct (decide (i1 = 0%nat)); [exists 1%nat|exists 0%nat]; lia. }
      destruct (lookup_lt_is_Some_2 cs k Hklen) as [c Hc].
      exists (k, c). split; [|done].
      apply list_elem_of_lookup. exists k.
      by rewrite list_lookup_imap, Hc.
    + destruct acc' as [best b]. simpl in Hb. subst b.
      by eapply merge_partition.
Qed.

(** *** The search of [find_clusters_greedy] *)

Lemma greedy_body_step (i1 i2 : nat) (acc : Qc * option nat * option nat) :
  (i1 < i2 < length cs)%nat → greedy_start cs acc →
  ∃ acc', Cluster.greedy_body g cs i1 acc i2 = Ok acc' ∧ greedy_found cs acc'.
Proof.
  intros Hi Hacc. destruct acc as [[best b1] b2].
  unfold Cluster.greedy_body.
  destruct (lookup_lt_is_Some_2 cs i1) as [c1 H1]; [lia|].
  destruct (lookup_lt_is_Some_2 cs i2) as [c2 H2]; [lia|].
  rewrite H1, H2.
  destruct (score_above i1 i2 c1 c2 H1 H2) as (score & -> & Hs).
  cbn [mbind result_bind].
  destruct (decide (best < score)) as [Hb|Hb].
  - rewrite (bool_decide_eq_true_2 _ Hb). eexists. split; [done|].
    exists i1, i2. repeat split; eauto. lia.
  - rewrite (bool_decide_eq_false_2 _ Hb).
    destruct Hacc as [[= -> -> ->]|Hf]; [done|]. eauto.
Qed.

Lemma greedy_row_step (i1 : nat) (l : list nat)
    (acc : Qc * option nat * option nat) :
  Forall (λ i2, i1 < i2 < length cs)%nat l → greedy_start cs acc →
  ∃ acc', foldM (Cluster.greedy_body g cs i1) acc l = Ok acc'
          ∧ greedy_start cs acc'
          ∧ (l ≠ [] → greedy_found cs acc')
          ∧ (greedy_found cs acc → greedy_found cs acc').
Proof.
  intros Hl. revert acc.
  induction Hl as [|i2 l Hi2 _ IH]; intros acc Hacc; cbn [foldM].
  - eexists. split; [done|]. split; [done|]. split; [done|done].
  - destruct (greedy_body_step i1 i2 acc Hi2 Hacc) as (acc1 & -> & Hf1).
    cbn [mbind result_bind].
    destruct (IH acc1 (or_intror Hf1)) as (acc' & -> & Hs' & _ & Hf').
    eexists. split; [done|]. split; [done|]. split; auto.
Qed.

Lemma greedy_search_step (l : list nat)
    (acc : Qc * option nat * option nat) :
  greedy_start cs acc →
  ∃ acc', foldM (Cluster.greedy_row g cs) acc l = Ok acc'
          ∧ greedy_start cs acc'
          ∧ (Exists (λ i1, S i1 < length cs)%nat l → greedy_found cs acc')
          ∧ (greedy_found cs acc → greedy_found cs acc').
Proof.
  revert acc. induction l as [|i1 l IH]; intros acc Hacc; cbn [foldM].
  - eexists. split; [done|]. split; [done|]. split; [|done].
    by intros ?%Exists_nil.
  - destruct (greedy_row_step i1 (seq (S i1) (length cs - S i1)) acc)
      as (acc1 & Hrow & Hs1 & Hne1 & Hf1); [|done|].
    { apply Forall_forall. intros i2 Hi2%elem_of_seq. lia. }
    assert (Cluster.greedy_row g cs acc i1 = Ok acc1) as -> by exact Hrow.
    cbn [mbind result_bind].
    destruct (IH acc1 Hs1) as (acc' & -> & Hs' & Hex' & Hf').
    eexists. split; [done|]. split; [done|]. split; [|by auto].
    intros [Hi|Hex]%Exists_cons; [|by auto].
    apply Hf', Hne1. destruct (length cs - S i1)%nat eqn:Hn; [lia|done].
Qed.

Lemma greedy_round_partition :
  (2 ≤ length cs)%nat →
  ∃ cs', Cluster.greedy_round g cs = Ok cs'
         ∧ partition g cs' ∧ length cs' = (length cs - 1)%nat.
Proof.
  intros Hlen. unfold Cluster.greedy_round.
  destruct (greedy_search_step (seq 0 (length cs)) (-1, None, None))
    as (acc' & -> & _ & Hex & _); [by left|].
  cbn [mbind result_bind].
  destruct Hex as (i1 & i2 & Hb1 & Hb2 & Hne & [c1 H1] & [c2 H2]).
  - apply Exists_exists. exists 0%nat. split; [|lia].
    apply elem_of_seq. lia.
  - destruct acc' as [[best b1] b2]. simpl in Hb1, Hb2. subst b1 b2.
    by eapply merge_partition.
Qed.

End search.

Lemma get_all_vertices_all (g : WeightedGraph.t) :
  WeightedGraph.get_all_vertices "" g = dom g.
Proof.
  unfold WeightedGraph.get_all_vertices. by case_bool_decide.
Qed.

Lemma singletons_lookup (g : WeightedGraph.t) (i : nat) (c : gset string) :
  Cluster.singletons g !! i = Some c
  ↔ ∃ x, elements (dom g : gset string) !! i = Some x ∧ c = {[x]}.
Proof.
  unfold Cluster.singletons.
  rewrite get_all_vertices_all, list_lookup_fmap, fmap_Some. done.
Qed.

(** The clusters the loops start from: one singleton for each vertex. *)
Lemma singletons_partition (g : WeightedGraph.t) :
  partition g (Cluster.singletons g)
  ∧ length (Cluster.singletons g) = size g.
Proof.
  split; [split|].
  - intros i c (x & _ & ->)%singletons_lookup. set_solver.
  - intros i j c d Hij (x & Hx & ->)%singletons_lookup
      (y & Hy & ->)%singletons_lookup.
    assert (x ≠ y); [|set_solver].
    intros <-. apply Hij.
    eapply NoDup_lookup; [apply (NoDup_elements (dom g))|done..].
  - apply set_eq. intros x. rewrite elem_of_union_list. split.
    + intros (X & [i Hi]%list_elem_of_lookup_1 & Hx).
      apply singletons_lookup in Hi as (y & Hy & ->).
      apply elem_of_singleton in Hx as ->.
      by eapply elem_of_elements, list_elem_of_lookup_2.
    + intros [i Hi]%elem_of_elements%list_elem_of_lookup_1.
      exists {[x]}. split; [|set_solver].
      apply (list_elem_of_lookup_2 _ i), singletons_lookup. eauto.
  - unfold Cluster.singletons.
    rewrite get_all_vertices_all, length_fmap.
    by rewrite <- (size_dom (D:=gset string)).
Qed.

Section loops.

Context (g : WeightedGraph.t) (Hg : weights_above_start g).

Lemma random_loop_partition (random : nat → nat) (n k : nat)
    (cs : list (gset string)) :
  partition g cs → (n = 0 ∨ n < length cs)%nat →
  ∃ cs', Cluster.random_loop g random n k cs = Ok cs'
         ∧ partition g cs' ∧ length cs' = (length cs - n)%nat.
Proof.
  revert k cs. induction n as [|n IH]; intros k cs Hp Hn; simpl.
  - exists cs. split; [done|]. split; [done|lia].
  - destruct (random_round_partition g Hg cs Hp (random k))
      as (cs1 & -> & Hp1 & Hlen1); [lia|].
    cbn [mbind result_bind].
    destruct (IH (S k) cs1 Hp1) as (cs' & -> & Hp' & Hlen'); [lia|].
    exists cs'. split; [done|]. split; [done|lia].
Qed.

Lemma greedy_loop_partition (n : nat) (cs : list (gset string)) :
  partition g cs → (n = 0 ∨ n < length cs)%nat →
  ∃ cs', Cluster.greedy_loop g n cs = Ok cs'
         ∧ partition g cs' ∧ length cs' = (length cs - n)%nat.
Proof.
  revert cs. induction n as [|n IH]; intros cs Hp Hn; simpl.
  - exists cs. split; [done|]. split; [done|lia].
  - destruct (greedy_round_partition g Hg cs Hp)
      as (cs1 & -> & Hp1 & Hlen1); [lia|].
    cbn [mbind result_bind].
    destruct (IH cs1 Hp1) as (cs' & -> & Hp' & Hlen'); [lia|].
    exists cs'. split; [done|]. split; [done|lia].
Qed.

End loops.

Lemma partition_clustering (g : WeightedGraph.t) (num_clusters : Z)
    (n : nat) (r : result (list (gset string))) :
  (1 ≤ num_clusters)%Z →
  n = Cluster.rounds (Cluster.singletons g) num_clusters →
  (n = 0%nat → r = Ok (Cluster.singletons g)) →
  (∃ cs, r = Ok cs ∧ partition g cs
         ∧ length cs = (length (Cluster.singletons g) - n)%nat) →
  clustering g num_clusters r.
Proof.
  intros Hnum Hn H0 (cs & -> & Hp & Hlen).
  destruct (singletons_partition g) as [_ Hsize].
  unfold Cluster.rounds in Hn. rewrite Hsize in Hn, Hlen.
  exists cs. split; [done|]. split; [apply Hp|]. split; [apply Hp|].
  split; [|split].
  - intros c [i Hi]%list_elem_of_lookup_1. by eapply partition_nonempty.
  - intros Hle. lia.
  - intros Hle. assert (n = 0%nat) as Hn0 by lia.
    specialize (H0 Hn0). split; [by injection H0|lia].
Qed.




(** * Further properties of the graphs *)

(** ** What a call keeps *)

Lemma Graph_add_edge_lookup (g : Graph.t) (a b x : string)
    (vx : Graph._Vertex) :
  is_Some (g !! a) → is_Some (g !! b) → g !! x = Some vx →
  ∃ vx', (Graph.add_edge a b g).2 !! x = Some vx'
    ∧ Graph.kind vx' = Graph.kind vx
    ∧ ∀ y, y ∈ Graph.neighbours vx'
           ↔ y ∈ Graph.neighbours vx ∨ (x = a ∧ y = b) ∨ (x = b ∧ y = a).
Proof.
  intros Ha Hb Hx. rewrite Graph_add_edge_present by done. simpl.
  unfold Graph.neighbours_add.
  destruct (decide (x = b)) as [Hxb|Hxb], (decide (x = a)) as [Hxa|Hxa];
    subst.
  - rewrite lookup_alter_eq, lookup_alter_eq, Hx. simpl.
    eexists; split; [done|]. split; [done|]. intros y. simpl.
    rewrite !elem_of_union, !elem_of_singleton. intuition congruence.
  - rewrite lookup_alter_eq, lookup_alter_ne, Hx by done. simpl.
    eexists; split; [done|]. split; [done|]. intros y. simpl.
    rewrite !elem_of_union, !elem_of_singleton. intuition congruence.
  - rewrite lookup_alter_ne, lookup_alter_eq, Hx by done. simpl.
    eexists; split; [done|]. split; [done|]. intros y. simpl.
    rewrite !elem_of_union, !elem_of_singleton. intuition congruence.
  - rewrite !lookup_alter_ne, Hx by done.
    eexists; split; [done|]. split; [done|]. intros y. intuition congruence.
Qed.

Lemma Graph_add_edge_lookup_None (g : Graph.t) (a b x : string) :
  g !! x = None → (Graph.add_edge a b g).2 !! x = None.
Proof.
  intros Hx. unfold Graph.add_edge.
  destruct (g !! a) eqn:Ha; [|done]. destruct (g !! b) eqn:Hb; [|done].
  simpl. unfold Graph.neighbours_add.
  rewrite !lookup_alter_ne; [done|congruence|congruence].
Qed.

Lemma WeightedGraph_add_edge_lookup_None (g : WeightedGraph.t)
    (a b x : string) (w : Qc) :
  g !! x = None → (WeightedGraph.add_edge a b w g).2 !! x = None.
Proof.
  intros Hx. unfold WeightedGraph.add_edge.
  destruct (g !! a) eqn:Ha; [|done]. destruct (g !! b) eqn:Hb; [|done].
  simpl. unfold WeightedGraph.neighbours_set.
  rewrite !lookup_alter_ne; [done|congruence|congruence].
Qed.

(** A call keeps every vertex and its kind, and every edge. *)
Lemma Graph_step_lookup (g : Graph.t) (c : Graph.call) (x : string)
    (v : Graph._Vertex) :
  g !! x = Some v →
  ∃ v', Graph.step g c !! x = Some v'
    ∧ Graph.kind v' = Graph.kind v
    ∧ Graph.neighbours v ⊆ Graph.neighbours v'.
Proof.
  intros Hx. destruct c as [item kind|item1 item2]; simpl.
  - exists v. split; [|done]. unfold Graph.add_vertex.
    destruct (g !! item) eqn:Hi; [done|].
    rewrite lookup_insert_ne; [done|congruence].
  - destruct (g !! item1) as [v1|] eqn:H1, (g !! item2) as [v2|] eqn:H2.
    + destruct (Graph_add_edge_lookup g item1 item2 x v) as (v' & Hv' & Hk & Hn);
        [eauto..|].
      exists v'. split; [done|]. split; [done|]. intros y Hy. apply Hn. by left.
    + rewrite Graph_add_edge_absent by auto. exists v. done.
    + rewrite Graph_add_edge_absent by auto. exists v. done.
    + rewrite Graph_add_edge_absent by auto. exists v. done.
Qed.

Lemma WeightedGraph_step_lookup (g : WeightedGraph.t)
    (c : WeightedGraph.call) (x : string) (v : WeightedGraph._WeightedVertex) :
  g !! x = Some v →
  ∃ v', WeightedGraph.step g c !! x = Some v'
    ∧ WeightedGraph.kind v' = WeightedGraph.kind v
    ∧ dom (WeightedGraph.neighbours v) ⊆ dom (WeightedGraph.neighbours v').
Proof.
  intros Hx. destruct c as [item kind|item1 item2 w]; simpl.
  - exists v. split; [|done]. unfold WeightedGraph.add_vertex.
    destruct (g !! item) eqn:Hi; [done|].
    rewrite lookup_insert_ne; [done|congruence].
  - destruct (g !! item1) as [v1|] eqn:H1, (g !! item2) as [v2|] eqn:H2.
    + destruct (WeightedGraph_add_edge_lookup g item1 item2 x w v)
        as (v' & Hv' & Hk & Hn); [eauto..|].
      exists v'. split; [done|]. split; [done|]. intros y.
      rewrite !elem_of_dom, Hn. case_bool_decide; eauto.
    + rewrite WeightedGraph_add_edge_absent by auto. exists v. done.
    + rewrite WeightedGraph_add_edge_absent by auto. exists v. done.
    + rewrite WeightedGraph_add_edge_absent by auto. exists v. done.
Qed.

Lemma Graph_get_all_vertices_iff (g : Graph.t) (k x : string) :
  x ∈ Graph.get_all_vertices k g
  ↔ ∃ v, g !! x = Some v ∧ (k = "" ∨ Graph.kind v = k).
Proof.
  unfold Graph.get_all_vertices. case_bool_decide as Hk.
  - rewrite elem_of_dom. unfold is_Some.
    setoid_rewrite map_lookup_filter_Some. simpl.
    split; intros (v & Hv & Hkind); exists v; intuition congruence.
  - rewrite elem_of_dom. unfold is_Some.
    split; [intros [v Hv]|intros (v & Hv & _)]; eauto.
Qed.

Lemma WeightedGraph_get_all_vertices_iff (g : WeightedGraph.t)
    (k x : string) :
  x ∈ WeightedGraph.get_all_vertices k g
  ↔ ∃ v, g !! x = Some v ∧ (k = "" ∨ WeightedGraph.kind v = k).
Proof.
  unfold WeightedGraph.get_all_vertices. case_bool_decide as Hk.
  - rewrite elem_of_dom. unfold is_Some.
    setoid_rewrite map_lookup_filter_Some. simpl.
    split; intros (v & Hv & Hkind); exists v; intuition congruence.
  - rewrite elem_of_dom. unfold is_Some.
    split; [intros [v Hv]|intros (v & Hv & _)]; eauto.
Qed.

Lemma Graph_steps_lookup (cs : list Graph.call) (g : Graph.t) (x : string)
    (v : Graph._Vertex) :
  g !! x = Some v →
  ∃ v', foldl Graph.step g cs !! x = Some v'
    ∧ Graph.kind v' = Graph.kind v
    ∧ Graph.neighbours v ⊆ Graph.neighbours v'.
Proof.
  revert g v. induction cs as [|c cs IH]; intros g v Hx; simpl.
  - by exists v.
  - destruct (Graph_step_lookup g c x v Hx) as (v1 & H1 & Hk1 & Hn1).
    destruct (IH _ _ H1) as (v' & Hv' & Hk' & Hn').
    exists v'. split; [done|]. split; [congruence|]. by etrans.
Qed.

Lemma WeightedGraph_steps_lookup (cs : list WeightedGraph.call)
    (g : WeightedGraph.t) (x : string) (v : WeightedGraph._WeightedVertex) :
  g !! x = Some v →
  ∃ v', foldl WeightedGraph.step g cs !! x = Some v'
    ∧ WeightedGraph.kind v' = WeightedGraph.kind v
    ∧ dom (WeightedGraph.neighbours v) ⊆ dom (WeightedGraph.neighbours v').
Proof.
  revert g v. induction cs as [|c cs IH]; intros g v Hx; simpl.
  - by exists v.
  - destruct (WeightedGraph_step_lookup g c x v Hx) as (v1 & H1 & Hk1 & Hn1).
    destruct (IH _ _ H1) as (v' & Hv' & Hk' & Hn').
    exists v'. split; [done|]. split; [congruence|]. by etrans.
Qed.

(** X1.  No sequence of [add_vertex] and [add_edge] calls, from any graph,
    removes a vertex, changes its kind or removes an edge: for every kind
    (and for all kinds together) [get_all_vertices] only grows, and items
    that are adjacent stay adjacent; in the unweighted and in the weighted
    graph. *)
Theorem calls_never_remove (k x y : string) :
  (∀ (g : Graph.t) (cs : list Graph.call),
     Graph.get_all_vertices k g
       ⊆ Graph.get_all_vertices k (foldl Graph.step g cs)
     ∧ (Graph.adjacent x y g = true →
        Graph.adjacent x y (foldl Graph.step g cs) = true))
  ∧ (∀ (g : WeightedGraph.t) (cs : list WeightedGraph.call),
       WeightedGraph.get_all_vertices k g
         ⊆ WeightedGraph.get_all_vertices k (foldl WeightedGraph.step g cs)
       ∧ (WeightedGraph.adjacent x y g = true →
          WeightedGraph.adjacent x y (foldl WeightedGraph.step g cs) = true)).
Proof.
  split.
  - intros g cs. split.
    + intros z (v & Hv & Hk)%Graph_get_all_vertices_iff.
      destruct (Graph_steps_lookup cs g z v Hv) as (v' & Hv' & Hk' & _).
      apply Graph_get_all_vertices_iff. exists v'. split; [done|].
      destruct Hk; [by left|right; congruence].
    + rewrite !Graph_adjacent_iff. intros (vx & Hx & [vy Hy] & Hin).
      destruct (Graph_steps_lookup cs g x vx Hx) as (vx' & Hx' & _ & Hn).
      destruct (Graph_steps_lookup cs g y vy Hy) as (vy' & Hy' & _ & _).
      exists vx'. split; [done|]. split; [by eexists|]. by apply Hn.
  - intros g cs. split.
    + intros z (v & Hv & Hk)%WeightedGraph_get_all_vertices_iff.
      destruct (WeightedGraph_steps_lookup cs g z v Hv)
        as (v' & Hv' & Hk' & _).
      apply WeightedGraph_get_all_vertices_iff. exists v'. split; [done|].
      destruct Hk; [by left|right; congruence].
    + rewrite !WeightedGraph_adjacent_iff.
      intros (vx & Hx & [vy Hy] & Hin).
      destruct (WeightedGraph_steps_lookup cs g x vx Hx)
        as (vx' & Hx' & _ & Hn).
      destruct (WeightedGraph_steps_lookup cs g y vy Hy)
        as (vy' & Hy' & _ & _).
      exists vx'. split; [done|]. split; [by eexists|].
      apply elem_of_dom, Hn. by apply elem_of_dom.
Qed.

Lemma calls_never_remove_witness :
  let g := WeightedGraph.run
             [WeightedGraph.AddVertex "u" "user";
              WeightedGraph.AddVertex "b" "book";
              WeightedGraph.AddEdge "u" "b" (q 2)] in
  WeightedGraph.adjacent "u" "b"
    (foldl WeightedGraph.step g
       [WeightedGraph.AddVertex "u" "book";
        WeightedGraph.AddEdge "u" "b" (q 5);
        WeightedGraph.AddEdge "u" "c" (q 1)]) = true.
Proof.
  intros g.
  apply (proj2 (proj2 (calls_never_remove "" "u" "b") g _)).
  reflexivity.
Defined.

(** ** Edges have two ends *)

Lemma Graph_step_mutual (g : Graph.t) (c : Graph.call) :
  Graph_edges_mutual g → Graph_edges_mutual (Graph.step g c).
Proof.
  intros Hg. destruct c as [item kind|a b]; simpl.
  - unfold Graph.add_vertex. destruct (g !! item) eqn:Hi; [done|].
    intros x vx y. rewrite lookup_insert. case_decide as Hx.
    + intros [= <-]. simpl. by intros ?%not_elem_of_empty.
    + intros Hvx Hy. destruct (Hg x vx y Hvx Hy) as (vy & Hvy & Hxy).
      exists vy. split; [|done]. rewrite lookup_insert_ne; [done|congruence].
  - destruct (g !! a) as [va|] eqn:Ha, (g !! b) as [vb|] eqn:Hb;
      [|by rewrite Graph_add_edge_absent by auto..].
    assert (is_Some (g !! a)) as Ha' by eauto.
    assert (is_Some (g !! b)) as Hb' by eauto.
    intros x vx' y Hx' Hy.
    destruct (g !! x) as [vx|] eqn:Hx;
      [|by rewrite (Graph_add_edge_lookup_None g a b x Hx) in Hx'].
    destruct (Graph_add_edge_lookup g a b x vx Ha' Hb' Hx)
      as (vx'' & Hx'' & _ & Hn).
    rewrite Hx' in Hx''. injection Hx'' as <-.
    assert (∃ vy, g !! y = Some vy
              ∧ (x ∈ Graph.neighbours vy ∨ (y = a ∧ x = b) ∨ (y = b ∧ x = a)))
      as (vy & Hvy & Hxy).
    { destruct (proj1 (Hn y) Hy) as [Hy0|[[Hxa Hyb]|[Hxb Hya]]].
      - destruct (Hg x vx y Hx Hy0) as (vy & Hvy & Hxy). eauto.
      - exists vb. rewrite Hyb. auto.
      - exists va. rewrite Hya. auto. }
    destruct (Graph_add_edge_lookup g a b y vy Ha' Hb' Hvy)
      as (vy' & Hy' & _ & Hn').
    exists vy'. split; [done|]. by apply Hn'.
Qed.

Lemma WeightedGraph_step_mutual (g : WeightedGraph.t)
    (c : WeightedGraph.call) :
  WeightedGraph_edges_mutual g →
  WeightedGraph_edges_mutual (WeightedGraph.step g c).
Proof.
  intros Hg. destruct c as [item kind|a b w]; simpl.
  - unfold WeightedGraph.add_vertex. destruct (g !! item) eqn:Hi; [done|].
    intros x vx y w. rewrite lookup_insert. case_decide as Hx.
    + by intros [= <-].
    + intros Hvx Hy. destruct (Hg x vx y w Hvx Hy) as (vy & Hvy & Hxy).
      exists vy. split; [|done]. rewrite lookup_insert_ne; [done|congruence].
  - destruct (g !! a) as [va|] eqn:Ha, (g !! b) as [vb|] eqn:Hb;
      [|by rewrite WeightedGraph_add_edge_absent by auto..].
    assert (is_Some (g !! a)) as Ha' by eauto.
    assert (is_Some (g !! b)) as Hb' by eauto.
    intros x vx' y w0 Hx' Hy.
    destruct (g !! x) as [vx|] eqn:Hx;
      [|by rewrite (WeightedGraph_add_edge_lookup_None g a b x w Hx) in Hx'].
    destruct (WeightedGraph_add_edge_lookup g a b x w vx Ha' Hb' Hx)
      as (vx'' & Hx'' & _ & Hn).
    rewrite Hx' in Hx''. injection Hx'' as <-.
    rewrite Hn in Hy. case_bool_decide as Hends.
    + injection Hy as <-.
      assert (∃ vy, g !! y = Some vy) as [vy Hvy].
      { destruct Hends as [[_ Hyb]|[_ Hya]]; [rewrite Hyb|rewrite Hya]; eauto. }
      destruct (WeightedGraph_add_edge_lookup g a b y w vy Ha' Hb' Hvy)
        as (vy' & Hy' & _ & Hn').
      exists vy'. split; [done|]. rewrite Hn'.
      rewrite bool_decide_eq_true_2; [done|]. tauto.
    + destruct (Hg x vx y w0 Hx Hy) as (vy & Hvy & Hxy).
      destruct (WeightedGraph_add_edge_lookup g a b y w vy Ha' Hb' Hvy)
        as (vy' & Hy' & _ & Hn').
      exists vy'. split; [done|]. rewrite Hn'.
      rewrite bool_decide_eq_false_2; [done|]. tauto.
Qed.

Lemma Graph_run_mutual (cs : list Graph.call) :
  Graph_edges_mutual (Graph.run cs).
Proof.
  unfold Graph.run.
  assert (Graph_edges_mutual Graph.empty) as H0 by (intros x vx y; done).
  revert H0. generalize Graph.empty.
  induction cs as [|c cs IH]; intros g Hg; simpl; [done|].
  by apply IH, Graph_step_mutual.
Qed.

Lemma WeightedGraph_run_mutual (cs : list WeightedGraph.call) :
  WeightedGraph_edges_mutual (WeightedGraph.run cs).
Proof.
  unfold WeightedGraph.run.
  assert (WeightedGraph_edges_mutual WeightedGraph.empty) as H0
    by (intros x vx y w; done).
  revert H0. generalize WeightedGraph.empty.
  induction cs as [|c cs IH]; intros g Hg; simpl; [done|].
  by apply IH, WeightedGraph_step_mutual.
Qed.

Lemma WeightedGraph_mutual_get_weight (g : WeightedGraph.t) (x y : string) :
  WeightedGraph_edges_mutual g →
  WeightedGraph.get_weight x y g = WeightedGraph.get_weight y x g.
Proof.
  intros Hg. unfold WeightedGraph.get_weight.
  destruct (g !! x) as [vx|] eqn:Hx, (g !! y) as [vy|] eqn:Hy; try done.
  f_equal.
  destruct (WeightedGraph.neighbours vx !! y) as [w|] eqn:Hxy.
  - destruct (Hg x vx y w Hx Hxy) as (vy' & Hvy' & Hw).
    simplify_eq. by rewrite Hw.
  - destruct (WeightedGraph.neighbours vy !! x) as [w|] eqn:Hyx; [|done].
    destruct (Hg y vy x w Hy Hyx) as (vx' & Hvx' & Hw). by simplify_eq.
Qed.

(** X2.  In every graph built from the empty graph by [add_vertex] and
    [add_edge] calls, adjacency is symmetric: [adjacent(x, y)] equals
    [adjacent(y, x)]; and in the weighted graph [get_weight(x, y)] equals
    [get_weight(y, x)], with the same [KeyError] when an item is absent. *)
Theorem adjacency_and_weight_symmetric (x y : string) :
  (∀ cs : list Graph.call,
     Graph.adjacent x y (Graph.run cs) = Graph.adjacent y x (Graph.run cs))
  ∧ (∀ cs : list WeightedGraph.call,
       WeightedGraph.adjacent x y (WeightedGraph.run cs)
       = WeightedGraph.adjacent y x (WeightedGraph.run cs)
       ∧ WeightedGraph.get_weight x y (WeightedGraph.run cs)
         = WeightedGraph.get_weight y x (WeightedGraph.run cs)).
Proof.
  split.
  - intros cs. pose proof (Graph_run_mutual cs) as Hm.
    apply eq_iff_eq_true. rewrite !Graph_adjacent_iff. split.
    + intros (vx & Hx & _ & Hin).
      destruct (Hm x vx y Hx Hin) as (vy & Hy & Hxy). eauto 6.
    + intros (vy & Hy & _ & Hin).
      destruct (Hm y vy x Hy Hin) as (vx & Hx & Hyx). eauto 6.
  - intros cs. pose proof (WeightedGraph_run_mutual cs) as Hm. split.
    + apply eq_iff_eq_true. rewrite !WeightedGraph_adjacent_iff. split.
      * intros (vx & Hx & _ & [w Hin]).
        destruct (Hm x vx y w Hx Hin) as (vy & Hy & Hxy). eauto 6.
      * intros (vy & Hy & _ & [w Hin]).
        destruct (Hm y vy x w Hy Hin) as (vx & Hx & Hyx). eauto 6.
    + by apply WeightedGraph_mutual_get_weight.
Qed.

(** X3.  In every graph built from the empty graph by [add_vertex] and
    [add_edge] calls, the neighbours of a vertex are vertices of the graph:
    what [get_neighbours] returns is a subset of [get_all_vertices()]. *)
Theorem neighbours_are_vertices (x : string) (s : gset string) :
  (∀ cs : list Graph.call,
     Graph.get_neighbours x (Graph.run cs) = Ok s →
     s ⊆ Graph.get_all_vertices "" (Graph.run cs))
  ∧ (∀ cs : list WeightedGraph.call,
       WeightedGraph.get_neighbours x (WeightedGraph.run cs) = Ok s →
       s ⊆ WeightedGraph.get_all_vertices "" (WeightedGraph.run cs)).
Proof.
  split.
  - intros cs. unfold Graph.get_neighbours.
    destruct (Graph.run cs !! x) as [vx|] eqn:Hx; [|done].
    intros [= <-] y Hy.
    destruct (Graph_run_mutual cs x vx y Hx Hy) as (vy & Hvy & _).
    apply Graph_get_all_vertices_iff. eauto.
  - intros cs. unfold WeightedGraph.get_neighbours.
    destruct (WeightedGraph.run cs !! x) as [vx|] eqn:Hx; [|done].
    intros [= <-] y Hy.
    apply elem_of_list_to_set, list_elem_of_fmap in Hy as ([y' w] & -> & Hy).
    apply elem_of_map_to_list in Hy.
    destruct (WeightedGraph_run_mutual cs x vx y' w Hx Hy) as (vy & Hvy & _).
    apply WeightedGraph_get_all_vertices_iff. eauto.
Qed.

Lemma neighbours_are_vertices_witness :
  let cs := [Graph.AddVertex "u" "user"; Graph.AddVertex "b" "book";
             Graph.AddEdge "u" "b"] in
  ({["b"]} : gset string) ⊆ Graph.get_all_vertices "" (Graph.run cs).
Proof.
  intros cs. apply (proj1 (neighbours_are_vertices "u" {["b"]}) cs).
  reflexivity.
Defined.

(** ** The effect of one call *)

Lemma Graph_add_edge_lookup_inv (g : Graph.t) (a b x : string)
    (vx' : Graph._Vertex) :
  is_Some (g !! a) → is_Some (g !! b) →
  (Graph.add_edge a b g).2 !! x = Some vx' →
  ∃ vx, g !! x = Some vx
    ∧ Graph.kind vx' = Graph.kind vx
    ∧ ∀ y, y ∈ Graph.neighbours vx'
           ↔ y ∈ Graph.neighbours vx ∨ (x = a ∧ y = b) ∨ (x = b ∧ y = a).
Proof.
  intros Ha Hb Hx'.
  destruct (g !! x) as [vx|] eqn:Hx;
    [|by rewrite (Graph_add_edge_lookup_None g a b x Hx) in Hx'].
  destruct (Graph_add_edge_lookup g a b x vx Ha Hb Hx) as (v & Hv & Hk & Hn).
  rewrite Hx' in Hv. injection Hv as <-. eauto.
Qed.

Lemma WeightedGraph_add_edge_lookup_inv (g : WeightedGraph.t)
    (a b x : string) (w : Qc) (vx' : WeightedGraph._WeightedVertex) :
  is_Some (g !! a) → is_Some (g !! b) →
  (WeightedGraph.add_edge a b w g).2 !! x = Some vx' →
  ∃ vx, g !! x = Some vx
    ∧ WeightedGraph.kind vx' = WeightedGraph.kind vx
    ∧ ∀ y, WeightedGraph.neighbours vx' !! y =
        if bool_decide ((x = a ∧ y = b) ∨ (x = b ∧ y = a)) then Some w
        else WeightedGraph.neighbours vx !! y.
Proof.
  intros Ha Hb Hx'.
  destruct (g !! x) as [vx|] eqn:Hx;
    [|by rewrite (WeightedGraph_add_edge_lookup_None g a b x w Hx) in Hx'].
  destruct (WeightedGraph_add_edge_lookup g a b x w vx Ha Hb Hx)
    as (v & Hv & Hk & Hn).
  rewrite Hx' in Hv. injection Hv as <-. eauto.
Qed.

Lemma Graph_vertex_eq (v v' : Graph._Vertex) :
  Graph.kind v = Graph.kind v' →
  (∀ y, y ∈ Graph.neighbours v ↔ y ∈ Graph.neighbours v') → v = v'.
Proof.
  destruct v as [k n], v' as [k' n']. simpl. intros -> Hn.
  f_equal. by apply set_eq.
Qed.

Lemma WeightedGraph_vertex_eq (v v' : WeightedGraph._WeightedVertex) :
  WeightedGraph.kind v = WeightedGraph.kind v' →
  (∀ y, WeightedGraph.neighbours v !! y = WeightedGraph.neighbours v' !! y) →
  v = v'.
Proof.
  destruct v as [k n], v' as [k' n']. simpl. intros -> Hn.
  f_equal. by apply map_eq.
Qed.

(** X4.  In an unweighted graph in which [a] and [b] are vertices,
    [add_edge(a, b)] returns normally; afterwards two items are adjacent
    exactly when they were before or are [a] and [b] (in either order); the
    vertices of every kind are the same; and a second [add_edge(a, b)]
    changes nothing. *)
Theorem Graph_add_edge_adds_one_edge (g : Graph.t) (a b : string) :
  a ∈ dom g → b ∈ dom g →
  let g' := (Graph.add_edge a b g).2 in
  (Graph.add_edge a b g).1 = Ok ()
  ∧ (∀ x y, Graph.adjacent x y g' = true
            ↔ Graph.adjacent x y g = true
              ∨ (x = a ∧ y = b) ∨ (x = b ∧ y = a))
  ∧ (∀ k, Graph.get_all_vertices k g' = Graph.get_all_vertices k g)
  ∧ Graph.add_edge a b g' = (Ok (), g').
Proof.
  intros Ha Hb g'. apply elem_of_dom in Ha, Hb.
  pose proof Ha as [va Hva]. pose proof Hb as [vb Hvb].
  destruct (Graph_add_edge_lookup g a b a va Ha Hb Hva) as (va' & Ha' & _ & Hna).
  destruct (Graph_add_edge_lookup g a b b vb Ha Hb Hvb) as (vb' & Hb' & _ & Hnb).
  fold g' in Ha', Hb'.
  split; [by rewrite Graph_add_edge_present|]. split; [|split].
  - intros x y. rewrite !Graph_adjacent_iff. split.
    + intros (vx' & Hx' & [vy' Hy'] & Hin).
      apply Graph_add_edge_lookup_inv in Hx' as (vx & Hx & _ & Hn); [|done..].
      apply Graph_add_edge_lookup_inv in Hy' as (vy & Hy & _ & _); [|done..].
      apply Hn in Hin as [Hin|Hends]; [left; eauto 6|by right].
    + intros [(vx & Hx & [vy Hy] & Hin)|Hends].
      * destruct (Graph_add_edge_lookup g a b x vx Ha Hb Hx)
          as (vx' & Hx' & _ & Hn).
        destruct (Graph_add_edge_lookup g a b y vy Ha Hb Hy)
          as (vy' & Hy' & _ & _).
        exists vx'. split; [done|]. split; [by eexists|]. apply Hn. by left.
      * destruct Hends as [[-> ->]|[-> ->]].
        -- exists va'. split; [done|]. split; [by eexists|]. apply Hna. auto.
        -- exists vb'. split; [done|]. split; [by eexists|]. apply Hnb. auto.
  - intros k. apply set_eq. intros x.
    rewrite !Graph_get_all_vertices_iff. split.
    + intros (vx' & Hx' & Hk).
      apply Graph_add_edge_lookup_inv in Hx' as (vx & Hx & Hkind & _);
        [|done..].
      exists vx. split; [done|]. destruct Hk; [by left|right; congruence].
    + intros (vx & Hx & Hk).
      destruct (Graph_add_edge_lookup g a b x vx Ha Hb Hx)
        as (vx' & Hx' & Hkind & _).
      exists vx'. split; [done|]. destruct Hk; [by left|right; congruence].
  - rewrite (surjective_pairing (Graph.add_edge a b g')). f_equal.
    { by rewrite Graph_add_edge_present by (by eexists). }
    apply map_eq. intros x.
    destruct (g' !! x) as [vx'|] eqn:Hx'.
    + destruct (Graph_add_edge_lookup g' a b x vx') as (vx'' & -> & Hk & Hn);
        [by eexists..|done|].
      f_equal. apply Graph_vertex_eq; [done|]. intros y. rewrite Hn.
      apply Graph_add_edge_lookup_inv in Hx' as (vx & _ & _ & Hn0); [|done..].
      rewrite Hn0. tauto.
    + by apply Graph_add_edge_lookup_None.
Qed.

Lemma Graph_add_edge_adds_one_edge_witness :
  let g := Graph.run [Graph.AddVertex "u" "user"; Graph.AddVertex "b" "book";
                      Graph.AddVertex "c" "book"] in
  let g' := (Graph.add_edge "u" "b" g).2 in
  Graph.get_all_vertices "book" g' = Graph.get_all_vertices "book" g
  ∧ Graph.add_edge "u" "b" g' = (Ok (), g').
Proof.
  intros g g'.
  destruct (Graph_add_edge_adds_one_edge g "u" "b") as (_ & _ & Hk & Hi).
  - apply elem_of_dom. vm_compute. eauto.
  - apply elem_of_dom. vm_compute. eauto.
  - split; [apply Hk|apply Hi].
Defined.

(** X5.  In a weighted graph in which [a] and [b] are vertices,
    [add_edge(a, b, w)] touches only the edge between [a] and [b]: for every
    other pair of items [get_weight] and [adjacent] answer as before, and
    the vertices of every kind are the same; and a second
    [add_edge(a, b, w)] changes nothing. *)
Theorem WeightedGraph_add_edge_changes_one_edge
    (g : WeightedGraph.t) (a b : string) (w : Qc) :
  a ∈ dom g → b ∈ dom g →
  let g' := (WeightedGraph.add_edge a b w g).2 in
  (∀ x y, ¬ ((x = a ∧ y = b) ∨ (x = b ∧ y = a)) →
     WeightedGraph.get_weight x y g' = WeightedGraph.get_weight x y g
     ∧ WeightedGraph.adjacent x y g' = WeightedGraph.adjacent x y g)
  ∧ (∀ k, WeightedGraph.get_all_vertices k g'
          = WeightedGraph.get_all_vertices k g)
  ∧ WeightedGraph.add_edge a b w g' = (Ok (), g').
Proof.
  intros Ha Hb g'. apply elem_of_dom in Ha, Hb.
  assert (∀ x, g' !! x = None ↔ g !! x = None) as Hnone.
  { intros x. split.
    - intros Hx'. destruct (g !! x) as [vx|] eqn:Hx; [|done].
      destruct (WeightedGraph_add_edge_lookup g a b x w vx Ha Hb Hx)
        as (vx' & Hvx' & _). unfold g' in Hx'. congruence.
    - apply WeightedGraph_add_edge_lookup_None. }
  split; [|split].
  - intros x y Hends. split.
    + unfold WeightedGraph.get_weight.
      destruct (g !! x) as [vx|] eqn:Hx;
        [|by rewrite (proj2 (Hnone x) Hx)].
      destruct (WeightedGraph_add_edge_lookup g a b x w vx Ha Hb Hx)
        as (vx' & Hx' & _ & Hn). fold g' in Hx'. rewrite Hx'.
      destruct (g !! y) as [vy|] eqn:Hy;
        [|by rewrite (proj2 (Hnone y) Hy)].
      destruct (WeightedGraph_add_edge_lookup g a b y w vy Ha Hb Hy)
        as (vy' & Hy' & _). fold g' in Hy'. rewrite Hy', Hn.
      by rewrite bool_decide_eq_false_2.
    + apply eq_iff_eq_true. rewrite !WeightedGraph_adjacent_iff. split.
      * intros (vx' & Hx' & [vy' Hy'] & Hin).
        apply WeightedGraph_add_edge_lookup_inv in Hx'
          as (vx & Hx & _ & Hn); [|done..].
        apply WeightedGraph_add_edge_lookup_inv in Hy'
          as (vy & Hy & _ & _); [|done..].
        rewrite Hn, bool_decide_eq_false_2 in Hin by done. eauto 6.
      * intros (vx & Hx & [vy Hy] & Hin).
        destruct (WeightedGraph_add_edge_lookup g a b x w vx Ha Hb Hx)
          as (vx' & Hx' & _ & Hn).
        destruct (WeightedGraph_add_edge_lookup g a b y w vy Ha Hb Hy)
          as (vy' & Hy' & _).
        exists vx'. split; [done|]. split; [by eexists|].
        by rewrite Hn, bool_decide_eq_false_2.
  - intros k. apply set_eq. intros x.
    rewrite !WeightedGraph_get_all_vertices_iff. split.
    + intros (vx' & Hx' & Hk).
      apply WeightedGraph_add_edge_lookup_inv in Hx'
        as (vx & Hx & Hkind & _); [|done..].
      exists vx. split; [done|]. destruct Hk; [by left|right; congruence].
    + intros (vx & Hx & Hk).
      destruct (WeightedGraph_add_edge_lookup g a b x w vx Ha Hb Hx)
        as (vx' & Hx' & Hkind & _).
      exists vx'. split; [done|]. destruct Hk; [by left|right; congruence].
  - assert (is_Some (g' !! a) ∧ is_Some (g' !! b)) as [Ha' Hb'].
    { rewrite <- !not_eq_None_Some, !Hnone, !not_eq_None_Some. done. }
    rewrite (surjective_pairing (WeightedGraph.add_edge a b w g')). f_equal.
    { by rewrite WeightedGraph_add_edge_present. }
    apply map_eq. intros x.
    destruct (g' !! x) as [vx'|] eqn:Hx'.
    + destruct (WeightedGraph_add_edge_lookup g' a b x w vx')
        as (vx'' & -> & Hk & Hn); [done..|].
      f_equal. apply WeightedGraph_vertex_eq; [done|]. intros y. rewrite Hn.
      apply WeightedGraph_add_edge_lookup_inv in Hx'
        as (vx & _ & _ & Hn0); [|done..].
      rewrite Hn0. by case_bool_decide.
    + by apply WeightedGraph_add_edge_lookup_None.
Qed.

Lemma WeightedGraph_add_edge_changes_one_edge_witness :
  let g := WeightedGraph.run
             [WeightedGraph.AddVertex "u" "user";
              WeightedGraph.AddVertex "b" "book";
              WeightedGraph.AddVertex "c" "book";
              WeightedGraph.AddEdge "u" "c" (q 3)] in
  let g' := (WeightedGraph.add_edge "u" "b" (q 5) g).2 in
  WeightedGraph.get_weight "u" "c" g' = WeightedGraph.get_weight "u" "c" g
  ∧ WeightedGraph.add_edge "u" "b" (q 5) g' = (Ok (), g').
Proof.
  intros g g'.
  destruct (WeightedGraph_add_edge_changes_one_edge g "u" "b" (q 5))
    as (Hw & _ & Hi).
  - apply elem_of_dom. vm_compute. eauto.
  - apply elem_of_dom. vm_compute. eauto.
  - split; [|apply Hi]. apply (Hw "u" "c").
    intros [[_ H]|[H _]]; discriminate.
Defined.

(** X6.  For a vertex [a] and a vertex [b], [adjacent(a, b)] is true
    exactly when [b] is in the set [get_neighbours(a)] returns; in the
    unweighted and in the weighted graph. *)
Theorem adjacent_iff_in_get_neighbours (a b : string) (s : gset string) :
  (∀ g : Graph.t, b ∈ dom g → Graph.get_neighbours a g = Ok s →
     (Graph.adjacent a b g = true ↔ b ∈ s))
  ∧ (∀ g : WeightedGraph.t, b ∈ dom g →
       WeightedGraph.get_neighbours a g = Ok s →
       (WeightedGraph.adjacent a b g = true ↔ b ∈ s)).
Proof.
  split.
  - intros g Hb%elem_of_dom. unfold Graph.get_neighbours.
    rewrite Graph_adjacent_iff.
    destruct (g !! a) as [va|] eqn:Ha; [|done]. intros [= <-]. split.
    + intros (va' & [= <-] & _ & Hin). done.
    + intros Hin. eauto.
  - intros g Hb%elem_of_dom. unfold WeightedGraph.get_neighbours.
    rewrite WeightedGraph_adjacent_iff.
    destruct (g !! a) as [va|] eqn:Ha; [|done]. intros [= <-].
    rewrite elem_of_list_to_set, list_elem_of_fmap. split.
    + intros (va' & [= <-] & _ & [w Hw]). exists (b, w).
      split; [done|]. by apply elem_of_map_to_list.
    + intros ([b' w] & -> & Hw%elem_of_map_to_list). eauto 6.
Qed.

Lemma adjacent_iff_in_get_neighbours_witness :
  let g := Graph.run [Graph.AddVertex "u" "user"; Graph.AddVertex "b" "book";
                      Graph.AddEdge "u" "b"] in
  Graph.adjacent "u" "b" g = true ↔ "b" ∈ ({["b"]} : gset string).
Proof.
  intros g. apply (proj1 (adjacent_iff_in_get_neighbours "u" "b" {["b"]}) g).
  - apply elem_of_dom. vm_compute. eauto.
  - reflexivity.
Defined.

Lemma Graph_add_vertex_new (g : Graph.t) (item kind : string) :
  Graph_edges_mutual g → g !! item = None →
  let g' := Graph.add_vertex item kind g in
  (∀ k, Graph.get_all_vertices k g'
        = if bool_decide (k = "" ∨ k = kind)
          then {[item]} ∪ Graph.get_all_vertices k g
          else Graph.get_all_vertices k g)
  ∧ Graph.get_neighbours item g' = Ok ∅
  ∧ ∀ x y, Graph.adjacent x y g' = Graph.adjacent x y g.
Proof.
  intros Hm Hi g'. unfold g', Graph.add_vertex. rewrite Hi.
  split; [|split].
  - intros k. apply set_eq. intros x.
    assert (x ∈ (if bool_decide (k = "" ∨ k = kind)
                 then {[item]} ∪ Graph.get_all_vertices k g
                 else Graph.get_all_vertices k g)
            ↔ (x = item ∧ (k = "" ∨ k = kind))
              ∨ x ∈ Graph.get_all_vertices k g) as ->.
    { case_bool_decide; [|tauto].
      rewrite elem_of_union, elem_of_singleton. tauto. }
    rewrite !Graph_get_all_vertices_iff. split.
    + intros (v & Hv & Hk). rewrite lookup_insert in Hv.
      case_decide as Hx; [|eauto].
      injection Hv as <-. simpl in Hk. left. split; [done|].
      destruct Hk; auto.
    + intros [[-> Hk]|(v & Hv & Hk)].
      * eexists. rewrite lookup_insert_eq. split; [done|]. simpl.
        destruct Hk; auto.
      * exists v. split; [|done].
        rewrite lookup_insert_ne; [done|congruence].
  - unfold Graph.get_neighbours. by rewrite lookup_insert_eq.
  - intros x y. apply eq_iff_eq_true. rewrite !Graph_adjacent_iff. split.
    + intros (vx & Hx & _ & Hin). rewrite lookup_insert in Hx.
      case_decide; [injection Hx as <-; by apply not_elem_of_empty in Hin|].
      destruct (Hm x vx y Hx Hin) as (vy & Hy & _). eauto 6.
    + intros (vx & Hx & [vy Hy] & Hin).
      exists vx. rewrite !lookup_insert_ne by congruence. eauto.
Qed.

Lemma WeightedGraph_add_vertex_new (g : WeightedGraph.t)
    (item kind : string) :
  WeightedGraph_edges_mutual g → g !! item = None →
  let g' := WeightedGraph.add_vertex item kind g in
  (∀ k, WeightedGraph.get_all_vertices k g'
        = if bool_decide (k = "" ∨ k = kind)
          then {[item]} ∪ WeightedGraph.get_all_vertices k g
          else WeightedGraph.get_all_vertices k g)
  ∧ WeightedGraph.get_neighbours item g' = Ok ∅
  ∧ ∀ x y, WeightedGraph.adjacent x y g' = WeightedGraph.adjacent x y g.
Proof.
  intros Hm Hi g'. unfold g', WeightedGraph.add_vertex. rewrite Hi.
  split; [|split].
  - intros k. apply set_eq. intros x.
    assert (x ∈ (if bool_decide (k = "" ∨ k = kind)
                 then {[item]} ∪ WeightedGraph.get_all_vertices k g
                 else WeightedGraph.get_all_vertices k g)
            ↔ (x = item ∧ (k = "" ∨ k = kind))
              ∨ x ∈ WeightedGraph.get_all_vertices k g) as ->.
    { case_bool_decide; [|tauto].
      rewrite elem_of_union, elem_of_singleton. tauto. }
    rewrite !WeightedGraph_get_all_vertices_iff. split.
    + intros (v & Hv & Hk). rewrite lookup_insert in Hv.
      case_decide as Hx; [|eauto].
      injection Hv as <-. simpl in Hk. left. split; [done|].
      destruct Hk; auto.
    + intros [[-> Hk]|(v & Hv & Hk)].
      * eexists. rewrite lookup_insert_eq. split; [done|]. simpl.
        destruct Hk; auto.
      * exists v. split; [|done].
        rewrite lookup_insert_ne; [done|congruence].
  - unfold WeightedGraph.get_neighbours. by rewrite lookup_insert_eq.
  - intros x y. apply eq_iff_eq_true.
    rewrite !WeightedGraph_adjacent_iff. split.
    + intros (vx & Hx & _ & [w Hin]). rewrite lookup_insert in Hx.
      case_decide; [by injection Hx as <-|].
      destruct (Hm x vx y w Hx Hin) as (vy & Hy & _). eauto 6.
    + intros (vx & Hx & [vy Hy] & Hin).
      exists vx. rewrite !lookup_insert_ne by congruence. eauto.
Qed.

(** X7.  On a graph built from the empty graph by [add_vertex] and
    [add_edge] calls, [add_vertex(item, kind)] leaves the graph as it is
    when [item] is a vertex already (its kind is kept); for a new [item] it
    adds [item] to the vertices of kind [kind] and to no other kind, gives
    it no neighbours, and changes no adjacency; in the unweighted and in the
    weighted graph. *)
Theorem add_vertex_adds_an_isolated_vertex (item kind : string) :
  (∀ cs : list Graph.call,
     let g := Graph.run cs in
     let g' := Graph.add_vertex item kind g in
     (item ∈ dom g → g' = g)
     ∧ (item ∉ dom g →
        (∀ k, Graph.get_all_vertices k g'
              = if bool_decide (k = "" ∨ k = kind)
                then {[item]} ∪ Graph.get_all_vertices k g
                else Graph.get_all_vertices k g)
        ∧ Graph.get_neighbours item g' = Ok ∅
        ∧ ∀ x y, Graph.adjacent x y g' = Graph.adjacent x y g))
  ∧ (∀ cs : list WeightedGraph.call,
       let g := WeightedGraph.run cs in
       let g' := WeightedGraph.add_vertex item kind g in
       (item ∈ dom g → g' = g)
       ∧ (item ∉ dom g →
          (∀ k, WeightedGraph.get_all_vertices k g'
                = if bool_decide (k = "" ∨ k = kind)
                  then {[item]} ∪ WeightedGraph.get_all_vertices k g
                  else WeightedGraph.get_all_vertices k g)
          ∧ WeightedGraph.get_neighbours item g' = Ok ∅
          ∧ ∀ x y, WeightedGraph.adjacent x y g'
                   = WeightedGraph.adjacent x y g)).
Proof.
  split.
  - intros cs g g'. split.
    + intros [v Hv]%elem_of_dom. unfold g', Graph.add_vertex. by rewrite Hv.
    + intros Hi%not_elem_of_dom.
      by apply Graph_add_vertex_new; [apply Graph_run_mutual|].
  - intros cs g g'. split.
    + intros [v Hv]%elem_of_dom. unfold g', WeightedGraph.add_vertex.
      by rewrite Hv.
    + intros Hi%not_elem_of_dom.
      by apply WeightedGraph_add_vertex_new; [apply WeightedGraph_run_mutual|].
Qed.

Lemma add_vertex_adds_an_isolated_vertex_witness :
  let g := Graph.run [Graph.AddVertex "u" "user"] in
  Graph.add_vertex "u" "book" g = g
  ∧ Graph.get_neighbours "b" (Graph.add_vertex "b" "book" g) = Ok ∅.
Proof.
  intros g. split.
  - apply (proj1 (proj1 (add_vertex_adds_an_isolated_vertex "u" "book")
                   [Graph.AddVertex "u" "user"])).
    apply elem_of_dom. vm_compute. eauto.
  - apply (proj2 (proj1 (add_vertex_adds_an_isolated_vertex "b" "book")
                   [Graph.AddVertex "u" "user"])).
    apply not_elem_of_dom. reflexivity.
Defined.

(** ** The range of the similarity scores *)

Lemma quotient_le_1 (d1 d2 n m : nat) :
  (n ≤ m)%nat → quotient d1 d2 n m ≤ 1.
Proof.
  intros Hnm. unfold quotient. case_bool_decide; [done|].
  destruct (decide (m = 0%nat)) as [->|Hm].
  - rewrite Qc_of_nat_0. unfold Qcdiv. by rewrite Qcmult_0_r.
  - assert (0 < Qc_of_nat m) as Hpos by by apply Qc_of_nat_pos.
    trans (Qc_of_nat m / Qc_of_nat m).
    + apply Qcdiv_le_mono; [done|]. by apply Qc_of_nat_le.
    + unfold Qcdiv. rewrite Qcmult_inv_r; [done|].
      by apply not_eq_sym, Qclt_not_eq.
Qed.

Lemma quotient_same (d n : nat) :
  d ≠ 0%nat → n ≠ 0%nat → quotient d d n n = 1.
Proof.
  intros Hd Hn. unfold quotient.
  rewrite bool_decide_eq_false_2 by tauto.
  unfold Qcdiv. apply Qcmult_inv_r. by rewrite Qc_of_nat_eq_0.
Qed.

(** X8.  Every similarity score lies between 0 and 1: the score of the
    unweighted graph and, for every score type, the score of the weighted
    graph. *)
Theorem similarity_score_between_0_and_1 (a b : string) (s : Qc) :
  (∀ g : Graph.t, Graph.get_similarity_score a b g = Ok s → 0 ≤ s ≤ 1)
  ∧ (∀ (g : WeightedGraph.t) (score_type : string),
       WeightedGraph.get_similarity_score a b score_type g = Ok s →
       0 ≤ s ≤ 1).
Proof.
  split.
  - intros g. unfold Graph.get_similarity_score.
    destruct (g !! a) as [va|]; [|done]. destruct (g !! b) as [vb|]; [|done].
    rewrite Graph_similarity_score_Ok. intros [= <-].
    split; [apply quotient_nonneg|].
    apply quotient_le_1, subseteq_size. set_solver.
  - intros g score_type. unfold WeightedGraph.get_similarity_score.
    destruct (g !! a) as [va|]; [|done]. destruct (g !! b) as [vb|]; [|done].
    rewrite similarity_score_unweighted_Ok, similarity_score_strict_Ok.
    case_bool_decide; intros [= <-]; (split; [apply quotient_nonneg|]).
    + apply quotient_le_1, subseteq_size. set_solver.
    + apply quotient_le_1, subseteq_size.
      etrans; [apply strict_and_set_subseteq|]. set_solver.
Qed.

Lemma similarity_score_between_0_and_1_witness :
  let g := WeightedGraph.run
             [WeightedGraph.AddVertex "u" "user";
              WeightedGraph.AddVertex "v" "user";
              WeightedGraph.AddVertex "b" "book";
              WeightedGraph.AddVertex "c" "book";
              WeightedGraph.AddEdge "u" "b" (q 4);
              WeightedGraph.AddEdge "v" "b" (q 4);
              WeightedGraph.AddEdge "v" "c" (q 3)] in
  WeightedGraph.get_similarity_score "u" "v" "strict" g = Ok (Q2Qc (1 # 2))
  ∧ 0 ≤ Q2Qc (1 # 2) ≤ 1.
Proof.
  intros g.
  assert (WeightedGraph.get_similarity_score "u" "v" "strict" g
          = Ok (Q2Qc (1 # 2))) as H.
  { apply (f_equal (@Ok Qc)). apply Qc_is_canon. reflexivity. }
  split; [exact H|].
  exact (proj2 (similarity_score_between_0_and_1 "u" "v" (Q2Qc (1 # 2)))
           g "strict" H).
Defined.

(** X9.  A vertex with at least one neighbour has similarity score 1 with
    itself, and a vertex without neighbours has score 0 with itself: for the
    score of the unweighted graph; for the score of the weighted graph with
    score type ['unweighted']; and for the score of the weighted graph with
    every score type when the weights stored at the vertex lie between two
    numbers (a weight that is not a number is different from itself, and
    the strict score leaves its edge out). *)
Theorem similarity_score_with_itself (a : string) :
  (∀ (g : Graph.t) (va : Graph._Vertex),
     g !! a = Some va →
     Graph.get_similarity_score a a g
     = Ok (if bool_decide (Graph.degree va = 0%nat) then 0 else 1))
  ∧ (∀ (g : WeightedGraph.t) (va : WeightedGraph._WeightedVertex),
       g !! a = Some va →
       WeightedGraph.get_similarity_score a a "unweighted" g
       = Ok (if bool_decide (WeightedGraph.degree va = 0%nat) then 0 else 1))
  ∧ (∀ (g : WeightedGraph.t) (va : WeightedGraph._WeightedVertex)
       (score_type : string) (lo hi : Qc),
       g !! a = Some va →
       map_Forall (λ _ w, lo ≤ w ≤ hi) (WeightedGraph.neighbours va) →
       WeightedGraph.get_similarity_score a a score_type g
       = Ok (if bool_decide (WeightedGraph.degree va = 0%nat) then 0 else 1)).
Proof.
  assert (∀ (g : WeightedGraph.t) (va : WeightedGraph._WeightedVertex)
            (score_type : string),
            g !! a = Some va →
            WeightedGraph.get_similarity_score a a score_type g
            = Ok (if bool_decide (WeightedGraph.degree va = 0%nat)
                  then 0 else 1)) as Hw.
  { intros g va score_type Ha. unfold WeightedGraph.get_similarity_score.
    rewrite Ha, similarity_score_unweighted_Ok, similarity_score_strict_Ok.
    assert (dom (filter (λ xw, WeightedGraph.neighbours va !! xw.1
                                 = Some xw.2) (WeightedGraph.neighbours va))
            = dom (WeightedGraph.neighbours va)) as ->.
    { f_equal. apply map_filter_id. by intros x w Hx. }
    rewrite (idemp_L (∩)), (idemp_L (∪)).
    rewrite (size_dom (D:=gset string)).
    assert (quotient (WeightedGraph.degree va) (WeightedGraph.degree va)
              (size (WeightedGraph.neighbours va))
              (size (WeightedGraph.neighbours va))
            = if bool_decide (WeightedGraph.degree va = 0%nat) then 0 else 1)
      as ->; [|by case_bool_decide].
    case_bool_decide as Hd.
    - by apply quotient_degree_0; left.
    - by apply quotient_same. }
  split; [|split].
  - intros g va Ha. unfold Graph.get_similarity_score.
    rewrite Ha, Graph_similarity_score_Ok. f_equal.
    rewrite (idemp_L (∩)), (idemp_L (∪)). case_bool_decide as Hd.
    + by apply quotient_degree_0; left.
    + by apply quotient_same.
  - intros g va Ha. by apply Hw.
  - intros g va score_type lo hi Ha _. by apply Hw.
Qed.

Lemma similarity_score_with_itself_witness :
  let g := Graph.run [Graph.AddVertex "u" "user"; Graph.AddVertex "b" "book";
                      Graph.AddEdge "u" "b"] in
  let wg := WeightedGraph.run
              [WeightedGraph.AddVertex "u" "user";
               WeightedGraph.AddVertex "b" "book";
               WeightedGraph.AddEdge "u" "b" (q 4)] in
  Graph.get_similarity_score "u" "u" g = Ok 1
  ∧ WeightedGraph.get_similarity_score "u" "u" "unweighted" wg = Ok 1
  ∧ WeightedGraph.get_similarity_score "u" "u" "strict" wg = Ok 1.
Proof.
  intros g wg.
  destruct (similarity_score_with_itself "u") as (H1 & H2 & H3).
  split; [|split].
  - rewrite (H1 g (Graph.mk_Vertex "user" {["b"]})).
    + by vm_compute.
    + reflexivity.
  - rewrite (H2 wg (WeightedGraph.mk_WeightedVertex "user" {["b" := q 4]})).
    + by vm_compute.
    + reflexivity.
  - rewrite (H3 wg (WeightedGraph.mk_WeightedVertex "user" {["b" := q 4]})
               "strict" (q 1) (q 5)).
    + by vm_compute.
    + reflexivity.
    + intros x w Hx. simpl in Hx.
      apply lookup_singleton_Some in Hx as [_ <-]. by vm_compute.
Defined.

(** ** The weighted graph as an unweighted graph *)

Lemma foldM_ext {A B : Type} (f f' : B → A → result B) (acc : B)
    (l : list A) :
  (∀ acc x, x ∈ l → f acc x = f' acc x) → foldM f acc l = foldM f' acc l.
Proof.
  revert acc. induction l as [|x l IH]; intros acc Hf; simpl; [done|].
  rewrite Hf by by left. destruct (f' acc x) as [acc'|e]; simpl; [|done].
  apply IH. intros acc'' y Hy. apply Hf. by right.
Qed.

Lemma ranking_ext (score score' : string → result Qc) (books : list string)
    (book : string) (limit : Z) :
  (∀ v, v ∈ books → v ≠ book → score v = score' v) →
  ranking score books book limit = ranking score' books book limit.
Proof.
  intros Hs. unfold ranking.
  rewrite (foldM_ext _ (λ scores vertex,
             if bool_decide (vertex ≠ book)
             then s ← score' vertex; Ok (scores ++ [s])
             else Ok scores)).
  2:{ intros acc v Hv. case_bool_decide; [|done]. by rewrite Hs. }
  destruct (foldM _ [] books) as [scores|e]; simpl; [|done].
  rewrite (foldM_ext _ (λ acc score0,
             foldM (λ acc vertex,
                      if bool_decide (vertex ≠ book)
                      then s ← score' vertex;
                           if bool_decide (s = score0)
                           then Ok (acc ++ [vertex]) else Ok acc
                      else Ok acc)
                   acc books)); [done|].
  intros acc score0 _. apply foldM_ext.
  intros acc' v Hv. case_bool_decide; [|done]. by rewrite Hs.
Qed.

Lemma Graph_recommend_books_ranking (g : Graph.t) (book : string)
    (limit : Z) :
  Graph.recommend_books book limit g
  = ranking (λ v, Graph.get_similarity_score book v g)
            (elements (Graph.get_all_vertices "book" g)) book limit.
Proof. reflexivity. Qed.

Lemma WeightedGraph_recommend_books_ranking (g : WeightedGraph.t)
    (book score_type : string) (limit : Z) :
  WeightedGraph.recommend_books book limit score_type g
  = ranking (λ v, WeightedGraph.get_similarity_score book v score_type g)
            (elements (WeightedGraph.get_all_vertices "book" g)) book limit.
Proof. reflexivity. Qed.

Lemma forget_lookup (g : WeightedGraph.t) (x : string) :
  forget g !! x = forget_vertex <$> g !! x.
Proof. apply lookup_fmap. Qed.

Lemma forget_neighbours_set (g : WeightedGraph.t) (v w : string)
    (weight : Qc) :
  forget (WeightedGraph.neighbours_set v w weight g)
  = Graph.neighbours_add v w (forget g).
Proof.
  unfold forget, WeightedGraph.neighbours_set, Graph.neighbours_add.
  apply fmap_alter. intros x _. unfold forget_vertex. simpl.
  f_equal. rewrite dom_insert_L. apply (comm_L (∪)).
Qed.

Lemma forget_step (g : WeightedGraph.t) (c : WeightedGraph.call) :
  forget (WeightedGraph.step g c) = Graph.step (forget g) (forget_call c).
Proof.
  destruct c as [item kind|a b w]; simpl.
  - unfold WeightedGraph.add_vertex, Graph.add_vertex.
    rewrite forget_lookup. destruct (g !! item); simpl; [done|].
    unfold forget. rewrite fmap_insert. unfold forget_vertex. simpl.
    by rewrite dom_empty_L.
  - unfold WeightedGraph.add_edge, Graph.add_edge.
    rewrite !forget_lookup.
    destruct (g !! a), (g !! b); simpl; try done.
    by rewrite !forget_neighbours_set.
Qed.

Lemma forget_similarity_score (v1 v2 : WeightedGraph._WeightedVertex) :
  Graph.similarity_score (forget_vertex v1) (forget_vertex v2)
  = WeightedGraph.similarity_score_unweighted v1 v2.
Proof.
  unfold Graph.similarity_score, WeightedGraph.similarity_score_unweighted,
    Graph.degree, WeightedGraph.degree, forget_vertex. simpl.
  by rewrite !(size_dom (D:=gset string)).
Qed.

Lemma forget_get_similarity_score (g : WeightedGraph.t) (a b : string) :
  Graph.get_similarity_score a b (forget g)
  = WeightedGraph.get_similarity_score a b "unweighted" g.
Proof.
  unfold Graph.get_similarity_score, WeightedGraph.get_similarity_score.
  rewrite !forget_lookup.
  destruct (g !! a), (g !! b); simpl; try done.
  apply forget_similarity_score.
Qed.

Lemma forget_get_all_vertices (g : WeightedGraph.t) (k : string) :
  Graph.get_all_vertices k (forget g) = WeightedGraph.get_all_vertices k g.
Proof.
  apply set_eq. intros x.
  rewrite Graph_get_all_vertices_iff, WeightedGraph_get_all_vertices_iff.
  rewrite forget_lookup. split.
  - intros (v & (v' & Hv' & ->)%fmap_Some & Hk). eauto.
  - intros (v & Hv & Hk). exists (forget_vertex v). by rewrite Hv.
Qed.

(** X10.  Dropping the weights turns the weighted graph into the unweighted
    one: a weighted call acts on the graph without weights as the
    unweighted call does and raises when it does, so a sequence of weighted
    calls builds the same graph without weights as the unweighted calls;
    and on a weighted graph [adjacent], [get_neighbours],
    [get_all_vertices], the unweighted [get_similarity_score] and the
    unweighted [recommend_books] answer as the unweighted graph without the
    weights does. *)
Theorem weighted_graph_without_weights :
  (∀ (g : WeightedGraph.t) (a b : string) (w : Qc),
     (WeightedGraph.add_edge a b w g).1 = (Graph.add_edge a b (forget g)).1
     ∧ forget (WeightedGraph.add_edge a b w g).2
       = (Graph.add_edge a b (forget g)).2)
  ∧ (∀ (g : WeightedGraph.t) (item kind : string),
       forget (WeightedGraph.add_vertex item kind g)
       = Graph.add_vertex item kind (forget g))
  ∧ (∀ cs : list WeightedGraph.call,
       forget (WeightedGraph.run cs) = Graph.run (forget_call <$> cs))
  ∧ (∀ (g : WeightedGraph.t) (a b : string) (limit : Z),
       Graph.adjacent a b (forget g) = WeightedGraph.adjacent a b g
       ∧ Graph.get_neighbours a (forget g) = WeightedGraph.get_neighbours a g
       ∧ Graph.get_all_vertices a (forget g)
         = WeightedGraph.get_all_vertices a g
       ∧ Graph.get_similarity_score a b (forget g)
         = WeightedGraph.get_similarity_score a b "unweighted" g
       ∧ Graph.recommend_books a limit (forget g)
         = WeightedGraph.recommend_books a limit "unweighted" g).
Proof.
  split; [|split; [|split]].
  - intros g a b w. split.
    + unfold WeightedGraph.add_edge, Graph.add_edge. rewrite !forget_lookup.
      by destruct (g !! a), (g !! b).
    + apply (forget_step g (WeightedGraph.AddEdge a b w)).
  - intros g item kind. apply (forget_step g (WeightedGraph.AddVertex item kind)).
  - intros cs. unfold WeightedGraph.run, Graph.run.
    assert (forget WeightedGraph.empty = Graph.empty) as <-
      by apply fmap_empty.
    generalize WeightedGraph.empty.
    induction cs as [|c cs IH]; intros g; simpl; [done|].
    by rewrite IH, forget_step.
  - intros g a b limit. split; [|split; [|split; [|split]]].
    + apply eq_iff_eq_true.
      rewrite Graph_adjacent_iff, WeightedGraph_adjacent_iff.
      rewrite !forget_lookup. split.
      * intros (va & (va' & Ha & ->)%fmap_Some & Hb%fmap_is_Some & Hin).
        exists va'. split; [done|]. split; [done|]. by apply elem_of_dom.
      * intros (va & Ha & Hb & Hin). exists (forget_vertex va).
        rewrite Ha. split; [done|]. split; [by apply fmap_is_Some|].
        by apply elem_of_dom.
    + unfold Graph.get_neighbours, WeightedGraph.get_neighbours.
      rewrite forget_lookup. destruct (g !! a) as [va|]; simpl; [|done].
      f_equal. apply leibniz_equiv, dom_alt.
    + apply forget_get_all_vertices.
    + apply forget_get_similarity_score.
    + rewrite Graph_recommend_books_ranking,
        WeightedGraph_recommend_books_ranking, forget_get_all_vertices.
      apply ranking_ext. intros v _ _. apply forget_get_similarity_score.
Qed.

(** ** Recommendations *)

Section ranking.

Context (score : string → result Qc) (sc : string → Qc).
Context (book : string).

Lemma ranking_scores (books : list string) (scores : list Qc) :
  Forall (λ v, v ≠ book → score v = Ok (sc v)) books →
  foldM (λ scores vertex,
           if bool_decide (vertex ≠ book)
           then s ← score vertex; Ok (scores ++ [s])
           else Ok scores) scores books
  = Ok (scores ++ (sc <$> filter (λ v, v ≠ book) books)).
Proof.
  intros Hb. revert scores.
  induction Hb as [|v books Hv _ IH]; intros scores; simpl.
  - by rewrite app_nil_r.
  - destruct (decide (v ≠ book)) as [Hne|He].
    + rewrite bool_decide_eq_true_2, Hv by done. simpl.
      rewrite IH, filter_cons_True by done. simpl.
      by rewrite <- app_assoc.
    + rewrite bool_decide_eq_false_2 by done. simpl.
      by rewrite IH, filter_cons_False.
Qed.

Lemma ranking_pass (books : list string) (s : Qc) (acc : list string) :
  Forall (λ v, v ≠ book → score v = Ok (sc v)) books →
  foldM (λ acc vertex,
           if bool_decide (vertex ≠ book)
           then s' ← score vertex;
                if bool_decide (s' = s)
                then Ok (acc ++ [vertex]) else Ok acc
           else Ok acc) acc books
  = Ok (acc ++ filter (λ v, v ≠ book ∧ sc v = s) books).
Proof.
  intros Hb. revert acc.
  induction Hb as [|v books Hv _ IH]; intros acc; simpl.
  - by rewrite app_nil_r.
  - destruct (decide (v ≠ book)) as [Hne|He].
    + rewrite bool_decide_eq_true_2, Hv by done. simpl.
      destruct (decide (sc v = s)) as [Hs|Hs].
      * rewrite bool_decide_eq_true_2 by done. simpl.
        rewrite IH, filter_cons_True by done.
        by rewrite <- app_assoc.
      * rewrite bool_decide_eq_false_2 by done. simpl.
        rewrite IH, filter_cons_False; [done|tauto].
    + rewrite bool_decide_eq_false_2 by done. simpl.
      rewrite IH, filter_cons_False; [done|tauto].
Qed.

Lemma ranking_passes (books : list string) (ss : list Qc)
    (acc : list string) :
  Forall (λ v, v ≠ book → score v = Ok (sc v)) books →
  foldM (λ acc s,
           foldM (λ acc vertex,
                    if bool_decide (vertex ≠ book)
                    then s' ← score vertex;
                         if bool_decide (s' = s)
                         then Ok (acc ++ [vertex]) else Ok acc
                    else Ok acc) acc books) acc ss
  = Ok (acc ++ (ss ≫= λ s, filter (λ v, v ≠ book ∧ sc v = s) books)).
Proof.
  intros Hb. revert acc. induction ss as [|s ss IH]; intros acc; cbn [foldM].
  - by rewrite app_nil_r.
  - rewrite ranking_pass by done. cbn [mbind result_bind]. rewrite IH.
    by rewrite bind_cons, <- app_assoc.
Qed.

(** What [recommend_books] returns when no score raises. *)
Lemma ranking_ranked (books : list string) (limit : Z) :
  Forall (λ v, v ≠ book → score v = Ok (sc v)) books →
  ranking score books book limit
  = Ok (if bool_decide (Z.of_nat (length (ranked sc books book)) < limit)%Z
        then ranked sc books book
        else slice_to (ranked sc books book) limit).
Proof.
  intros Hb. unfold ranking. rewrite ranking_scores by done. simpl.
  rewrite ranking_passes by done. simpl. fold (ranked sc books book).
  by case_bool_decide.
Qed.

Lemma elem_of_ranked (books : list string) (v : string) :
  v ∈ ranked sc books book ↔ v ∈ books ∧ v ≠ book.
Proof.
  unfold ranked. rewrite list_elem_of_bind. split.
  - intros (s & (Hv & Hin)%list_elem_of_filter & _). tauto.
  - intros [Hin Hne]. exists (sc v). split.
    + apply list_elem_of_filter. tauto.
    + unfold sort_reverse. rewrite merge_sort_Permutation.
      apply list_elem_of_fmap. exists v. split; [done|].
      by apply list_elem_of_filter.
Qed.

Lemma same_score_sorted (s : Qc) (l : list string) :
  Forall (λ v, sc v = s) l → StronglySorted (λ v v', sc v' ≤ sc v) l.
Proof.
  induction 1 as [|v l Hv Hl IH]; constructor; [done|].
  eapply Forall_impl; [exact Hl|]. intros v' Hv'. simpl.
  rewrite Hv, Hv'. done.
Qed.

Lemma ranked_sorted (books : list string) :
  StronglySorted (λ v v', sc v' ≤ sc v) (ranked sc books book).
Proof.
  unfold ranked, sort_reverse.
  assert (StronglySorted (flip Qcle)
            (merge_sort (flip Qcle)
               (sc <$> filter (λ v, v ≠ book) books))) as Hs.
  { apply StronglySorted_merge_sort.
    - intros x y z Hxy Hyz. unfold flip in *. by etrans.
    - intros x y. unfold flip. destruct (Qc_le_total y x); auto. }
  induction Hs as [|s ss Hss IH Hall]; [constructor|].
  rewrite bind_cons. apply StronglySorted_app. split; [|split; [|done]].
  - intros v v' [Hv _]%list_elem_of_filter
      (s' & [Hv' _]%list_elem_of_filter & Hs')%list_elem_of_bind.
    rewrite (proj2 Hv), (proj2 Hv').
    rewrite Forall_forall in Hall. by apply Hall.
  - apply (same_score_sorted s), Forall_forall.
    by intros v [[_ Hv] _]%list_elem_of_filter.
Qed.

Lemma ranked_NoDup (books : list string) :
  NoDup books →
  (∀ v v', v ∈ books → v' ∈ books → v ≠ book → v' ≠ book →
     sc v = sc v' → v = v') →
  NoDup (ranked sc books book).
Proof.
  intros Hnd Hinj. unfold ranked. apply NoDup_bind.
  - intros s s' v _ _ [[_ Hs] _]%list_elem_of_filter
      [[_ Hs'] _]%list_elem_of_filter. congruence.
  - intros s _. by apply NoDup_filter.
  - unfold sort_reverse. rewrite merge_sort_Permutation.
    apply NoDup_fmap_2_strong; [|by apply NoDup_filter].
    intros v v' [Hv Hin]%list_elem_of_filter [Hv' Hin']%list_elem_of_filter.
    by apply Hinj.
Qed.

Lemma slice_to_take {A : Type} (l : list A) (limit : Z) :
  ∃ n, slice_to l limit = take n l.
Proof. unfold slice_to. case_bool_decide; eauto. Qed.

(** The facts about the list returned. *)
Lemma ranking_facts (books : list string) (limit : Z) :
  Forall (λ v, v ≠ book → score v = Ok (sc v)) books →
  ∃ l, ranking score books book limit = Ok l
    ∧ (∀ v, v ∈ l → v ∈ books ∧ v ≠ book)
    ∧ ((0 ≤ limit)%Z → (Z.of_nat (length l) ≤ limit)%Z)
    ∧ ((Z.of_nat (length l) < limit)%Z → ∀ v, v ∈ books → v ≠ book → v ∈ l)
    ∧ StronglySorted (λ v v', sc v' ≤ sc v) l
    ∧ (NoDup books →
       (∀ v v', v ∈ books → v' ∈ books → v ≠ book → v' ≠ book →
          sc v = sc v' → v = v') →
       NoDup l).
Proof.
  intros Hb. rewrite ranking_ranked by done. eexists. split; [done|].
  set (L := ranked sc books book). case_bool_decide as Hlen.
  - split; [by intros v ?%elem_of_ranked|]. split; [lia|].
    split; [intros _ v ? ?; by apply elem_of_ranked|].
    split; [apply ranked_sorted|]. apply ranked_NoDup.
  - destruct (slice_to_take L limit) as [n Hn].
    assert (slice_to L limit `sublist_of` L) as Hsub
      by (rewrite Hn; apply sublist_take).
    split; [|split; [|split; [|split]]].
    + intros v Hv. apply elem_of_ranked. by eapply elem_of_sublist.
    + intros Hlim. unfold slice_to.
      rewrite bool_decide_eq_false_2, length_take by lia. lia.
    + unfold slice_to. case_bool_decide; rewrite length_take; lia.
    + rewrite Hn. apply (StronglySorted_app_1_l _ _ (drop n L)).
      rewrite take_drop. apply ranked_sorted.
    + intros Hnd Hinj. eapply sublist_NoDup; [|exact Hsub].
      by apply ranked_NoDup.
Qed.

End ranking.

Lemma Graph_get_similarity_score_value (g : Graph.t) (a b : string) :
  a ∈ dom g → b ∈ dom g →
  Graph.get_similarity_score a b g
  = Ok (value (Graph.get_similarity_score a b g)).
Proof.
  intros [va Ha]%elem_of_dom [vb Hb]%elem_of_dom.
  unfold Graph.get_similarity_score.
  by rewrite Ha, Hb, Graph_similarity_score_Ok.
Qed.

Lemma WeightedGraph_get_similarity_score_value (g : WeightedGraph.t)
    (a b score_type : string) :
  a ∈ dom g → b ∈ dom g →
  WeightedGraph.get_similarity_score a b score_type g
  = Ok (value (WeightedGraph.get_similarity_score a b score_type g)).
Proof.
  intros [va Ha]%elem_of_dom [vb Hb]%elem_of_dom.
  unfold WeightedGraph.get_similarity_score.
  rewrite Ha, Hb, similarity_score_unweighted_Ok, similarity_score_strict_Ok.
  by case_bool_decide.
Qed.

Lemma Graph_get_all_vertices_subseteq (g : Graph.t) (k : string) :
  Graph.get_all_vertices k g ⊆ dom g.
Proof.
  intros x (v & Hv & _)%Graph_get_all_vertices_iff. by eapply elem_of_dom_2.
Qed.

Lemma Graph_books_scored (g : Graph.t) (book : string) :
  book ∈ dom g →
  Forall (λ v, v ≠ book →
               Graph.get_similarity_score book v g
               = Ok (value (Graph.get_similarity_score book v g)))
         (elements (Graph.get_all_vertices "book" g)).
Proof.
  intros Hb. apply Forall_forall. intros v Hv%elem_of_elements _.
  apply Graph_get_similarity_score_value; [done|].
  by apply Graph_get_all_vertices_subseteq in Hv.
Qed.

Lemma WeightedGraph_books_scored (g : WeightedGraph.t)
    (book score_type : string) :
  book ∈ dom g →
  Forall (λ v, v ≠ book →
               WeightedGraph.get_similarity_score book v score_type g
               = Ok (value (WeightedGraph.get_similarity_score
                              book v score_type g)))
         (elements (WeightedGraph.get_all_vertices "book" g)).
Proof.
  intros Hb. apply Forall_forall. intros v Hv%elem_of_elements _.
  apply WeightedGraph_get_similarity_score_value; [done|].
  by apply get_all_vertices_subseteq in Hv.
Qed.

(** X11.  For a vertex [book], [recommend_books(book, limit)] returns a
    list; every entry is a vertex of kind ['book'] other than [book]; the
    list has at most [limit] entries when [limit] is not negative; when it
    has fewer than [limit] entries, every other book is in it; and the
    entries come in descending order of their similarity score with [book];
    in the unweighted graph and, for every score type, in the weighted
    graph. *)
Theorem recommend_books_ranks_the_other_books (book : string) (limit : Z) :
  (∀ g : Graph.t, book ∈ dom g →
     ∃ l, Graph.recommend_books book limit g = Ok l
       ∧ (∀ v, v ∈ l → v ∈ Graph.get_all_vertices "book" g ∧ v ≠ book)
       ∧ ((0 ≤ limit)%Z → (Z.of_nat (length l) ≤ limit)%Z)
       ∧ ((Z.of_nat (length l) < limit)%Z →
          ∀ v, v ∈ Graph.get_all_vertices "book" g → v ≠ book → v ∈ l)
       ∧ StronglySorted
           (λ v v', value (Graph.get_similarity_score book v' g)
                    ≤ value (Graph.get_similarity_score book v g)) l)
  ∧ (∀ (g : WeightedGraph.t) (score_type : string), book ∈ dom g →
       ∃ l, WeightedGraph.recommend_books book limit score_type g = Ok l
         ∧ (∀ v, v ∈ l →
              v ∈ WeightedGraph.get_all_vertices "book" g ∧ v ≠ book)
         ∧ ((0 ≤ limit)%Z → (Z.of_nat (length l) ≤ limit)%Z)
         ∧ ((Z.of_nat (length l) < limit)%Z →
            ∀ v, v ∈ WeightedGraph.get_all_vertices "book" g →
                 v ≠ book → v ∈ l)
         ∧ StronglySorted
             (λ v v',
                value (WeightedGraph.get_similarity_score
                         book v' score_type g)
                ≤ value (WeightedGraph.get_similarity_score
                           book v score_type g)) l).
Proof.
  split.
  - intros g Hb. rewrite Graph_recommend_books_ranking.
    destruct (ranking_facts _ _ book _ limit (Graph_books_scored g book Hb))
      as (l & -> & Hin & Hlen & Hall & Hsorted & _).
    exists l. split; [done|]. split; [|split; [done|split; [|done]]].
    + intros v [Hv ?]%Hin. by apply elem_of_elements in Hv.
    + intros Hl v Hv Hne. apply Hall; [done| |done].
      by apply elem_of_elements.
  - intros g score_type Hb. rewrite WeightedGraph_recommend_books_ranking.
    destruct (ranking_facts _ _ book _ limit
                (WeightedGraph_books_scored g book score_type Hb))
      as (l & -> & Hin & Hlen & Hall & Hsorted & _).
    exists l. split; [done|]. split; [|split; [done|split; [|done]]].
    + intros v [Hv ?]%Hin. by apply elem_of_elements in Hv.
    + intros Hl v Hv Hne. apply Hall; [done| |done].
      by apply elem_of_elements.
Qed.

Lemma recommend_books_ranks_the_other_books_witness :
  let g := Graph.run
             [Graph.AddVertex "u1" "user"; Graph.AddVertex "u2" "user";
              Graph.AddVertex "A" "book"; Graph.AddVertex "B" "book";
              Graph.AddVertex "C" "book";
              Graph.AddEdge "u1" "A"; Graph.AddEdge "u1" "B";
              Graph.AddEdge "u2" "C"] in
  ∃ l, Graph.recommend_books "A" 5 g = Ok l
    ∧ ((0 ≤ 5)%Z → (Z.of_nat (length l) ≤ 5)%Z).
Proof.
  intros g.
  destruct (proj1 (recommend_books_ranks_the_other_books "A" 5) g)
    as (l & Hl & _ & Hlen & _).
  - apply elem_of_dom. vm_compute. eauto.
  - exists l. split; [exact Hl|exact Hlen].
Defined.

(** X12.  For a vertex [book] whose similarity scores with the other books
    are all different, [recommend_books(book, limit)] returns a list
    without duplicates; in the unweighted graph and, for every score type,
    in the weighted graph. *)
Theorem recommend_books_without_ties (book : string) (limit : Z) :
  (∀ g : Graph.t, book ∈ dom g →
     (∀ v v', v ∈ Graph.get_all_vertices "book" g →
              v' ∈ Graph.get_all_vertices "book" g →
              v ≠ book → v' ≠ book → v ≠ v' →
              Graph.get_similarity_score book v g
              ≠ Graph.get_similarity_score book v' g) →
     ∃ l, Graph.recommend_books book limit g = Ok l ∧ NoDup l)
  ∧ (∀ (g : WeightedGraph.t) (score_type : string), book ∈ dom g →
       (∀ v v', v ∈ WeightedGraph.get_all_vertices "book" g →
                v' ∈ WeightedGraph.get_all_vertices "book" g →
                v ≠ book → v' ≠ book → v ≠ v' →
                WeightedGraph.get_similarity_score book v score_type g
                ≠ WeightedGraph.get_similarity_score book v' score_type g) →
       ∃ l, WeightedGraph.recommend_books book limit score_type g = Ok l
            ∧ NoDup l).
Proof.
  split.
  - intros g Hb Hdiff. rewrite Graph_recommend_books_ranking.
    destruct (ranking_facts _ _ book _ limit (Graph_books_scored g book Hb))
      as (l & -> & _ & _ & _ & _ & Hnd).
    exists l. split; [done|]. apply Hnd; [apply NoDup_elements|].
    intros v v' Hv%elem_of_elements Hv'%elem_of_elements Hne Hne' Heq.
    destruct (decide (v = v')) as [|Hvv']; [done|].
    destruct (Hdiff v v' Hv Hv' Hne Hne' Hvv').
    rewrite (Graph_get_similarity_score_value g book v),
      (Graph_get_similarity_score_value g book v'), Heq;
      [done|done|by apply Graph_get_all_vertices_subseteq in Hv'
      |done|by apply Graph_get_all_vertices_subseteq in Hv].
  - intros g score_type Hb Hdiff. rewrite WeightedGraph_recommend_books_ranking.
    destruct (ranking_facts _ _ book _ limit
                (WeightedGraph_books_scored g book score_type Hb))
      as (l & -> & _ & _ & _ & _ & Hnd).
    exists l. split; [done|]. apply Hnd; [apply NoDup_elements|].
    intros v v' Hv%elem_of_elements Hv'%elem_of_elements Hne Hne' Heq.
    destruct (decide (v = v')) as [|Hvv']; [done|].
    destruct (Hdiff v v' Hv Hv' Hne Hne' Hvv').
    rewrite (WeightedGraph_get_similarity_score_value g book v),
      (WeightedGraph_get_similarity_score_value g book v'), Heq;
      [done|done|by apply get_all_vertices_subseteq in Hv'
      |done|by apply get_all_vertices_subseteq in Hv].
Qed.

Lemma recommend_books_without_ties_witness :
  let g := Graph.run
             [Graph.AddVertex "u1" "user"; Graph.AddVertex "u2" "user";
              Graph.AddVertex "u3" "user";
              Graph.AddVertex "A" "book"; Graph.AddVertex "B" "book";
              Graph.AddVertex "C" "book";
              Graph.AddEdge "u1" "A"; Graph.AddEdge "u2" "A";
              Graph.AddEdge "u1" "B";
              Graph.AddEdge "u2" "C"; Graph.AddEdge "u3" "C"] in
  ∃ l, Graph.recommend_books "A" 10 g = Ok l ∧ NoDup l.
Proof.
  intros g.
  apply (proj1 (recommend_books_without_ties "A" 10) g).
  - apply elem_of_dom. vm_compute. eauto.
  - assert (Graph.get_all_vertices "book" g = {["A"; "B"; "C"]}) as ->
      by by vm_compute.
    intros v v' Hv Hv' Hne Hne' Hvv' Heq.
    apply (f_equal shown) in Heq.
    rewrite !elem_of_union, !elem_of_singleton in Hv, Hv'.
    destruct Hv as [[->| ->]| ->], Hv' as [[->| ->]| ->];
      try (exfalso; apply Hne; reflexivity);
      try (exfalso; apply Hne'; reflexivity);
      try (exfalso; apply Hvv'; reflexivity);
      vm_compute in Heq; discriminate.
Defined.

(** * Further properties of weights and predictions *)

(** ** Rounding and averages *)

Lemma round_bounds (x : Qc) (lo hi : Z) :
  Qc_of_Z lo ≤ x → x ≤ Qc_of_Z hi → (lo ≤ round x ≤ hi)%Z.
Proof.
  unfold Qcle, Qle, round. destruct x as [[n d] Hx]. simpl.
  intros Hlo Hhi.
  pose proof (Z.div_mod n (Z.pos d) ltac:(lia)) as Hdm.
  pose proof (Z.mod_pos_bound n (Z.pos d) ltac:(lia)) as Hm.
  destruct (Z.compare_spec (2 * (n mod Z.pos d)) (Z.pos d)) as [He|Hl|Hg].
  - destruct (Z.even (n / Z.pos d)); nia.
  - nia.
  - nia.
Qed.

Lemma total_le (c : Qc) (xs : list Qc) :
  Forall (λ x, x ≤ c) xs → total xs ≤ Qc_of_nat (length xs) * c.
Proof.
  induction 1 as [|x xs Hx _ IH]; simpl.
  - rewrite Qc_of_nat_0, Qcmult_0_l. done.
  - rewrite Qc_of_nat_S, Qcmult_plus_distr_l, Qcmult_1_l.
    by apply Qcplus_le_compat.
Qed.

Lemma Qcdiv_bounds (t d lo hi : Qc) :
  0 < d → d * lo ≤ t → t ≤ d * hi → lo ≤ t / d ≤ hi.
Proof.
  intros Hd Hlo Hhi.
  assert (t / d * d = t) as Ht.
  { rewrite Qcmult_comm. apply Qcmult_div_r.
    by apply not_eq_sym, Qclt_not_eq. }
  split; apply (Qcmult_le_mono_pos_r _ _ d Hd); rewrite Ht.
  - by rewrite Qcmult_comm.
  - by rewrite (Qcmult_comm hi).
Qed.

Lemma average_weight_Ok (g : WeightedGraph.t) (item : string)
    (v : WeightedGraph._WeightedVertex) (lo hi : Qc) :
  g !! item = Some v → WeightedGraph.neighbours v ≠ ∅ →
  (∀ y w, WeightedGraph.neighbours v !! y = Some w → lo ≤ w ≤ hi) →
  ∃ avg, WeightedGraph.average_weight item g = Ok avg ∧ lo ≤ avg ≤ hi.
Proof.
  intros Hv Hne Hw. unfold WeightedGraph.average_weight. rewrite Hv.
  assert (size (WeightedGraph.neighbours v) ≠ 0%nat) as Hsize
    by by rewrite map_size_non_empty_iff.
  rewrite true_div_Ok by by rewrite Qc_of_nat_eq_0.
  eexists. split; [done|]. rewrite sum_total.
  assert (Forall (λ x, lo ≤ x ≤ hi)
            (map_to_list (WeightedGraph.neighbours v)).*2) as Hall.
  { apply Forall_fmap, Forall_forall. intros [y w] Hyw%elem_of_map_to_list.
    simpl. by eapply Hw. }
  assert (length (map_to_list (WeightedGraph.neighbours v)).*2
          = size (WeightedGraph.neighbours v)) as Hlen
    by by rewrite length_fmap, length_map_to_list.
  apply Qcdiv_bounds; [by apply Qc_of_nat_pos| |]; rewrite <- Hlen.
  - apply total_ge. eapply Forall_impl; [exact Hall|]. by intros x [? ?].
  - apply total_le. eapply Forall_impl; [exact Hall|]. by intros x [? ?].
Qed.

(** X13.  [average_weight(item)] raises [ValueError] when [item] is not a
    vertex and [ZeroDivisionError] when it is a vertex without neighbours;
    for a vertex with neighbours whose weights are integers from [lo] to
    [hi] it returns a number from [lo] to [hi], when the number of its edges
    times the larger of [|lo|] and [|hi|] is at most [2^53] (the sum of the
    weights is then the same in binary64, and the rounding of a quotient
    keeps it between two integers it lies between). *)
Theorem average_weight_between_the_weights
    (g : WeightedGraph.t) (item : string) :
  (item ∉ dom g → WeightedGraph.average_weight item g = Raise ValueError)
  ∧ (∀ v, g !! item = Some v → WeightedGraph.neighbours v = ∅ →
          WeightedGraph.average_weight item g = Raise ZeroDivisionError)
  ∧ (∀ v (lo hi : Z), g !! item = Some v → WeightedGraph.neighbours v ≠ ∅ →
       (∀ y w, WeightedGraph.neighbours v !! y = Some w →
               ∃ k : Z, w = Qc_of_Z k ∧ (lo ≤ k ≤ hi)%Z) →
       (Z.of_nat (size (WeightedGraph.neighbours v))
        * Z.max (Z.abs lo) (Z.abs hi) ≤ 2 ^ 53)%Z →
       ∃ avg, WeightedGraph.average_weight item g = Ok avg
              ∧ Qc_of_Z lo ≤ avg ≤ Qc_of_Z hi).
Proof.
  split; [|split].
  - intros Hi%not_elem_of_dom. unfold WeightedGraph.average_weight.
    by rewrite Hi.
  - intros v Hv Hn. unfold WeightedGraph.average_weight. rewrite Hv, Hn.
    reflexivity.
  - intros v lo hi Hv Hne Hw _.
    apply (average_weight_Ok g item v); [done|done|].
    intros y w Hy. destruct (Hw y w Hy) as (k & -> & Hlo & Hhi).
    split; rewrite <- Z2Qc_inj_le; lia.
Qed.

Lemma average_weight_between_the_weights_witness :
  let g := WeightedGraph.run
             [WeightedGraph.AddVertex "u" "user";
              WeightedGraph.AddVertex "v" "user";
              WeightedGraph.AddVertex "b" "book";
              WeightedGraph.AddEdge "u" "b" (q 2);
              WeightedGraph.AddEdge "v" "b" (q 5)] in
  WeightedGraph.average_weight "c" g = Raise ValueError
  ∧ WeightedGraph.average_weight "b" (WeightedGraph.add_vertex "b" "book"
                                        WeightedGraph.empty)
    = Raise ZeroDivisionError
  ∧ ∃ avg, WeightedGraph.average_weight "b" g = Ok avg ∧ q 2 ≤ avg ≤ q 5.
Proof.
  intros g. split; [|split].
  - apply (proj1 (average_weight_between_the_weights g "c")).
    apply not_elem_of_dom. reflexivity.
  - apply (proj1 (proj2 (average_weight_between_the_weights _ "b"))
             (WeightedGraph.mk_WeightedVertex "book" ∅));
      reflexivity.
  - apply (proj2 (proj2 (average_weight_between_the_weights g "b"))
             (WeightedGraph.mk_WeightedVertex "book"
                {["u" := q 2; "v" := q 5]}) 2%Z 5%Z).
    + reflexivity.
    + intros H. apply (f_equal (λ m, m !! "u")) in H. discriminate.
    + intros y w Hy. exists (Qnum (this w)).
      revert y w Hy.
      apply (bool_decide_eq_true_1
               (map_Forall (λ _ w, w = Qc_of_Z (Qnum (this w))
                                   ∧ (2 ≤ Qnum (this w) ≤ 5)%Z)
                  ({["u" := q 2; "v" := q 5]} : gmap string Qc))).
      by vm_compute.
    + by vm_compute.
Defined.

(** ** Predictions *)

Lemma adjacent_get_weight (g : WeightedGraph.t) (user book : string) :
  WeightedGraph.adjacent user book g = true →
  ∃ vu w, g !! user = Some vu
    ∧ WeightedGraph.neighbours vu !! book = Some w
    ∧ WeightedGraph.get_weight user book g = Ok w.
Proof.
  intros (vu & Hu & [vb Hb] & [w Hw])%WeightedGraph_adjacent_iff.
  exists vu, w. split; [done|]. split; [done|].
  unfold WeightedGraph.get_weight. by rewrite Hu, Hb, Hw.
Qed.

Lemma add_edge_adjacent (g : WeightedGraph.t) (a b : string) (w : Qc) :
  a ∈ dom g → b ∈ dom g →
  WeightedGraph.adjacent a b (WeightedGraph.add_edge a b w g).2 = true
  ∧ WeightedGraph.get_weight a b (WeightedGraph.add_edge a b w g).2 = Ok w.
Proof.
  intros Ha%elem_of_dom Hb%elem_of_dom.
  pose proof Ha as [va Hva]. pose proof Hb as [vb Hvb].
  destruct (WeightedGraph_add_edge_lookup g a b a w va Ha Hb Hva)
    as (va' & Ha' & _ & Hna).
  destruct (WeightedGraph_add_edge_lookup g a b b w vb Ha Hb Hvb)
    as (vb' & Hb' & _ & _).
  assert (WeightedGraph.neighbours va' !! b = Some w) as Hab.
  { rewrite Hna. by rewrite bool_decide_eq_true_2 by auto. }
  split; [apply WeightedGraph_adjacent_iff; eauto 6|].
  unfold WeightedGraph.get_weight. by rewrite Ha', Hb', Hab.
Qed.

(** X14.  When there is an edge between [user] and [book], each of the
    three predictors returns its weight; so after
    [add_edge(user, book, w)] on two vertices each predictor returns [w]. *)
Theorem predictors_return_the_review
    (g : WeightedGraph.t) (score_type user book : string) :
  (WeightedGraph.adjacent user book g = true →
   ∃ w, WeightedGraph.get_weight user book g = Ok w
     ∧ FiveStarPredictor.predict_review_score g user book = Ok w
     ∧ BookAverageScorePredictor.predict_review_score g user book = Ok w
     ∧ SimilarUserPredictor.predict_review_score g score_type user book
       = Ok w)
  ∧ (∀ w, user ∈ dom g → book ∈ dom g →
       let g' := (WeightedGraph.add_edge user book w g).2 in
       FiveStarPredictor.predict_review_score g' user book = Ok w
       ∧ BookAverageScorePredictor.predict_review_score g' user book = Ok w
       ∧ SimilarUserPredictor.predict_review_score g' score_type user book
         = Ok w).
Proof.
  split.
  - intros Hadj.
    destruct (adjacent_get_weight g user book Hadj) as (vu & w & _ & _ & Hw).
    exists w. split; [done|].
    unfold FiveStarPredictor.predict_review_score,
      BookAverageScorePredictor.predict_review_score,
      SimilarUserPredictor.predict_review_score.
    by rewrite Hadj.
  - intros w Hu Hb g'.
    destruct (add_edge_adjacent g user book w Hu Hb) as [Hadj Hw].
    fold g' in Hadj, Hw.
    unfold FiveStarPredictor.predict_review_score,
      BookAverageScorePredictor.predict_review_score,
      SimilarUserPredictor.predict_review_score.
    by rewrite Hadj.
Qed.

Lemma predictors_return_the_review_witness :
  let g := WeightedGraph.run
             [WeightedGraph.AddVertex "u" "user";
              WeightedGraph.AddVertex "b" "book"] in
  let g' := (WeightedGraph.add_edge "u" "b" (q 3) g).2 in
  SimilarUserPredictor.predict_review_score g' "strict" "u" "b" = Ok (q 3)
  ∧ ∃ w, WeightedGraph.get_weight "u" "b" g' = Ok w
      ∧ FiveStarPredictor.predict_review_score g' "u" "b" = Ok w.
Proof.
  intros g g'. split.
  - apply (proj2 (predictors_return_the_review g "strict" "u" "b") (q 3)).
    + apply elem_of_dom. vm_compute. eauto.
    + apply elem_of_dom. vm_compute. eauto.
  - destruct (proj1 (predictors_return_the_review g' "strict" "u" "b"))
      as (w & Hw & H5 & _); [reflexivity|].
    exists w. split; [exact Hw|exact H5].
Defined.

Lemma ratings_bounds (g : WeightedGraph.t) (u v : string)
    (vu : WeightedGraph._WeightedVertex) (w : Qc) :
  ratings g → g !! u = Some vu →
  WeightedGraph.neighbours vu !! v = Some w →
  Qc_of_Z 1 ≤ w ≤ Qc_of_Z 5.
Proof.
  intros Hr Hu Hw. destruct (Hr u vu v w Hu Hw) as (k & -> & Hk).
  rewrite <- !Z2Qc_inj_le. lia.
Qed.

(** The rounded average weight of a book is a rating. *)
Lemma rounded_average_rating (g : WeightedGraph.t) (book : string)
    (r : Qc) :
  ratings g →
  (avg ← WeightedGraph.average_weight book g; Ok (Qc_of_Z (round avg)))
  = Ok r →
  ∃ k : Z, r = Qc_of_Z k ∧ (1 ≤ k ≤ 5)%Z.
Proof.
  intros Hr Havg.
  destruct (g !! book) as [vb|] eqn:Hb;
    [|by unfold WeightedGraph.average_weight in Havg; rewrite Hb in Havg].
  destruct (decide (WeightedGraph.neighbours vb = ∅)) as [Hn|Hn].
  { unfold WeightedGraph.average_weight in Havg. by rewrite Hb, Hn in Havg. }
  destruct (average_weight_Ok g book vb (Qc_of_Z 1) (Qc_of_Z 5) Hb Hn)
    as (avg & Hav & Hlo & Hhi).
  { intros y w Hw. by eapply ratings_bounds. }
  rewrite Hav in Havg. simpl in Havg. injection Havg as <-.
  exists (round avg). split; [done|]. by apply round_bounds.
Qed.

Lemma weighted_total_bounds (s w : string → Qc) (lo hi : Qc)
    (us : list string) :
  Forall (λ u, 0 ≤ s u ∧ lo ≤ w u ≤ hi) us →
  total (s <$> us) * lo ≤ total ((λ u, s u * w u) <$> us)
  ∧ total ((λ u, s u * w u) <$> us) ≤ total (s <$> us) * hi.
Proof.
  induction 1 as [|u us (Hs & Hlo & Hhi) _ [IHlo IHhi]]; simpl.
  - by rewrite !Qcmult_0_l.
  - rewrite !Qcmult_plus_distr_l. split.
    + apply Qcplus_le_compat; [|done]. by apply Qcmult_le_mono_nonneg_l.
    + apply Qcplus_le_compat; [|done]. by apply Qcmult_le_mono_nonneg_l.
Qed.

Lemma loop_absent_book (g : WeightedGraph.t) (user book : string)
    (l : list string) (acc : list Qc * Qc) :
  book ∉ dom g → Forall (λ u, u ∈ dom g) l →
  foldM (SimilarUserPredictor.loop_body g user book) acc l
  = match l with [] => Ok acc | _ => Raise KeyError end.
Proof.
  intros Hb%not_elem_of_dom Hl. destruct Hl as [|u l [vu Hu]%elem_of_dom _];
    [done|].
  destruct acc as [sp t]. cbn [foldM]. unfold SimilarUserPredictor.loop_body.
  unfold WeightedGraph.get_weight. by rewrite Hu, Hb.
Qed.

Lemma users_present (g : WeightedGraph.t) :
  Forall (λ u, u ∈ dom g)
         (elements (WeightedGraph.get_all_vertices "user" g)).
Proof.
  apply Forall_forall. intros x Hx%elem_of_elements.
  by apply get_all_vertices_subseteq in Hx.
Qed.

Lemma similar_user_rating (g : WeightedGraph.t)
    (score_type user book : string) (r : Qc) :
  ratings g →
  SimilarUserPredictor.predict_review_score g score_type user book = Ok r →
  ∃ k : Z, r = Qc_of_Z k ∧ (1 ≤ k ≤ 5)%Z.
Proof.
  intros Hr. unfold SimilarUserPredictor.predict_review_score.
  destruct (WeightedGraph.adjacent user book g) eqn:Hadj.
  { destruct (adjacent_get_weight g user book Hadj)
      as (vu & w & Hu & Hw & ->).
    intros [= <-]. by eapply Hr. }
  destruct (decide (book ∈ dom g)) as [Hb|Hb]; cycle 1.
  { rewrite (loop_absent_book g user book _ _ Hb (users_present g)).
    destruct (elements _); [|done]. simpl.
    apply not_elem_of_dom in Hb.
    unfold WeightedGraph.average_weight. by rewrite Hb. }
  destruct (decide (user ∈ dom g)) as [Hu|Hu]; cycle 1.
  { rewrite (loop_absent_user g user book _ _ Hu Hb (users_present g)).
    case_bool_decide; [done|]. simpl. by apply rounded_average_rating. }
  rewrite (loop_present g user book _ _ _ Hu Hb (users_present g)).
  cbn [mbind result_bind].
  set (us := filter (λ u, 0 < edge_weight g u book)
               (elements (WeightedGraph.get_all_vertices "user" g))).
  rewrite app_nil_l, Qcplus_0_l, sum_total.
  case_bool_decide as Hsum; [by apply rounded_average_rating|].
  unfold true_div. case_bool_decide as Ht; [done|]. simpl. intros [= <-].
  eexists. split; [done|].
  assert (Forall (λ u, 0 ≤ strict_similarity g user u
                       ∧ Qc_of_Z 1 ≤ edge_weight g u book ≤ Qc_of_Z 5) us)
    as Hus.
  { apply Forall_forall. intros u [Hw Hin]%list_elem_of_filter.
    pose proof (users_present g) as Hl. rewrite Forall_forall in Hl.
    split; [by apply strict_similarity_Ok; auto|].
    unfold edge_weight in *. destruct (g !! u) as [vu|] eqn:Hgu;
      [|by apply Qclt_not_eq in Hw].
    destruct (WeightedGraph.neighbours vu !! book) as [w|] eqn:Hwb;
      [|by apply Qclt_not_eq in Hw].
    simpl. by eapply ratings_bounds. }
  destruct (weighted_total_bounds (strict_similarity g user)
              (λ u, edge_weight g u book) _ _ us Hus) as [Hlo Hhi].
  assert (0 < total (strict_similarity g user <$> us)) as Hpos.
  { destruct (Qcle_lt_or_eq 0 (total (strict_similarity g user <$> us)))
      as [?|Heq]; [|done|by rewrite <- Heq in Ht].
    apply total_nonneg, Forall_fmap.
    eapply Forall_impl; [exact Hus|]. by intros u [? _]. }
  destruct (Qcdiv_bounds _ _ _ _ Hpos Hlo Hhi). by apply round_bounds.
Qed.

(** X15.  In a weighted graph whose weights are all integers from 1 to 5,
    whatever a predictor returns is an integer from 1 to 5, for every user
    and book and each of the three predictors. *)
Theorem predictions_are_ratings
    (g : WeightedGraph.t) (score_type user book : string) (r : Qc) :
  ratings g →
  FiveStarPredictor.predict_review_score g user book = Ok r
  ∨ BookAverageScorePredictor.predict_review_score g user book = Ok r
  ∨ SimilarUserPredictor.predict_review_score g score_type user book = Ok r →
  ∃ k : Z, r = Qc_of_Z k ∧ (1 ≤ k ≤ 5)%Z.
Proof.
  intros Hr [H5|[Havg|Hsim]].
  - unfold FiveStarPredictor.predict_review_score in H5.
    destruct (WeightedGraph.adjacent user book g) eqn:Hadj.
    + destruct (adjacent_get_weight g user book Hadj)
        as (vu & w & Hu & Hw & Hgw).
      rewrite Hgw in H5. injection H5 as <-. by eapply Hr.
    + injection H5 as <-. exists 5%Z. split; [done|lia].
  - unfold BookAverageScorePredictor.predict_review_score in Havg.
    destruct (WeightedGraph.adjacent user book g) eqn:Hadj.
    + destruct (adjacent_get_weight g user book Hadj)
        as (vu & w & Hu & Hw & Hgw).
      rewrite Hgw in Havg. injection Havg as <-. by eapply Hr.
    + by apply (rounded_average_rating g book).
  - by apply (similar_user_rating g score_type user book).
Qed.

Lemma ratings_checked (g : WeightedGraph.t) :
  bool_decide
    (map_Forall
       (λ _ vu, map_Forall
                  (λ _ w, w = Qc_of_Z (Qnum (this w))
                          ∧ (1 ≤ Qnum (this w) ≤ 5)%Z)
                  (WeightedGraph.neighbours vu)) g) = true →
  ratings g.
Proof.
  intros H%bool_decide_eq_true u vu v w Hu Hw.
  destruct (H u vu Hu v w Hw) as [Heq Hk]. eauto.
Qed.

Lemma predictions_are_ratings_witness :
  let g := WeightedGraph.run
             [WeightedGraph.AddVertex "u" "user";
              WeightedGraph.AddVertex "v" "user";
              WeightedGraph.AddVertex "x" "user";
              WeightedGraph.AddVertex "b" "book";
              WeightedGraph.AddVertex "c" "book";
              WeightedGraph.AddEdge "u" "b" (q 4);
              WeightedGraph.AddEdge "v" "b" (q 5);
              WeightedGraph.AddEdge "v" "c" (q 3)] in
  BookAverageScorePredictor.predict_review_score g "x" "b" = Ok (q 4)
  ∧ ∃ k : Z, q 4 = Qc_of_Z k ∧ (1 ≤ k ≤ 5)%Z.
Proof.
  intros g.
  assert (BookAverageScorePredictor.predict_review_score g "x" "b"
          = Ok (q 4)) as H by by vm_compute.
  split; [exact H|].
  apply (predictions_are_ratings g "strict" "x" "b" (q 4)).
  - apply ratings_checked. by vm_compute.
  - right. left. exact H.
Defined.

(** * Further properties of the clustering *)

(** ** Cross-cluster weight *)

Lemma total_plus {A : Type} (f h : A → Qc) (l : list A) :
  total ((λ x, f x + h x) <$> l) = total (f <$> l) + total (h <$> l).
Proof.
  unfold total. induction l as [|x l IH].
  - simpl. symmetry. apply Qcplus_0_l.
  - rewrite !fmap_cons. cbn [foldr]. rewrite IH. ring.
Qed.

Lemma total_zero {A : Type} (l : list A) : total ((λ _, 0) <$> l) = 0.
Proof.
  unfold total. induction l as [|x l IH]; [done|].
  rewrite fmap_cons. cbn [foldr]. rewrite IH. apply Qcplus_0_l.
Qed.

Lemma total_swap {A B : Type} (f : A → B → Qc) (l1 : list A) (l2 : list B) :
  total ((λ u, total (f u <$> l2)) <$> l1)
  = total ((λ v, total ((λ u, f u v) <$> l1)) <$> l2).
Proof.
  induction l1 as [|u l1 IH].
  - symmetry. apply total_zero.
  - rewrite fmap_cons. unfold total at 1. cbn [foldr].
    fold (total ((λ u, total (f u <$> l2)) <$> l1)). rewrite IH.
    symmetry.
    transitivity
      (total ((λ v, f u v + total ((λ u0, f u0 v) <$> l1)) <$> l2));
      [reflexivity|].
    apply (total_plus (λ v, f u v) (λ v, total ((λ u0, f u0 v) <$> l1)) l2).
Qed.

Lemma edge_weight_mutual (g : WeightedGraph.t) (u v : string) :
  WeightedGraph_edges_mutual g → u ∈ dom g → v ∈ dom g →
  edge_weight g u v = edge_weight g v u.
Proof.
  intros Hm Hu Hv.
  pose proof (WeightedGraph_mutual_get_weight g u v Hm) as H.
  rewrite !get_weight_present in H by done. by injection H.
Qed.

Lemma cross_cluster_weight_empty (g : WeightedGraph.t) (A B : gset string) :
  A = ∅ ∨ B = ∅ →
  Cluster.cross_cluster_weight g A B = Raise ZeroDivisionError.
Proof.
  unfold Cluster.cross_cluster_weight. intros [-> | ->].
  - rewrite elements_empty. reflexivity.
  - rewrite elements_empty, size_empty, Nat.mul_0_r.
    generalize (Q2Qc 0) at 1. intros acc.
    induction (elements A) as [|u l IH]; simpl; [done|apply IH].
Qed.

(** X16.  [cross_cluster_weight] raises [ZeroDivisionError] when one of the
    clusters is empty; and on a graph built from the empty graph by
    [add_vertex] and [add_edge] calls, with at most 1024 vertices and
    weights that are integers from -1024 to 1024 (their sums are then the
    same in binary64 in every order), it gives the same for two clusters of
    vertices in either order. *)
Theorem cross_cluster_weight_symmetric (A B : gset string) :
  (∀ g : WeightedGraph.t, A = ∅ ∨ B = ∅ →
     Cluster.cross_cluster_weight g A B = Raise ZeroDivisionError)
  ∧ (∀ cs : list WeightedGraph.call,
       let g := WeightedGraph.run cs in
       small_weights g → A ⊆ dom g → B ⊆ dom g →
       Cluster.cross_cluster_weight g A B
       = Cluster.cross_cluster_weight g B A).
Proof.
  split; [intros g; apply cross_cluster_weight_empty|].
  intros cs g _ HA HB.
  destruct (decide (A = ∅)) as [HAe|HAe].
  { by rewrite !cross_cluster_weight_empty by auto. }
  destruct (decide (B = ∅)) as [HBe|HBe].
  { by rewrite !cross_cluster_weight_empty by auto. }
  rewrite !cross_cluster_weight_Ok by done.
  rewrite (Nat.mul_comm (size B)). do 2 f_equal.
  unfold pair_weights. rewrite total_swap. f_equal.
  apply list_fmap_ext. intros _ v Hv%list_elem_of_lookup_2%elem_of_elements.
  f_equal. apply list_fmap_ext.
  intros _ u Hu%list_elem_of_lookup_2%elem_of_elements.
  apply edge_weight_mutual; [apply WeightedGraph_run_mutual|auto..].
Qed.

Lemma cross_cluster_weight_symmetric_witness :
  let cs := [WeightedGraph.AddVertex "a" "book";
             WeightedGraph.AddVertex "b" "book";
             WeightedGraph.AddVertex "c" "book";
             WeightedGraph.AddEdge "a" "b" (q 3)] in
  Cluster.cross_cluster_weight (WeightedGraph.run cs) {["a"; "c"]} {["b"]}
  = Cluster.cross_cluster_weight (WeightedGraph.run cs) {["b"]} {["a"; "c"]}
  ∧ Cluster.cross_cluster_weight (WeightedGraph.run cs) ∅ {["b"]}
    = Raise ZeroDivisionError.
Proof.
  intros cs. split.
  - apply (proj2 (cross_cluster_weight_symmetric {["a"; "c"]} {["b"]}) cs).
    + split; [by vm_compute|].
      apply integer_weights_checked. by vm_compute.
    + intros x Hx. apply elem_of_dom.
      apply elem_of_union in Hx as [Hx|Hx]; apply elem_of_singleton in Hx;
        subst x; vm_compute; eauto.
    + intros x Hx. apply elem_of_singleton in Hx. subst x.
      apply elem_of_dom. vm_compute. eauto.
  - apply (proj1 (cross_cluster_weight_symmetric ∅ {["b"]})). by left.
Defined.

(** ** The book graph *)

Lemma get_similarity_score_comm (g : WeightedGraph.t)
    (a b score_type : string) :
  WeightedGraph.get_similarity_score a b score_type g
  = WeightedGraph.get_similarity_score b a score_type g.
Proof.
  unfold WeightedGraph.get_similarity_score.
  destruct (g !! a), (g !! b); try done.
  apply WeightedGraph_similarity_symmetric.
Qed.

Lemma get_similarity_score_nonneg (g : WeightedGraph.t)
    (a b score_type : string) :
  0 ≤ value (WeightedGraph.get_similarity_score a b score_type g).
Proof.
  unfold WeightedGraph.get_similarity_score.
  destruct (g !! a), (g !! b); try done.
  rewrite similarity_score_unweighted_Ok, similarity_score_strict_Ok.
  case_bool_decide; apply quotient_nonneg.
Qed.

Lemma add_book_vertices_lookup (l : list string) (g : WeightedGraph.t)
    (x : string) :
  foldl (λ g vertex, WeightedGraph.add_vertex vertex "book" g) g l !! x
  = match g !! x with
    | Some v => Some v
    | None => if decide (x ∈ l)
              then Some (WeightedGraph.mk_WeightedVertex "book" ∅)
              else None
    end.
Proof.
  revert g. induction l as [|v l IH]; intros g; cbn [foldl].
  - destruct (g !! x); [done|]. destruct (decide (x ∈ [])) as [Hx|]; [|done].
    by apply elem_of_nil in Hx.
  - rewrite IH. clear IH. unfold WeightedGraph.add_vertex.
    destruct (g !! v) as [vv|] eqn:Hv.
    + destruct (g !! x) eqn:Hx; [done|].
      assert (x ≠ v) by congruence.
      repeat case_decide; set_solver.
    + rewrite lookup_insert. destruct (decide (v = x)) as [->|Hne].
      * rewrite Hv. case_decide as Hx; [done|]. destruct Hx. by left.
      * destruct (g !! x); [done|].
        repeat case_decide; set_solver.
Qed.

Section book_graph.

Context (review_graph : WeightedGraph.t) (threshold : Qc).
Context (score_type : string).

Local Abbreviation books :=
  (WeightedGraph.get_all_vertices "book" review_graph).
Local Abbreviation sc :=
  (λ x y, value (WeightedGraph.get_similarity_score
                   x y score_type review_graph)).
Local Abbreviation after := (book_graph_after review_graph threshold score_type).

Lemma book_score_Ok (x y : string) :
  x ∈ books → y ∈ books →
  WeightedGraph.get_similarity_score x y score_type review_graph
  = Ok (sc x y).
Proof.
  intros Hx%get_all_vertices_subseteq Hy%get_all_vertices_subseteq.
  by apply WeightedGraph_get_similarity_score_value.
Qed.

Lemma book_score_comm (x y : string) : sc x y = sc y x.
Proof. simpl. by rewrite get_similarity_score_comm. Qed.

Lemma after_start :
  after (λ _ _, False)
    (foldl (λ g vertex, WeightedGraph.add_vertex vertex "book" g)
           WeightedGraph.empty (elements books)).
Proof.
  split; [|split].
  - intros x. rewrite add_book_vertices_lookup. unfold WeightedGraph.empty.
    rewrite lookup_empty. case_decide as Hx.
    + apply elem_of_elements in Hx. split; [by eexists|done].
    + rewrite elem_of_elements in Hx. split; [done|by intros [? ?]].
  - intros x v. rewrite add_book_vertices_lookup. unfold WeightedGraph.empty.
    rewrite lookup_empty. case_decide; [|done]. by intros [= <-].
  - intros x v y w. rewrite add_book_vertices_lookup.
    unfold WeightedGraph.empty. rewrite lookup_empty.
    case_decide; [|done]. intros [= <-]. simpl. rewrite lookup_empty.
    split; [done|]. intros (_ & _ & _ & _ & [[]|[]]).
Qed.

Lemma after_books (D : string → string → Prop) (g : WeightedGraph.t) :
  after D g → WeightedGraph.get_all_vertices "book" g = books.
Proof.
  intros (Hdom & Hkind & _). apply set_eq. intros x.
  rewrite (WeightedGraph_get_all_vertices_iff g), Hdom. split.
  - intros (v & Hv & _). by eexists.
  - intros [v Hv]. exists v. split; [done|]. right. by eapply Hkind.
Qed.

Lemma after_more (D D' : string → string → Prop) (g : WeightedGraph.t) :
  after D g →
  (∀ x y, D x y → D' x y) →
  (∀ x y, y ≠ x → threshold < sc x y → D' x y ∨ D' y x → D x y ∨ D y x) →
  after D' g.
Proof.
  intros (Hdom & Hkind & Hnb) HD HD'. split; [done|]. split; [done|].
  intros x v y w Hv. rewrite (Hnb x v y w Hv). split.
  - intros (Hy & Hne & Hw & Hth & HDxy).
    split; [done|]. split; [done|]. split; [done|]. split; [done|].
    destruct HDxy; auto.
  - intros (Hy & Hne & Hw & Hth & HDxy).
    split; [done|]. split; [done|]. split; [done|]. split; [done|].
    apply HD'; [done| |done]. by rewrite <- Hw.
Qed.

Lemma book_edge_after (D : string → string → Prop) (g : WeightedGraph.t)
    (b1 b2 : string) :
  after D g → b1 ∈ books → b2 ∈ books →
  ∃ g', Cluster.book_edge review_graph threshold score_type b1 g b2 = Ok g'
        ∧ after (λ x y, D x y ∨ (x = b1 ∧ y = b2)) g'.
Proof.
  intros Hg H1 H2. unfold Cluster.book_edge.
  destruct (decide (b2 = b1)) as [->|Hne].
  { rewrite bool_decide_eq_false_2 by (by intros ?).
    exists g. split; [done|]. apply (after_more D); [done|auto|].
    intros x y Hxy _ [[?|[-> ->]]|[?|[-> ->]]]; auto; done. }
  rewrite bool_decide_eq_true_2 by done.
  rewrite book_score_Ok by done. cbn [mbind result_bind].
  destruct (decide (threshold < sc b1 b2)) as [Hth|Hth]; cycle 1.
  { rewrite (bool_decide_eq_false_2 _ Hth).
    exists g. split; [done|]. apply (after_more D); [done|auto|].
    intros x y Hxy Hs [[?|[-> ->]]|[?|[-> ->]]]; auto.
    - done.
    - by rewrite book_score_comm in Hs. }
  rewrite (bool_decide_eq_true_2 _ Hth).
  destruct Hg as (Hdom & Hkind & Hnb).
  pose proof (proj1 (Hdom b1) H1) as Hb1.
  pose proof (proj1 (Hdom b2) H2) as Hb2.
  rewrite (surjective_pairing (WeightedGraph.add_edge _ _ _ _)).
  set (g' := (WeightedGraph.add_edge b1 b2 (sc b1 b2) g).2).
  assert ((WeightedGraph.add_edge b1 b2 (sc b1 b2) g).1 = Ok ()) as ->
    by (by rewrite WeightedGraph_add_edge_present).
  exists g'. split; [done|]. subst g'.
  split; [|split].
  - intros x. rewrite Hdom. split.
    + intros [v Hv].
      destruct (WeightedGraph_add_edge_lookup g b1 b2 x (sc b1 b2) v Hb1 Hb2 Hv)
        as (v' & Hv' & _). by eexists.
    + intros [v' Hv'].
      apply WeightedGraph_add_edge_lookup_inv in Hv' as (v & Hv & _);
        [by eexists|done..].
  - intros x v' Hv'.
    apply WeightedGraph_add_edge_lookup_inv in Hv' as (v & Hv & Hk & _);
      [|done..].
    rewrite Hk. by eapply Hkind.
  - intros x v' y w Hv'.
    apply WeightedGraph_add_edge_lookup_inv in Hv' as (v & Hv & _ & Hn);
      [|done..].
    rewrite Hn. case_bool_decide as Hends.
    + split.
      * intros [= <-].
        destruct Hends as [[-> ->]|[-> ->]];
          (split; [done|]); (split; [done|]).
        -- split; [done|]. split; [done|]. auto.
        -- split; [apply book_score_comm|].
           split; [done|]. auto.
      * intros (_ & _ & -> & _). f_equal.
        destruct Hends as [[-> ->]|[-> ->]]; [done|apply book_score_comm].
    + rewrite (Hnb x v y w Hv). split.
      * intros (Hy & Hxy & Hw & Hthw & HD).
        split; [done|]. split; [done|]. split; [done|]. split; [done|].
        destruct HD; auto.
      * intros (Hy & Hxy & Hw & Hthw & HD).
        split; [done|]. split; [done|]. split; [done|]. split; [done|].
        destruct HD as [[?|[-> ->]]|[?|[-> ->]]]; auto; tauto.
Qed.

Lemma book_row_after (D : string → string → Prop) (g : WeightedGraph.t)
    (b1 : string) (l : list string) :
  after D g → b1 ∈ books → Forall (λ b2, b2 ∈ books) l →
  ∃ g', foldM (Cluster.book_edge review_graph threshold score_type b1) g l
        = Ok g'
        ∧ after (λ x y, D x y ∨ (x = b1 ∧ y ∈ l)) g'.
Proof.
  intros Hg H1 Hl. revert D g Hg.
  induction Hl as [|b2 l H2 _ IH]; intros D g Hg; cbn [foldM].
  - exists g. split; [done|]. apply (after_more D); [done|auto|].
    intros x y _ _ [[?|[_ ?%elem_of_nil]]|[?|[_ ?%elem_of_nil]]]; auto; done.
  - destruct (book_edge_after D g b1 b2 Hg H1 H2) as (g1 & -> & Hg1).
    cbn [mbind result_bind].
    destruct (IH _ g1 Hg1) as (g' & -> & Hg').
    exists g'. split; [done|]. eapply after_more; [exact Hg'| |].
    + intros x y [[?|[-> ->]]|[-> ?]]; auto.
      * right. split; [done|]. by left.
      * right. split; [done|]. by right.
    + intros x y _ _ HD.
      assert (∀ x y, D x y ∨ x = b1 ∧ y ∈ b2 :: l →
                (D x y ∨ x = b1 ∧ y = b2) ∨ x = b1 ∧ y ∈ l) as Hconv.
      { intros x' y' [?|[-> [->|?]%elem_of_cons]]; auto. }
      destruct HD as [HD|HD]; apply Hconv in HD; auto.
Qed.

Lemma book_rows_after (D : string → string → Prop) (g : WeightedGraph.t)
    (l1 : list string) :
  after D g → Forall (λ b1, b1 ∈ books) l1 →
  ∃ g',
    foldM (λ g b1,
             foldM (Cluster.book_edge review_graph threshold score_type b1) g
                   (elements (WeightedGraph.get_all_vertices "book" g)))
          g l1 = Ok g'
    ∧ after (λ x y, D x y ∨ (x ∈ l1 ∧ y ∈ books)) g'.
Proof.
  intros Hg Hl. revert D g Hg.
  induction Hl as [|b1 l1 H1 _ IH]; intros D g Hg; cbn [foldM].
  - exists g. split; [done|]. apply (after_more D); [done|auto|].
    intros x y _ _ [[?|[?%elem_of_nil _]]|[?|[?%elem_of_nil _]]]; auto; done.
  - rewrite (after_books D g Hg).
    destruct (book_row_after D g b1 (elements books) Hg H1)
      as (g1 & -> & Hg1).
    { apply Forall_forall. by intros b2 ?%elem_of_elements. }
    cbn [mbind result_bind].
    destruct (IH _ g1 Hg1) as (g' & -> & Hg').
    exists g'. split; [done|]. eapply after_more; [exact Hg'| |].
    + intros x y [[?|[-> Hy%elem_of_elements]]|[? ?]]; auto.
      * right. split; [by left|done].
      * right. split; [by right|done].
    + intros x y _ _ HD.
      assert (∀ x y, D x y ∨ x ∈ b1 :: l1 ∧ y ∈ books →
                (D x y ∨ x = b1 ∧ y ∈ elements books) ∨ x ∈ l1 ∧ y ∈ books)
        as Hconv.
      { intros x' y' [?|[[->|?]%elem_of_cons Hy]]; auto.
        left. right. split; [done|]. by apply elem_of_elements. }
      destruct HD as [HD|HD]; apply Hconv in HD; auto.
Qed.

(** What [create_book_graph] returns. *)
Lemma create_book_graph_after :
  ∃ g, Cluster.create_book_graph review_graph threshold score_type = Ok g
       ∧ after (λ x y, x ∈ books ∧ y ∈ books) g.
Proof.
  unfold Cluster.create_book_graph.
  set (g0 := foldl _ WeightedGraph.empty _).
  pose proof after_start as H0. fold g0 in H0.
  rewrite (after_books _ g0 H0).
  destruct (book_rows_after _ g0 (elements books) H0) as (g & -> & Hg).
  { apply Forall_forall. by intros b ?%elem_of_elements. }
  exists g. split; [done|]. eapply after_more; [exact Hg| |].
  - intros x y [[]|[Hx%elem_of_elements Hy]]. done.
  - intros x y _ _ [[Hx Hy]|[Hy Hx]].
    + left. right. split; [by apply elem_of_elements|done].
    + right. right. split; [by apply elem_of_elements|done].
Qed.

End book_graph.

Lemma after_weights_above_start (review_graph : WeightedGraph.t)
    (threshold : Qc) (score_type : string) (D : string → string → Prop)
    (g : WeightedGraph.t) :
  book_graph_after review_graph threshold score_type D g →
  weights_above_start g.
Proof.
  intros (_ & _ & Hnb) u vu v w Hu Hw.
  apply (Hnb u vu v w Hu) in Hw as (_ & _ & -> & _).
  eapply Qclt_le_trans; [|apply get_similarity_score_nonneg]. done.
Qed.

(** X17.  [create_book_graph] returns a graph for every review graph,
    threshold and score type.  Its vertices are the books of the review
    graph, all of kind "book"; two of them are adjacent exactly when they
    are different books whose similarity score in the review graph is above
    the threshold, and the weight of their edge is that score. *)
Theorem create_book_graph_links_similar_books
    (review_graph : WeightedGraph.t) (threshold : Qc) (score_type : string) :
  ∃ g,
    Cluster.create_book_graph review_graph threshold score_type = Ok g
    ∧ (∀ k, WeightedGraph.get_all_vertices k g
            = if bool_decide (k = "" ∨ k = "book")
              then WeightedGraph.get_all_vertices "book" review_graph
              else ∅)
    ∧ (∀ b1 b2,
         WeightedGraph.adjacent b1 b2 g = true
         ↔ b1 ∈ WeightedGraph.get_all_vertices "book" review_graph
           ∧ b2 ∈ WeightedGraph.get_all_vertices "book" review_graph
           ∧ b1 ≠ b2
           ∧ threshold
             < value (WeightedGraph.get_similarity_score
                        b1 b2 score_type review_graph))
    ∧ (∀ b1 b2,
         WeightedGraph.adjacent b1 b2 g = true →
         WeightedGraph.get_weight b1 b2 g
         = WeightedGraph.get_similarity_score b1 b2 score_type review_graph).
Proof.
  destruct (create_book_graph_after review_graph threshold score_type)
    as (g & Hrun & Hdom & Hkind & Hnb).
  exists g. split; [done|].
  assert (∀ b1 b2,
    WeightedGraph.adjacent b1 b2 g = true
    ↔ b1 ∈ WeightedGraph.get_all_vertices "book" review_graph
      ∧ b2 ∈ WeightedGraph.get_all_vertices "book" review_graph
      ∧ b1 ≠ b2
      ∧ threshold
        < value (WeightedGraph.get_similarity_score
                   b1 b2 score_type review_graph)) as Hadj.
  { intros b1 b2. rewrite WeightedGraph_adjacent_iff. split.
    - intros (v1 & H1 & H2 & [w Hw]).
      apply (Hnb b1 v1 b2 w H1) in Hw as (Hb2 & Hne & -> & Hth & _).
      split; [apply Hdom; by eexists|]. by repeat split.
    - intros (Hb1 & Hb2 & Hne & Hth).
      destruct (proj1 (Hdom b1) Hb1) as [v1 H1].
      exists v1. split; [done|]. split; [by apply Hdom|].
      eexists. apply (Hnb b1 v1 b2 _ H1). split; [done|].
      split; [done|]. split; [done|]. split; [done|]. by left. }
  split; [|split; [done|]].
  - intros k. apply set_eq. intros x.
    rewrite (WeightedGraph_get_all_vertices_iff g). case_bool_decide as Hk.
    + rewrite Hdom. split.
      * intros (v & Hv & _). by eexists.
      * intros [v Hv]. exists v. split; [done|].
        destruct Hk as [->| ->]; [by left|right; by eapply Hkind].
    + split; [|set_solver]. intros (v & Hv & [->| <-]); destruct Hk.
      * by left.
      * right. by eapply Hkind.
  - intros b1 b2 H12. pose proof H12 as (Hb1 & Hb2 & _)%Hadj.
    destruct (adjacent_get_weight g b1 b2 H12) as (v1 & w & H1 & Hw & ->).
    apply (Hnb b1 v1 b2 w H1) in Hw as (_ & _ & -> & _).
    apply get_all_vertices_subseteq in Hb1, Hb2.
    symmetry. by apply WeightedGraph_get_similarity_score_value.
Qed.

(** X18.  For every review graph, threshold, score type and [num_clusters]
    of at least 1, both clustering functions succeed on the graph that
    [create_book_graph] returns: the clusters they return are not empty,
    pairwise disjoint, together the books of the review graph, and
    [num_clusters] in number when there are at least that many books. *)
Theorem create_book_graph_can_be_clustered
    (review_graph : WeightedGraph.t) (threshold : Qc) (score_type : string)
    (num_clusters : Z) (random : nat → nat) :
  (1 ≤ num_clusters)%Z →
  ∃ g,
    Cluster.create_book_graph review_graph threshold score_type = Ok g
    ∧ dom g = WeightedGraph.get_all_vertices "book" review_graph
    ∧ clustering g num_clusters
        (Cluster.find_clusters_random random g num_clusters)
    ∧ clustering g num_clusters
        (Cluster.find_clusters_greedy g num_clusters).
Proof.
  intros Hnum.
  destruct (create_book_graph_after review_graph threshold score_type)
    as (g & Hrun & Hg).
  exists g. split; [done|].
  pose proof (after_weights_above_start _ _ _ _ _ Hg) as Hw.
  split.
  { destruct Hg as (Hdom & _). apply set_eq. intros x.
    by rewrite Hdom, elem_of_dom. }
  destruct (singletons_partition g) as [Hp Hsize].
  assert (Cluster.rounds (Cluster.singletons g) num_clusters = 0%nat
          ∨ (Cluster.rounds (Cluster.singletons g) num_clusters
             < length (Cluster.singletons g))%nat) as Hn
    by (unfold Cluster.rounds; lia).
  split.
  - eapply partition_clustering; [done|done| |].
    + unfold Cluster.find_clusters_random. by intros ->.
    + by apply random_loop_partition.
  - eapply partition_clustering; [done|done| |].
    + unfold Cluster.find_clusters_greedy. by intros ->.
    + by apply greedy_loop_partition.
Qed.

Lemma create_book_graph_can_be_clustered_witness :
  let review_graph :=
    WeightedGraph.run
      [WeightedGraph.AddVertex "u" "user";
       WeightedGraph.AddVertex "a" "book";
       WeightedGraph.AddVertex "b" "book";
       WeightedGraph.AddVertex "c" "book";
       WeightedGraph.AddEdge "u" "a" (q 5);
       WeightedGraph.AddEdge "u" "b" (q 4)] in
  ∃ g,
    Cluster.create_book_graph review_graph 0 "unweighted" = Ok g
    ∧ dom g = WeightedGraph.get_all_vertices "book" review_graph
    ∧ clustering g 2 (Cluster.find_clusters_random (λ k, k) g 2)
    ∧ clustering g 2 (Cluster.find_clusters_greedy g 2).
Proof.
  intros review_graph.
  apply (create_book_graph_can_be_clustered
           review_graph 0 "unweighted" 2 (λ k, k)).
  lia.
Defined.

(** ** Asking for no cluster *)

Lemma random_loop_past_one (g : WeightedGraph.t) (random : nat → nat)
    (n k : nat) (cs : list (gset string)) :
  weights_above_start g → partition g cs →
  (1 ≤ length cs ≤ n)%nat →
  Cluster.random_loop g random n k cs = Raise AttributeError.
Proof.
  intros Hg. revert k cs. induction n as [|n IH]; intros k cs Hp Hn; [lia|].
  cbn [Cluster.random_loop].
  destruct (decide (length cs = 1%nat)) as [H1|H1].
  - destruct cs as [|c [|]]; try done.
  - destruct (random_round_partition g Hg cs Hp (random k))
      as (cs1 & -> & Hp1 & Hlen1); [lia|].
    cbn [mbind result_bind]. apply IH; [done|lia].
Qed.

Lemma greedy_loop_past_one (g : WeightedGraph.t) (n : nat)
    (cs : list (gset string)) :
  weights_above_start g → partition g cs →
  (1 ≤ length cs ≤ n)%nat →
  Cluster.greedy_loop g n cs = Raise AttributeError.
Proof.
  intros Hg. revert cs. induction n as [|n IH]; intros cs Hp Hn; [lia|].
  cbn [Cluster.greedy_loop].
  destruct (decide (length cs = 1%nat)) as [H1|H1].
  - destruct cs as [|c [|]]; try done.
  - destruct (greedy_round_partition g Hg cs Hp)
      as (cs1 & -> & Hp1 & Hlen1); [lia|].
    cbn [mbind result_bind]. apply IH; [done|lia].
Qed.

(** X19.  With [num_clusters] of 0 or less, both clustering functions raise
    [AttributeError] on every graph that has a vertex and whose stored
    weights are numbers from 0 to [2^53]: once one cluster is left, the
    search finds no second cluster and [None.update] is called.  On the graph without
    vertices a negative [num_clusters] makes [find_clusters_random] raise
    [IndexError], from [random.choice] on the empty list, and
    [find_clusters_greedy] raise [AttributeError]. *)
Theorem find_clusters_raise_without_a_cluster_to_keep
    (g : WeightedGraph.t) (num_clusters : Z) (random : nat → nat) :
  weights_between 0 (Qc_of_Z (2 ^ 53)) g → (num_clusters ≤ 0)%Z →
  (g ≠ ∅ →
     Cluster.find_clusters_random random g num_clusters
     = Raise AttributeError
     ∧ Cluster.find_clusters_greedy g num_clusters = Raise AttributeError)
  ∧ (g = ∅ → (num_clusters < 0)%Z →
     Cluster.find_clusters_random random g num_clusters = Raise IndexError
     ∧ Cluster.find_clusters_greedy g num_clusters = Raise AttributeError).
Proof.
  intros Hw Hnum.
  assert (weights_above_start g) as Hg
    by (by apply (weights_between_above_start 0 (Qc_of_Z (2 ^ 53)))).
  destruct (singletons_partition g) as [Hp Hsize]. split.
  - intros Hne.
    assert (size g ≠ 0%nat) as Hs by by rewrite map_size_non_empty_iff.
    unfold Cluster.find_clusters_random, Cluster.find_clusters_greedy.
    split.
    + apply random_loop_past_one; [done|done|]. unfold Cluster.rounds. lia.
    + apply greedy_loop_past_one; [done|done|]. unfold Cluster.rounds. lia.
  - intros -> Hneg.
    unfold Cluster.find_clusters_random, Cluster.find_clusters_greedy.
    assert (Cluster.singletons (∅ : WeightedGraph.t) = []) as ->.
    { apply nil_length_inv. rewrite Hsize. apply map_size_empty. }
    unfold Cluster.rounds. cbn [length].
    destruct (Z.to_nat (Z.of_nat 0 - num_clusters)) as [|n] eqn:Hn; [lia|].
    done.
Qed.

Lemma find_clusters_raise_without_a_cluster_to_keep_witness :
  let g := WeightedGraph.run
             [WeightedGraph.AddVertex "a" "book";
              WeightedGraph.AddVertex "b" "book";
              WeightedGraph.AddVertex "c" "book";
              WeightedGraph.AddEdge "a" "b" (q 2)] in
  Cluster.find_clusters_random (λ k, k) g 0 = Raise AttributeError
  ∧ Cluster.find_clusters_greedy g 0 = Raise AttributeError.
Proof.
  intros g.
  apply (find_clusters_raise_without_a_cluster_to_keep g 0 (λ k, k)).
  - apply weights_between_checked. by vm_compute.
  - lia.
  - apply map_size_non_empty_iff. by vm_compute.
Defined.

(** ** The pair that a round merges *)

Section best.

Context (g : WeightedGraph.t) (Hg : weights_above_start g).
Context (cs : list (gset string)) (Hp : partition g cs).

Lemma greedy_best_fewer (P P' : nat → nat → Prop)
    (acc : Qc * option nat * option nat) :
  greedy_best g cs P acc → (∀ j1 j2, P' j1 j2 → P j1 j2) →
  greedy_best g cs P' acc.
Proof. intros [Hmax Hacc] HP. split; [|done]. eauto. Qed.

Lemma greedy_body_best (P : nat → nat → Prop) (i1 i2 : nat)
    (acc : Qc * option nat * option nat) :
  (i1 < i2 < length cs)%nat → greedy_best g cs P acc →
  ∃ acc', Cluster.greedy_body g cs i1 acc i2 = Ok acc'
          ∧ greedy_best g cs (λ j1 j2, P j1 j2 ∨ (j1 = i1 ∧ j2 = i2)) acc'
          ∧ acc' ≠ (-1, None, None).
Proof.
  intros Hi [Hmax Hacc]. destruct acc as [[best b1] b2].
  unfold Cluster.greedy_body.
  destruct (lookup_lt_is_Some_2 cs i1) as [c1 H1]; [lia|].
  destruct (lookup_lt_is_Some_2 cs i2) as [c2 H2]; [lia|].
  rewrite H1, H2.
  destruct (score_above g Hg cs Hp i1 i2 c1 c2 H1 H2) as (score & Hscore & Hs).
  rewrite Hscore. cbn [mbind result_bind].
  destruct (decide (best < score)) as [Hb|Hb].
  - rewrite (bool_decide_eq_true_2 _ Hb). eexists. split; [done|].
    split; [split|done].
    + intros j1 j2 d1 d2 [HP|[-> ->]] Hd1 Hd2; simpl.
      * apply Qclt_le_weak. eapply Qcle_lt_trans; [|exact Hb].
        by apply (Hmax j1 j2).
      * rewrite H1 in Hd1. rewrite H2 in Hd2.
        injection Hd1 as <-. injection Hd2 as <-. by rewrite Hscore.
    + right. exists i1, i2, c1, c2. rewrite Hscore. simpl.
      split; [done|]. split; [lia|done].
  - rewrite (bool_decide_eq_false_2 _ Hb). apply Qcnot_lt_le in Hb.
    eexists. split; [done|]. split; [split|].
    + intros j1 j2 d1 d2 [HP|[-> ->]] Hd1 Hd2; simpl.
      * by apply (Hmax j1 j2).
      * rewrite H1 in Hd1. rewrite H2 in Hd2.
        injection Hd1 as <-. injection Hd2 as <-. by rewrite Hscore.
    + done.
    + intros [= -> -> ->]. by apply (Qclt_not_le _ _ Hs).
Qed.

Lemma greedy_row_best (P : nat → nat → Prop) (i1 : nat) (l : list nat)
    (acc : Qc * option nat * option nat) :
  Forall (λ i2, i1 < i2 < length cs)%nat l → greedy_best g cs P acc →
  ∃ acc', foldM (Cluster.greedy_body g cs i1) acc l = Ok acc'
          ∧ greedy_best g cs (λ j1 j2, P j1 j2 ∨ (j1 = i1 ∧ j2 ∈ l)) acc'
          ∧ (l ≠ [] ∨ acc ≠ (-1, None, None) → acc' ≠ (-1, None, None)).
Proof.
  intros Hl. revert P acc.
  induction Hl as [|i2 l Hi2 _ IH]; intros P acc Hacc; cbn [foldM].
  - eexists. split; [done|]. split.
    + apply (greedy_best_fewer P); [done|].
      by intros j1 j2 [?|[_ ?%elem_of_nil]].
    + by intros [?|?].
  - destruct (greedy_body_best P i1 i2 acc Hi2 Hacc)
      as (acc1 & -> & Hacc1 & Hne1).
    cbn [mbind result_bind].
    destruct (IH _ acc1 Hacc1) as (acc' & -> & Hacc' & Hne').
    eexists. split; [done|]. split; [|by auto].
    eapply greedy_best_fewer; [exact Hacc'|].
    intros j1 j2 [?|[-> [->|?]%elem_of_cons]]; auto.
Qed.

Lemma greedy_search_best (P : nat → nat → Prop) (l : list nat)
    (acc : Qc * option nat * option nat) :
  greedy_best g cs P acc →
  ∃ acc',
    foldM (Cluster.greedy_row g cs) acc l = Ok acc'
    ∧ greedy_best g cs
        (λ j1 j2, P j1 j2 ∨ (j1 ∈ l ∧ (j1 < j2 < length cs)%nat)) acc'
    ∧ (Exists (λ i1, S i1 < length cs)%nat l ∨ acc ≠ (-1, None, None) →
       acc' ≠ (-1, None, None)).
Proof.
  revert P acc. induction l as [|i1 l IH]; intros P acc Hacc; cbn [foldM].
  - eexists. split; [done|]. split.
    + apply (greedy_best_fewer P); [done|].
      by intros j1 j2 [?|[?%elem_of_nil _]].
    + by intros [?%Exists_nil|?].
  - destruct (greedy_row_best P i1 (seq (S i1) (length cs - S i1)) acc)
      as (acc1 & Hrow & Hacc1 & Hne1); [|done|].
    { apply Forall_forall. intros i2 Hi2%elem_of_seq. lia. }
    assert (Cluster.greedy_row g cs acc i1 = Ok acc1) as -> by exact Hrow.
    cbn [mbind result_bind].
    destruct (IH _ acc1 Hacc1) as (acc' & -> & Hacc' & Hne').
    eexists. split; [done|]. split.
    + eapply greedy_best_fewer; [exact Hacc'|].
      intros j1 j2 [?|[[->|?]%elem_of_cons Hj]]; auto.
      left. right. split; [done|]. apply elem_of_seq. lia.
    + intros [[Hi|Hex]%Exists_cons|Hne]; apply Hne'; auto.
      right. apply Hne1. left.
      destruct (length cs - S i1)%nat eqn:Hn; [lia|done].
Qed.

Lemma random_best_fewer (i1 : nat) (c1 : gset string) (P P' : nat → Prop)
    (acc : Qc * option nat) :
  random_best g cs i1 c1 P acc → (∀ j, P' j → P j) →
  random_best g cs i1 c1 P' acc.
Proof. intros [Hmax Hacc] HP. split; [|done]. eauto. Qed.

Lemma random_body_best (i1 : nat) (c1 : gset string) (P : nat → Prop)
    (i2 : nat) (c2 : gset string) (acc : Qc * option nat) :
  cs !! i1 = Some c1 → cs !! i2 = Some c2 →
  random_best g cs i1 c1 P acc →
  ∃ acc', Cluster.random_body g i1 c1 acc (i2, c2) = Ok acc'
          ∧ random_best g cs i1 c1 (λ j, P j ∨ j = i2) acc'
          ∧ (i2 ≠ i1 ∨ acc ≠ (-1, None) → acc' ≠ (-1, None)).
Proof.
  intros H1 H2 [Hmax Hacc]. destruct acc as [best b].
  unfold Cluster.random_body.
  destruct (decide (i1 = i2)) as [<-|Hi].
  - rewrite bool_decide_eq_false_2 by (by intros ?).
    eexists. split; [done|]. split; [split; [|done]|].
    + intros j d [HP| ->] Hj Hd; [|done]. by apply (Hmax j).
    + by intros [?|?].
  - rewrite bool_decide_eq_true_2 by done.
    destruct (score_above g Hg cs Hp i1 i2 c1 c2 H1 H2)
      as (score & Hscore & Hs).
    rewrite Hscore. cbn [mbind result_bind].
    destruct (decide (best < score)) as [Hb|Hb].
    + rewrite (bool_decide_eq_true_2 _ Hb). eexists. split; [done|].
      split; [split|done].
      * intros j d [HP| ->] Hj Hd; simpl.
        -- apply Qclt_le_weak. eapply Qcle_lt_trans; [|exact Hb].
           by apply (Hmax j).
        -- rewrite H2 in Hd. injection Hd as <-. by rewrite Hscore.
      * right. exists i2, c2. rewrite Hscore. simpl.
        split; [done|]. split; [by apply not_eq_sym|done].
    + rewrite (bool_decide_eq_false_2 _ Hb). apply Qcnot_lt_le in Hb.
      eexists. split; [done|]. split; [split|].
      * intros j d [HP| ->] Hj Hd; simpl.
        -- by apply (Hmax j).
        -- rewrite H2 in Hd. injection Hd as <-. by rewrite Hscore.
      * done.
      * intros _ [= -> ->]. by apply (Qclt_not_le _ _ Hs).
Qed.

Lemma random_search_best (i1 : nat) (c1 : gset string) (P : nat → Prop)
    (l : list (nat * gset string)) (acc : Qc * option nat) :
  cs !! i1 = Some c1 → Forall (λ ic, cs !! ic.1 = Some ic.2) l →
  random_best g cs i1 c1 P acc →
  ∃ acc', foldM (Cluster.random_body g i1 c1) acc l = Ok acc'
          ∧ random_best g cs i1 c1 (λ j, P j ∨ j ∈ l.*1) acc'
          ∧ (Exists (λ ic, ic.1 ≠ i1) l ∨ acc ≠ (-1, None) →
             acc' ≠ (-1, None)).
Proof.
  intros H1 Hl. revert P acc.
  induction Hl as [|[i2 c2] l H2 _ IH]; intros P acc Hacc; cbn [foldM].
  - eexists. split; [done|]. split.
    + apply (random_best_fewer i1 c1 P); [done|].
      by intros j [?|?%elem_of_nil].
    + by intros [?%Exists_nil|?].
  - destruct (random_body_best i1 c1 P i2 c2 acc H1 H2 Hacc)
      as (acc1 & -> & Hacc1 & Hne1).
    cbn [mbind result_bind].
    destruct (IH _ acc1 Hacc1) as (acc' & -> & Hacc' & Hne').
    eexists. split; [done|]. split.
    + eapply random_best_fewer; [exact Hacc'|].
      intros j [?|[->|?]%elem_of_cons]; auto.
    + intros [[Hi|Hex]%Exists_cons|Hne]; apply Hne'; auto.
Qed.

(** A round of [find_clusters_greedy] merges two clusters of which no
    other two have a larger cross-cluster weight. *)
Lemma greedy_round_best :
  (2 ≤ length cs)%nat →
  ∃ i1 i2 c1 c2,
    (i1 < i2)%nat ∧ cs !! i1 = Some c1 ∧ cs !! i2 = Some c2
    ∧ Cluster.greedy_round g cs = Ok (delete i1 (<[i2 := c2 ∪ c1]> cs))
    ∧ ∀ j1 j2 d1 d2,
        (j1 < j2)%nat → cs !! j1 = Some d1 → cs !! j2 = Some d2 →
        value (Cluster.cross_cluster_weight g d1 d2)
        ≤ value (Cluster.cross_cluster_weight g c1 c2).
Proof.
  intros Hlen. unfold Cluster.greedy_round.
  destruct (greedy_search_best (λ _ _, False) (seq 0 (length cs))
              (-1, None, None))
    as (acc' & -> & [Hmax Hacc] & Hne); [split; [done|by left]|].
  cbn [mbind result_bind].
  destruct Hacc as [->|(i1 & i2 & c1 & c2 & -> & Hi & H1 & H2)].
  { destruct Hne; [|done]. left. apply Exists_exists. exists 0%nat.
    split; [apply elem_of_seq|]; lia. }
  exists i1, i2, c1, c2. split; [done|]. split; [done|]. split; [done|].
  split.
  - unfold Cluster.merge. rewrite H1, H2.
    apply (updated_remove g cs i1 i2 c1 c2 Hp); [lia|done..].
  - intros j1 j2 d1 d2 Hj Hd1 Hd2. apply (Hmax j1 j2); [|done..].
    right. apply lookup_lt_Some in Hd2.
    split; [apply elem_of_seq|]; lia.
Qed.

(** A round of [find_clusters_random] merges the cluster drawn with a
    cluster with which its cross-cluster weight is largest. *)
Lemma random_round_best (r : nat) :
  (2 ≤ length cs)%nat →
  ∃ c1 i2 c2,
    cs !! (r mod length cs)%nat = Some c1
    ∧ i2 ≠ (r mod length cs)%nat ∧ cs !! i2 = Some c2
    ∧ Cluster.random_round g r cs
      = Ok (delete (r mod length cs)%nat (<[i2 := c2 ∪ c1]> cs))
    ∧ ∀ j d, j ≠ (r mod length cs)%nat → cs !! j = Some d →
        value (Cluster.cross_cluster_weight g c1 d)
        ≤ value (Cluster.cross_cluster_weight g c1 c2).
Proof.
  intros Hlen. unfold Cluster.random_round.
  set (i1 := (r mod length cs)%nat).
  assert (i1 < length cs)%nat as Hi1 by (apply Nat.mod_upper_bound; lia).
  destruct (lookup_lt_is_Some_2 cs i1 Hi1) as [c1 H1]. rewrite H1.
  destruct (random_search_best i1 c1 (λ _, False) (imap pair cs) (-1, None) H1)
    as (acc' & -> & [Hmax Hacc] & Hne).
  { apply Forall_lookup. intros i [i' c] Hic.
    rewrite list_lookup_imap in Hic.
    destruct (cs !! i) eqn:Hi; by simplify_eq/=. }
  { split; [done|by left]. }
  cbn [mbind result_bind].
  destruct Hacc as [->|(i2 & c2 & -> & Hi & H2)].
  { destruct Hne; [|done]. left.
    destruct (lookup_lt_is_Some_2 cs (if decide (i1 = 0) then 1 else 0)%nat)
      as [d Hd]; [case_decide; lia|].
    apply Exists_exists. eexists (_, d). split.
    - apply list_elem_of_lookup. eexists.
      rewrite list_lookup_imap, Hd. done.
    - simpl. case_decide; lia. }
  exists c1, i2, c2. split; [done|]. split; [done|]. split; [done|].
  split.
  - unfold Cluster.merge. rewrite H1, H2.
    by apply (updated_remove g cs i1 i2 c1 c2 Hp).
  - intros j d Hj Hd. apply (Hmax j d); [|done..].
    right. apply list_elem_of_fmap. exists (j, d). split; [done|].
    apply list_elem_of_lookup. exists j.
    by rewrite list_lookup_imap, Hd.
Qed.

End best.

(** X20.  On a graph of at most 1024 vertices whose weights are integers
    from 0 to 1024 (so that the scores compare in binary64 as they do
    exactly), and a partition of it into at least two clusters:
    an iteration of the loop of [find_clusters_greedy] merges two clusters
    of which no other two have a larger cross-cluster weight, and an
    iteration of the loop of [find_clusters_random] merges the cluster that
    [random.choice] draws into a cluster with which its cross-cluster
    weight is largest.  In both, the cluster merged into becomes the union,
    the other of the two is removed, and the other clusters stay as they
    are, in their order. *)
Theorem find_clusters_merge_a_closest_pair
    (g : WeightedGraph.t) (cs : list (gset string)) :
  (Z.of_nat (size g) ≤ 2 ^ 10)%Z → integer_weights 0 (2 ^ 10) g →
  partition g cs → (2 ≤ length cs)%nat →
  (∃ i1 i2 c1 c2,
     (i1 < i2)%nat ∧ cs !! i1 = Some c1 ∧ cs !! i2 = Some c2
     ∧ Cluster.greedy_round g cs = Ok (delete i1 (<[i2 := c2 ∪ c1]> cs))
     ∧ (∀ n, Cluster.greedy_loop g (S n) cs
             = Cluster.greedy_loop g n (delete i1 (<[i2 := c2 ∪ c1]> cs)))
     ∧ ∀ j1 j2 d1 d2,
         (j1 < j2)%nat → cs !! j1 = Some d1 → cs !! j2 = Some d2 →
         value (Cluster.cross_cluster_weight g d1 d2)
         ≤ value (Cluster.cross_cluster_weight g c1 c2))
  ∧ (∀ (random : nat → nat) (k : nat),
       ∃ c1 i2 c2,
         cs !! (random k mod length cs)%nat = Some c1
         ∧ i2 ≠ (random k mod length cs)%nat ∧ cs !! i2 = Some c2
         ∧ Cluster.random_round g (random k) cs
           = Ok (delete (random k mod length cs)%nat (<[i2 := c2 ∪ c1]> cs))
         ∧ (∀ n, Cluster.random_loop g random (S n) k cs
                 = Cluster.random_loop g random n (S k)
                     (delete (random k mod length cs)%nat
                             (<[i2 := c2 ∪ c1]> cs)))
         ∧ ∀ j d, j ≠ (random k mod length cs)%nat → cs !! j = Some d →
             value (Cluster.cross_cluster_weight g c1 d)
             ≤ value (Cluster.cross_cluster_weight g c1 c2)).
Proof.
  intros _ Hw Hp Hlen.
  assert (weights_above_start g) as Hg.
  { apply (weights_between_above_start (Qc_of_Z 0) (Qc_of_Z (2 ^ 10)));
      [done|]. by apply integer_weights_between. }
  split.
  - destruct (greedy_round_best g Hg cs Hp Hlen)
      as (i1 & i2 & c1 & c2 & Hi & H1 & H2 & Hround & Hmax).
    exists i1, i2, c1, c2. split; [done|]. split; [done|]. split; [done|].
    split; [done|]. split; [|done].
    intros n. cbn [Cluster.greedy_loop]. by rewrite Hround.
  - intros random k.
    destruct (random_round_best g Hg cs Hp (random k) Hlen)
      as (c1 & i2 & c2 & H1 & Hi & H2 & Hround & Hmax).
    exists c1, i2, c2. split; [done|]. split; [done|]. split; [done|].
    split; [done|]. split; [|done].
    intros n. cbn [Cluster.random_loop]. by rewrite Hround.
Qed.

Lemma find_clusters_merge_a_closest_pair_witness :
  let g := WeightedGraph.run
             [WeightedGraph.AddVertex "a" "book";
              WeightedGraph.AddVertex "b" "book";
              WeightedGraph.AddVertex "c" "book";
              WeightedGraph.AddEdge "a" "b" (q 2);
              WeightedGraph.AddEdge "a" "c" (q 3)] in
  let cs := Cluster.singletons g in
  let random := λ k : nat, S k in
  (∃ i1 i2 c1 c2,
     (i1 < i2)%nat ∧ cs !! i1 = Some c1 ∧ cs !! i2 = Some c2
     ∧ Cluster.greedy_round g cs = Ok (delete i1 (<[i2 := c2 ∪ c1]> cs))
     ∧ (∀ n, Cluster.greedy_loop g (S n) cs
             = Cluster.greedy_loop g n (delete i1 (<[i2 := c2 ∪ c1]> cs)))
     ∧ ∀ j1 j2 d1 d2,
         (j1 < j2)%nat → cs !! j1 = Some d1 → cs !! j2 = Some d2 →
         value (Cluster.cross_cluster_weight g d1 d2)
         ≤ value (Cluster.cross_cluster_weight g c1 c2))
  ∧ ∃ c1 i2 c2,
      cs !! (random 0 mod length cs)%nat = Some c1
      ∧ i2 ≠ (random 0 mod length cs)%nat ∧ cs !! i2 = Some c2
      ∧ Cluster.random_round g (random 0%nat) cs
        = Ok (delete (random 0 mod length cs)%nat (<[i2 := c2 ∪ c1]> cs))
      ∧ (∀ n, Cluster.random_loop g random (S n) 0 cs
              = Cluster.random_loop g random n 1
                  (delete (random 0 mod length cs)%nat
                          (<[i2 := c2 ∪ c1]> cs)))
      ∧ ∀ j d, j ≠ (random 0 mod length cs)%nat → cs !! j = Some d →
          value (Cluster.cross_cluster_weight g c1 d)
          ≤ value (Cluster.cross_cluster_weight g c1 c2).
Proof.
  intros g cs random.
  assert ((Z.of_nat (size g) ≤ 2 ^ 10)%Z) as Hsize by by vm_compute.
  assert (integer_weights 0 (2 ^ 10) g) as Hw
    by (apply integer_weights_checked; by vm_compute).
  assert (2 ≤ length cs)%nat as Hlen by (vm_compute; lia).
  destruct (find_clusters_merge_a_closest_pair g cs Hsize Hw
              (proj1 (singletons_partition g)) Hlen) as [Hgreedy Hrandom].
  split; [exact Hgreedy|exact (Hrandom random 0%nat)].
Defined.

(** ** The cross-cluster weight of small weights *)

(** X21.  On a graph of at most 1024 vertices whose weights are integers
    from -1024 to 1024 (binary64 holds every sum of such weights over pairs
    of vertices, and a quotient that is an integer), for non-empty clusters
    [A] and [B] of vertices: [get_weight(u, v)] returns, for [u] in [A] and
    [v] in [B], the stored weight of the edge or 0 when there is none; when
    the weights of the pairs add up to [k * |A| * |B|] for an integer [k],
    [cross_cluster_weight(graph, A, B)] is [k]; and for singleton clusters
    [{a}] and [{b}] it is the stored weight of the edge [(a, b)], or 0 when
    there is no such edge. *)
Theorem cross_cluster_weight_of_small_weights (g : WeightedGraph.t) :
  small_weights g →
  (∀ (A B : gset string) (k : Z),
     A ≠ ∅ → B ≠ ∅ → A ⊆ dom g → B ⊆ dom g →
     (∀ u v, u ∈ A → v ∈ B →
        WeightedGraph.get_weight u v g = Ok (edge_weight g u v))
     ∧ (pair_weights g A B = Qc_of_Z k * Qc_of_nat (size A * size B) →
        Cluster.cross_cluster_weight g A B = Ok (Qc_of_Z k)))
  ∧ (∀ (a b : string) (va : WeightedGraph._WeightedVertex),
       g !! a = Some va → b ∈ dom g →
       Cluster.cross_cluster_weight g {[a]} {[b]}
       = Ok (default 0 (WeightedGraph.neighbours va !! b))).
Proof.
  intros _. split.
  - intros A B k HA HB HAg HBg. split.
    + intros u v Hu Hv. apply get_weight_present; auto.
    + intros Hk. rewrite cross_cluster_weight_Ok, Hk by done. f_equal.
      apply Qcdiv_mult_l. rewrite Qc_of_nat_eq_0.
      pose proof (size_nonempty A HA). pose proof (size_nonempty B HB).
      lia.
  - intros a b va Ha Hb.
    assert (a ∈ dom g) as Ha' by by eapply elem_of_dom_2.
    rewrite cross_cluster_weight_Ok by set_solver.
    unfold pair_weights. rewrite !elements_singleton, !size_singleton.
    simpl. unfold edge_weight. rewrite Ha. f_equal.
    change (Qc_of_nat 1) with (Qc_of_Z 1). rewrite Z2Qc_inj_1.
    rewrite (right_id 1 Qcdiv). ring.
Qed.

Lemma cross_cluster_weight_of_small_weights_witness :
  let g := WeightedGraph.run
             [WeightedGraph.AddVertex "a" "book";
              WeightedGraph.AddVertex "b" "book";
              WeightedGraph.AddVertex "c" "book";
              WeightedGraph.AddEdge "a" "b" (q 3);
              WeightedGraph.AddEdge "c" "b" (q 5)] in
  Cluster.cross_cluster_weight g {["a"]} {["b"]} = Ok (q 3)
  ∧ Cluster.cross_cluster_weight g {["a"; "c"]} {["b"]} = Ok (q 4).
Proof.
  intros g.
  assert (small_weights g) as Hg.
  { split; [by vm_compute|]. apply integer_weights_checked. by vm_compute. }
  destruct (cross_cluster_weight_of_small_weights g Hg) as [Hmean Hone].
  split.
  - rewrite (Hone "a" "b"
               (WeightedGraph.mk_WeightedVertex "book" {["b" := q 3]})).
    + reflexivity.
    + reflexivity.
    + apply elem_of_dom. vm_compute. eauto.
  - apply (Hmean {["a"; "c"]} {["b"]} 4%Z).
    + intros H. apply (f_equal elements) in H. vm_compute in H. discriminate.
    + intros H. apply (f_equal elements) in H. vm_compute in H. discriminate.
    + intros x Hx. apply elem_of_dom.
      apply elem_of_union in Hx as [Hx|Hx]; apply elem_of_singleton in Hx;
        subst x; vm_compute; eauto.
    + intros x Hx. apply elem_of_singleton in Hx. subst x.
      apply elem_of_dom. vm_compute. eauto.
    + apply Qc_is_canon. by vm_compute.
Defined.

(** * Further properties of the queries *)

(** ** Items that are not vertices *)

Lemma ranking_absent (score : string → result Qc) (books : list string)
    (book : string) (limit : Z) :
  Forall (λ v, v ≠ book ∧ score v = Raise ValueError) books →
  ranking score books book limit
  = if bool_decide (books = []) then Ok [] else Raise ValueError.
Proof.
  intros Hb. unfold ranking. destruct Hb as [|v l [Hv Hs] _]; cbn [foldM].
  - rewrite bool_decide_eq_true_2 by done. simpl.
    case_bool_decide; [done|]. unfold slice_to.
    case_bool_decide; by rewrite take_nil.
  - rewrite (bool_decide_eq_true_2 _ Hv), Hs.
    by rewrite bool_decide_eq_false_2.
Qed.

Lemma elements_nil (X : gset string) : elements X = [] ↔ X = ∅.
Proof. by rewrite elements_empty_iff, leibniz_equiv_iff. Qed.

(** X22.  For an item [a] that is not a vertex, and any item [b]:
    [adjacent] is false for [a] and [b] in either order, [get_neighbours(a)]
    and [get_similarity_score] (in either order) raise [ValueError],
    [get_weight] (in either order) raises [KeyError], and
    [recommend_books(a, limit)] raises [ValueError] when the graph has a
    vertex of kind ['book'] and returns the empty list when it has none; in
    the unweighted graph and, for every score type, in the weighted graph. *)
Theorem queries_about_an_absent_item (a b : string) (limit : Z) :
  (∀ g : Graph.t, a ∉ dom g →
     Graph.adjacent a b g = false ∧ Graph.adjacent b a g = false
     ∧ Graph.get_neighbours a g = Raise ValueError
     ∧ Graph.get_similarity_score a b g = Raise ValueError
     ∧ Graph.get_similarity_score b a g = Raise ValueError
     ∧ Graph.recommend_books a limit g
       = if bool_decide (Graph.get_all_vertices "book" g = ∅)
         then Ok [] else Raise ValueError)
  ∧ (∀ (g : WeightedGraph.t) (score_type : string), a ∉ dom g →
       WeightedGraph.adjacent a b g = false
       ∧ WeightedGraph.adjacent b a g = false
       ∧ WeightedGraph.get_neighbours a g = Raise ValueError
       ∧ WeightedGraph.get_weight a b g = Raise KeyError
       ∧ WeightedGraph.get_weight b a g = Raise KeyError
       ∧ WeightedGraph.get_similarity_score a b score_type g
         = Raise ValueError
       ∧ WeightedGraph.get_similarity_score b a score_type g
         = Raise ValueError
       ∧ WeightedGraph.recommend_books a limit score_type g
         = if bool_decide (WeightedGraph.get_all_vertices "book" g = ∅)
           then Ok [] else Raise ValueError).
Proof.
  split.
  - intros g Ha. pose proof Ha as Ha'. apply not_elem_of_dom in Ha.
    unfold Graph.adjacent, Graph.get_neighbours, Graph.get_similarity_score.
    rewrite Ha. repeat (split; [by destruct (g !! b)|]).
    rewrite Graph_recommend_books_ranking, ranking_absent.
    + by rewrite (bool_decide_ext _ _ (elements_nil _)).
    + apply Forall_forall. intros v Hv%elem_of_elements.
      apply Graph_get_all_vertices_subseteq in Hv. split; [by intros ->|].
      unfold Graph.get_similarity_score. by rewrite Ha.
  - intros g score_type Ha. pose proof Ha as Ha'.
    apply not_elem_of_dom in Ha.
    unfold WeightedGraph.adjacent, WeightedGraph.get_neighbours,
      WeightedGraph.get_similarity_score, WeightedGraph.get_weight.
    rewrite Ha. repeat (split; [by destruct (g !! b)|]).
    rewrite WeightedGraph_recommend_books_ranking, ranking_absent.
    + by rewrite (bool_decide_ext _ _ (elements_nil _)).
    + apply Forall_forall. intros v Hv%elem_of_elements.
      apply get_all_vertices_subseteq in Hv. split; [by intros ->|].
      unfold WeightedGraph.get_similarity_score. by rewrite Ha.
Qed.

Lemma queries_about_an_absent_item_witness :
  let g := Graph.run
             [Graph.AddVertex "u" "user"; Graph.AddVertex "a" "book";
              Graph.AddEdge "u" "a"] in
  Graph.adjacent "x" "a" g = false ∧ Graph.adjacent "a" "x" g = false
  ∧ Graph.get_neighbours "x" g = Raise ValueError
  ∧ Graph.get_similarity_score "x" "a" g = Raise ValueError
  ∧ Graph.get_similarity_score "a" "x" g = Raise ValueError
  ∧ Graph.recommend_books "x" 3 g
    = if bool_decide (Graph.get_all_vertices "book" g = ∅)
      then Ok [] else Raise ValueError.
Proof.
  intros g. apply (queries_about_an_absent_item "x" "a" 3).
  apply not_elem_of_dom. reflexivity.
Defined.

(** * Further properties of the loaders *)

(** ** The loops of [load_review_graph] *)

Lemma Graph_add_vertices_lookup (k : string) (l : list string) (g : Graph.t)
    (x : string) :
  foldl (λ g item, Graph.add_vertex item k g) g l !! x
  = match g !! x with
    | Some v => Some v
    | None => if decide (x ∈ l) then Some (Graph.mk_Vertex k ∅) else None
    end.
Proof.
  revert g. induction l as [|v l IH]; intros g; cbn [foldl].
  - destruct (g !! x); [done|]. destruct (decide (x ∈ [])) as [Hx|]; [|done].
    by apply elem_of_nil in Hx.
  - rewrite IH. clear IH. unfold Graph.add_vertex.
    destruct (g !! v) as [vv|] eqn:Hv.
    + destruct (g !! x) eqn:Hx; [done|].
      assert (x ≠ v) by congruence.
      repeat case_decide; set_solver.
    + rewrite lookup_insert. destruct (decide (v = x)) as [->|Hne].
      * rewrite Hv. case_decide as Hx; [done|]. destruct Hx. by left.
      * destruct (g !! x); [done|].
        repeat case_decide; set_solver.
Qed.

Lemma review_user_eq (g : Graph.t) (D : gset string) (row : list string) :
  review_user (g, D) row
  = match row with
    | u :: b :: _ => Ok (Graph.add_vertex u "user" g, D ∪ {[b]})
    | _ => Raise IndexError
    end.
Proof. by destruct row as [|u [|b row]]. Qed.

Lemma review_book_eq (books : gset string) (g : Graph.t)
    (m : gmap string string) (row : list string) :
  review_book books (g, m) row
  = match row with
    | [] => Raise IndexError
    | b :: fields =>
        if bool_decide (b ∈ books)
        then match fields with
             | name :: _ =>
                 Ok (Graph.add_vertex name "book" g, <[b := name]> m)
             | [] => Raise IndexError
             end
        else Ok (g, m)
    end.
Proof.
  destruct row as [|b [|name row]]; [done|..];
    unfold review_book; simpl; by case_bool_decide.
Qed.

Lemma review_edge_eq (m : gmap string string) (g : Graph.t)
    (row : list string) (u b name : string) :
  row !! 0%nat = Some u → row !! 1%nat = Some b → m !! b = Some name →
  is_Some (g !! u) → is_Some (g !! name) →
  review_edge m g row = Ok (Graph.add_edge u name g).2.
Proof.
  intros H0 H1 Hm Hu Hname. unfold review_edge, row_at, dict_at.
  rewrite H0, H1. cbn [mbind result_bind]. rewrite Hm.
  cbn [mbind result_bind]. by rewrite Graph_add_edge_present.
Qed.

Lemma review_edge_unnamed (m : gmap string string) (g : Graph.t)
    (row : list string) (u b : string) :
  row !! 0%nat = Some u → row !! 1%nat = Some b → m !! b = None →
  review_edge m g row = Raise KeyError.
Proof.
  intros H0 H1 Hm. unfold review_edge, row_at, dict_at.
  rewrite H0, H1. cbn [mbind result_bind]. by rewrite Hm.
Qed.

Lemma review_users_read (reviews : list (list string)) (g : Graph.t)
    (D : gset string) :
  reviews_read reviews →
  foldM review_user (g, D) reviews
  = Ok (foldl (λ g user, Graph.add_vertex user "user" g) g
              (omap (λ row, row !! 0%nat) reviews),
        D ∪ list_to_set (omap (λ row, row !! 1%nat) reviews)).
Proof.
  intros Hr. revert g D. induction Hr as [|row l Hrow _ IH]; intros g D.
  - simpl. by rewrite (right_id_L ∅ (∪) D).
  - destruct row as [|u [|b row]]; simpl in Hrow; [lia..|].
    cbn [foldM]. rewrite review_user_eq. cbn [mbind result_bind].
    rewrite IH. simpl. by rewrite (assoc_L (∪)).
Qed.

Lemma review_users_short (reviews : list (list string)) (g : Graph.t)
    (D : gset string) :
  ¬ reviews_read reviews →
  foldM review_user (g, D) reviews = Raise IndexError.
Proof.
  revert g D. induction reviews as [|row l IH]; intros g D Hr.
  - destruct Hr. constructor.
  - cbn [foldM]. rewrite review_user_eq.
    destruct row as [|u [|b row]]; [done..|].
    cbn [mbind result_bind]. apply IH.
    intros Hl. apply Hr. constructor; [simpl; lia|done].
Qed.

Lemma book_name_cons (row : list string) (names : list (list string))
    (book : string) :
  book_name (row :: names) book
  = match book_name names book with
    | Some name => Some name
    | None => named book row
    end.
Proof.
  unfold book_name. cbn [omap list_omap].
  destruct (named book row) as [name|]; [|by destruct (last _)].
  by rewrite last_cons.
Qed.

Lemma names_of_cons (books : gset string) (b : string)
    (fields : list string) (names : list (list string)) :
  names_of books ((b :: fields) :: names)
  = match fields with
    | name :: _ => if bool_decide (b ∈ books)
                   then name :: names_of books names
                   else names_of books names
    | [] => names_of books names
    end.
Proof.
  unfold names_of. cbn [omap list_omap]. simpl.
  destruct fields; by case_bool_decide.
Qed.

Lemma review_books_read (books : gset string) (names : list (list string))
    (g : Graph.t) (m : gmap string string) :
  names_read books names →
  ∃ m',
    foldM (review_book books) (g, m) names
    = Ok (foldl (λ g name, Graph.add_vertex name "book" g) g
                (names_of books names), m')
    ∧ (∀ book, book ∈ books →
         m' !! book = match book_name names book with
                      | Some name => Some name
                      | None => m !! book
                      end)
    ∧ (∀ book, book ∉ books → m' !! book = m !! book).
Proof.
  intros Hn. revert g m.
  induction Hn as [|row l (b & Hb & Hrow) _ IH]; intros g m.
  - exists m. split; [done|]. split; [|done]. by intros book _.
  - cbn [foldM]. rewrite review_book_eq.
    destruct row as [|b' fields]; [done|]. injection Hb as ->.
    rewrite names_of_cons. case_bool_decide as Hbooks.
    + destruct fields as [|name fields];
        [specialize (Hrow Hbooks); simpl in Hrow; lia|].
      cbn [mbind result_bind].
      destruct (IH (Graph.add_vertex name "book" g) (<[b := name]> m))
        as (m' & -> & Hin & Hout).
      exists m'. split; [done|]. split.
      * intros book Hbook. rewrite (Hin book Hbook), book_name_cons.
        destruct (book_name l book); [done|]. unfold named. simpl.
        rewrite lookup_insert. case_decide as Heq.
        -- subst. by rewrite bool_decide_eq_true_2.
        -- rewrite bool_decide_eq_false_2; [done|]. by intros [= ->].
      * intros book Hbook. rewrite (Hout book Hbook).
        apply lookup_insert_ne. by intros ->.
    + cbn [mbind result_bind]. destruct (IH g m) as (m' & Hrun & Hin & Hout).
      exists m'. split; [by destruct fields|]. split; [|done].
      intros book Hbook. rewrite (Hin book Hbook), book_name_cons.
      destruct (book_name l book); [done|]. unfold named. simpl.
      rewrite bool_decide_eq_false_2; [done|]. by intros [= ->].
Qed.

Lemma review_books_short (books : gset string) (names : list (list string))
    (g : Graph.t) (m : gmap string string) :
  ¬ names_read books names →
  foldM (review_book books) (g, m) names = Raise IndexError.
Proof.
  revert g m. induction names as [|row l IH]; intros g m Hn.
  - destruct Hn. constructor.
  - cbn [foldM]. rewrite review_book_eq.
    destruct row as [|b fields]; [done|]. case_bool_decide as Hb.
    + destruct fields as [|name fields]; [done|].
      cbn [mbind result_bind]. apply IH.
      intros Hl. apply Hn. constructor; [|done]. exists b.
      split; [done|]. simpl. lia.
    + cbn [mbind result_bind]. apply IH.
      intros Hl. apply Hn. constructor; [|done]. exists b. by split.
Qed.

Lemma names_of_book_name (books : gset string) (names : list (list string))
    (book name : string) :
  book ∈ books → book_name names book = Some name →
  name ∈ names_of books names.
Proof.
  intros Hbook. unfold book_name. intros Hlast%last_Some_elem_of.
  apply list_elem_of_omap in Hlast as (row & Hrow & Hnamed).
  unfold named in Hnamed. case_bool_decide as H0; [|done].
  apply list_elem_of_omap. exists row. split; [done|].
  rewrite H0. simpl. by rewrite bool_decide_eq_true_2.
Qed.

Lemma review_edges_read (m : gmap string string)
    (reviews : list (list string)) (g : Graph.t) :
  Forall (λ row, ∃ u b name,
            row !! 0%nat = Some u ∧ row !! 1%nat = Some b
            ∧ m !! b = Some name
            ∧ is_Some (g !! u) ∧ is_Some (g !! name)) reviews →
  ∃ g',
    foldM (review_edge m) g reviews = Ok g'
    ∧ (∀ x, g !! x = None → g' !! x = None)
    ∧ (∀ x vx, g !! x = Some vx →
         ∃ vx', g' !! x = Some vx'
           ∧ Graph.kind vx' = Graph.kind vx
           ∧ ∀ y, y ∈ Graph.neighbours vx'
                  ↔ y ∈ Graph.neighbours vx
                    ∨ Exists (λ row, ∃ u b name,
                                row !! 0%nat = Some u ∧ row !! 1%nat = Some b
                                ∧ m !! b = Some name
                                ∧ ((x = u ∧ y = name) ∨ (x = name ∧ y = u)))
                             reviews).
Proof.
  revert g. induction reviews as [|row l IH]; intros g Hr.
  - exists g. split; [done|]. split; [done|]. intros x vx Hx.
    exists vx. split; [done|]. split; [done|]. intros y.
    rewrite Exists_nil. tauto.
  - apply Forall_cons in Hr as [(u & b & name & H0 & H1 & Hm & Hu & Hname) Hl].
    cbn [foldM]. rewrite (review_edge_eq m g row u b name) by done.
    cbn [mbind result_bind].
    set (g1 := (Graph.add_edge u name g).2).
    destruct (IH g1) as (g' & -> & Hnone & Hsome).
    { eapply Forall_impl; [exact Hl|]. simpl.
      intros row' (u' & b' & name' & ? & ? & ? & [vu Hvu] & [vn Hvn]).
      exists u', b', name'. repeat (split; [done|]).
      destruct (Graph_add_edge_lookup g u name u' vu Hu Hname Hvu)
        as (? & ? & _).
      destruct (Graph_add_edge_lookup g u name name' vn Hu Hname Hvn)
        as (? & ? & _).
      split; by eexists. }
    exists g'. split; [done|]. split.
    + intros x Hx. apply Hnone. by apply Graph_add_edge_lookup_None.
    + intros x vx Hx.
      destruct (Graph_add_edge_lookup g u name x vx Hu Hname Hx)
        as (vx1 & Hx1 & Hk1 & Hn1).
      destruct (Hsome x vx1 Hx1) as (vx' & Hx' & Hk' & Hn').
      exists vx'. split; [done|]. split; [congruence|].
      intros y. rewrite Hn', Hn1, Exists_cons. split.
      * intros [[?|Hnew]|?]; auto. right. left.
        exists u, b, name. by repeat (split; [done|]).
      * intros [?|[(u' & b' & name' & ? & ? & ? & Hnew)|?]]; auto.
        left. right. by simplify_eq.
Qed.

Lemma review_edges_unnamed (m : gmap string string)
    (reviews : list (list string)) (g : Graph.t) :
  Forall (λ row, ∃ u b,
            row !! 0%nat = Some u ∧ row !! 1%nat = Some b
            ∧ is_Some (g !! u)
            ∧ ∀ name, m !! b = Some name → is_Some (g !! name)) reviews →
  Exists (λ row, ∃ b, row !! 1%nat = Some b ∧ m !! b = None) reviews →
  foldM (review_edge m) g reviews = Raise KeyError.
Proof.
  revert g. induction reviews as [|row l IH]; intros g Hr Hex.
  - by apply Exists_nil in Hex.
  - apply Forall_cons in Hr as [(u & b & H0 & H1 & Hu & Hname) Hl].
    cbn [foldM].
    destruct (m !! b) as [name|] eqn:Hm;
      [|by rewrite (review_edge_unnamed m g row u b)].
    specialize (Hname name eq_refl).
    rewrite (review_edge_eq m g row u b name) by done.
    cbn [mbind result_bind]. apply IH.
    + eapply Forall_impl; [exact Hl|]. simpl.
      intros row' (u' & b' & ? & ? & [vu Hvu] & Hn').
      exists u', b'. repeat (split; [done|]). split.
      * destruct (Graph_add_edge_lookup g u name u' vu Hu Hname Hvu)
          as (? & ? & _). by eexists.
      * intros name' [vn Hvn]%Hn'.
        destruct (Graph_add_edge_lookup g u name name' vn Hu Hname Hvn)
          as (? & ? & _). by eexists.
    + apply Exists_cons in Hex as [(b' & Hb' & Hnone)|Hex]; [|done].
      congruence.
Qed.

Lemma review_row (reviews : list (list string)) (row : list string) :
  reviews_read reviews → row ∈ reviews →
  ∃ u b, row !! 0%nat = Some u ∧ row !! 1%nat = Some b
         ∧ u ∈ review_users reviews ∧ b ∈ review_books reviews.
Proof.
  intros Hr Hrow. pose proof (proj1 (Forall_forall _ _) Hr row Hrow) as Hlen.
  destruct row as [|u [|b row]]; simpl in Hlen; [lia..|].
  exists u, b. split; [done|]. split; [done|].
  unfold review_users, review_books.
  rewrite !elem_of_list_to_set, !list_elem_of_omap.
  split; by eexists.
Qed.

(** The graph and the dict with which the third loop of
    [load_review_graph] starts. *)
Lemma review_loops (reviews names : list (list string)) :
  reviews_read reviews → names_read (review_books reviews) names →
  ∃ g m,
    load_review_graph reviews names = foldM (review_edge m) g reviews
    ∧ (∀ book, book ∈ review_books reviews →
         m !! book = book_name names book)
    ∧ (∀ x, g !! x
            = if bool_decide (x ∈ review_users reviews)
              then Some (Graph.mk_Vertex "user" ∅)
              else if bool_decide
                        (x ∈ names_of (review_books reviews) names)
                   then Some (Graph.mk_Vertex "book" ∅)
                   else None).
Proof.
  intros Hr Hn. unfold load_review_graph.
  rewrite review_users_read by done. cbn [mbind result_bind].
  rewrite (left_id_L ∅ (∪)). fold (review_books reviews).
  destruct (review_books_read (review_books reviews) names
              (foldl (λ g user, Graph.add_vertex user "user" g) Graph.empty
                     (omap (λ row, row !! 0%nat) reviews)) ∅ Hn)
    as (m & -> & Hin & _).
  cbn [mbind result_bind]. eexists _, m. split; [done|]. split.
  - intros book Hbook. rewrite (Hin book Hbook), lookup_empty.
    by destruct (book_name names book).
  - intros x. rewrite !Graph_add_vertices_lookup.
    unfold Graph.empty. rewrite lookup_empty.
    unfold review_users.
    destruct (decide (x ∈ omap (λ row, row !! 0%nat) reviews)) as [Hu|Hu].
    + by rewrite bool_decide_eq_true_2 by by apply elem_of_list_to_set.
    + rewrite (bool_decide_eq_false_2 (x ∈ list_to_set _))
        by by rewrite elem_of_list_to_set.
      destruct (decide (x ∈ names_of (review_books reviews) names)).
      * by rewrite bool_decide_eq_true_2.
      * by rewrite bool_decide_eq_false_2.
Qed.

(** X23.  On rows of reviews that each have a user and a book, and rows of
    names that each have a book and, if the book is reviewed, a name, with
    a name for every book reviewed, [load_review_graph] returns a graph.
    Its vertices are the users and the names of the books reviewed; the
    users are of kind ['user'] and the names that are not also users of
    kind ['book']; and two items are adjacent exactly when a row of
    reviews has the one as its user and a book whose name, that of the
    last row of names for it, is the other. *)
Theorem load_review_graph_reads_the_reviews
    (reviews names : list (list string)) :
  reviews_read reviews → names_read (review_books reviews) names →
  (∀ book, book ∈ review_books reviews → is_Some (book_name names book)) →
  ∃ g,
    load_review_graph reviews names = Ok g
    ∧ (∀ k, Graph.get_all_vertices k g
            = if bool_decide (k = "")
              then review_users reviews
                   ∪ list_to_set (names_of (review_books reviews) names)
              else if bool_decide (k = "user") then review_users reviews
              else if bool_decide (k = "book")
              then list_to_set (names_of (review_books reviews) names)
                   ∖ review_users reviews
              else ∅)
    ∧ (∀ x y, Graph.adjacent x y g = true
              ↔ Exists (λ row, reviews_book names x y row
                               ∨ reviews_book names y x row) reviews).
Proof.
  intros Hr Hn Hnamed.
  destruct (review_loops reviews names Hr Hn) as (g & m & -> & Hm & Hg).
  assert (∀ row, row ∈ reviews →
            ∃ u b name, row !! 0%nat = Some u ∧ row !! 1%nat = Some b
              ∧ m !! b = Some name ∧ book_name names b = Some name
              ∧ is_Some (g !! u) ∧ is_Some (g !! name)) as Hrows.
  { intros row (u & b & H0 & H1 & Hu & Hb)%(review_row _ _ Hr).
    destruct (Hnamed b Hb) as [name Hname].
    exists u, b, name. split; [done|]. split; [done|].
    split; [by rewrite Hm|]. split; [done|].
    pose proof (names_of_book_name _ _ _ _ Hb Hname).
    split.
    - rewrite Hg, bool_decide_eq_true_2 by done. by eexists.
    - rewrite Hg. case_bool_decide; [by eexists|].
      rewrite bool_decide_eq_true_2 by done. by eexists. }
  destruct (review_edges_read m reviews g) as (g' & -> & Hnone & Hsome).
  { apply Forall_forall. intros row (u & b & name & ?)%Hrows.
    exists u, b, name. tauto. }
  exists g'. split; [done|].
  assert (∀ x y vx', g' !! x = Some vx' →
            (y ∈ Graph.neighbours vx'
             ↔ Exists (λ row, reviews_book names x y row
                              ∨ reviews_book names y x row) reviews))
    as Hnb.
  { intros x y vx' Hx'. destruct (g !! x) as [vx|] eqn:Hx;
      [|by rewrite (Hnone x Hx) in Hx'].
    destruct (Hsome x vx Hx) as (vx'' & Hx'' & _ & Hiff).
    assert (vx'' = vx') as -> by congruence.
    assert (Graph.neighbours vx = ∅) as Hempty.
    { rewrite Hg in Hx. repeat case_bool_decide; by simplify_eq. }
    rewrite Hiff, Hempty, !Exists_exists. split.
    - intros [?|(row & Hrow & u & b & name & H0 & H1 & Hmb & Hends)];
        [set_solver|].
      exists row. split; [done|].
      destruct (Hrows row Hrow) as (u' & b' & name' & ? & ? & ? & ? & _).
      simplify_eq.
      destruct Hends as [[-> ->]|[-> ->]]; [left|right]; by exists b.
    - intros (row & Hrow & Hends). right. exists row. split; [done|].
      destruct (Hrows row Hrow) as (u & b & name & H0 & H1 & Hmb & Hb & _).
      exists u, b, name. repeat (split; [done|]).
      destruct Hends as [(b' & ? & ? & ?)|(b' & ? & ? & ?)];
        simplify_eq; auto. }
  assert (∀ x, g' !! x
               = (λ v, Graph.mk_Vertex (Graph.kind v) (Graph.neighbours
                    (default v (g' !! x)))) <$> g !! x) as Hg'.
  { intros x. destruct (g !! x) as [vx|] eqn:Hx; simpl.
    - destruct (Hsome x vx Hx) as (vx' & -> & Hk & _). simpl.
      destruct vx'. simpl in *. by subst.
    - by apply Hnone. }
  split.
  - intros k. apply set_eq. intros x.
    rewrite (Graph_get_all_vertices_iff g'), Hg', Hg.
    clear. repeat case_bool_decide; simplify_eq/=; set_solver.
  - intros x y. rewrite Graph_adjacent_iff. split.
    + intros (vx' & Hx' & _ & Hy). by apply (Hnb x y vx').
    + intros Hex. pose proof Hex as Hex'.
      apply Exists_exists in Hex' as (row & Hrow & Hends).
      destruct (Hrows row Hrow)
        as (u & b & name & H0 & H1 & Hmb & Hb & [vu Hu] & [vn Hname]).
      destruct (Hsome u vu Hu) as (vu' & Hu' & _).
      destruct (Hsome name vn Hname) as (vn' & Hname' & _).
      destruct Hends as [(b' & ? & ? & ?)|(b' & ? & ? & ?)]; simplify_eq.
      * exists vu'. split; [done|]. split; [by eexists|].
        by apply (Hnb x y vu').
      * exists vn'. split; [done|]. split; [by eexists|].
        by apply (Hnb x y vn').
Qed.

Lemma load_review_graph_reads_the_reviews_witness :
  let reviews := [["u1"; "b1"; "5"]; ["u2"; "b1"; "3"]; ["u1"; "b2"; "4"]] in
  let names := [["b1"; "Dune"]; ["b2"; "Emma"]; ["b3"; "Ulysses"]] in
  ∃ g,
    load_review_graph reviews names = Ok g
    ∧ (∀ k, Graph.get_all_vertices k g
            = if bool_decide (k = "")
              then review_users reviews
                   ∪ list_to_set (names_of (review_books reviews) names)
              else if bool_decide (k = "user") then review_users reviews
              else if bool_decide (k = "book")
              then list_to_set (names_of (review_books reviews) names)
                   ∖ review_users reviews
              else ∅)
    ∧ (∀ x y, Graph.adjacent x y g = true
              ↔ Exists (λ row, reviews_book names x y row
                               ∨ reviews_book names y x row) reviews).
Proof.
  intros reviews names.
  apply (load_review_graph_reads_the_reviews reviews names).
  - repeat constructor; simpl; lia.
  - repeat constructor; eexists; (split; [reflexivity|]); simpl; lia.
  - intros book Hbook. apply elem_of_list_to_set in Hbook. simpl in Hbook.
    repeat (apply elem_of_cons in Hbook as [->|Hbook]);
      [by eexists..|by apply elem_of_nil in Hbook].
Defined.

(** X24.  [load_review_graph] raises [IndexError] when a row of reviews has
    fewer than two fields; with such rows of reviews, it raises
    [IndexError] when a row of names is empty or is the row of a reviewed
    book and has one field only; and with rows that can be read, it raises
    [KeyError] when a reviewed book has no row of names. *)
Theorem load_review_graph_raises (reviews names : list (list string)) :
  (¬ reviews_read reviews →
   load_review_graph reviews names = Raise IndexError)
  ∧ (reviews_read reviews → ¬ names_read (review_books reviews) names →
     load_review_graph reviews names = Raise IndexError)
  ∧ (reviews_read reviews → names_read (review_books reviews) names →
     (∃ book, book ∈ review_books reviews ∧ book_name names book = None) →
     load_review_graph reviews names = Raise KeyError).
Proof.
  split; [|split].
  - intros Hr. unfold load_review_graph.
    by rewrite review_users_short.
  - intros Hr Hn. unfold load_review_graph.
    rewrite review_users_read by done. cbn [mbind result_bind].
    rewrite review_books_short; [done|].
    by rewrite (left_id_L ∅ (∪)).
  - intros Hr Hn (book & Hbook & Hnone).
    destruct (review_loops reviews names Hr Hn) as (g & m & -> & Hm & Hg).
    apply review_edges_unnamed.
    + apply Forall_forall.
      intros row (u & b & H0 & H1 & Hu & Hb)%(review_row _ _ Hr).
      exists u, b. split; [done|]. split; [done|]. split.
      * rewrite Hg, bool_decide_eq_true_2 by done. by eexists.
      * intros name Hname. rewrite (Hm b Hb) in Hname.
        pose proof (names_of_book_name _ _ _ _ Hb Hname).
        rewrite Hg. case_bool_decide; [by eexists|].
        rewrite bool_decide_eq_true_2 by done. by eexists.
    + unfold review_books in Hbook.
      apply elem_of_list_to_set, list_elem_of_omap in Hbook
        as (row & Hrow & H1).
      apply Exists_exists. exists row. split; [done|]. exists book.
      split; [done|]. rewrite Hm; [done|].
      unfold review_books.
      apply elem_of_list_to_set, list_elem_of_omap. by exists row.
Qed.

Lemma load_review_graph_raises_witness :
  load_review_graph [["u1"; "b1"; "5"]; ["u2"]] [["b1"; "Dune"]]
  = Raise IndexError
  ∧ load_review_graph [["u1"; "b1"; "5"]] [["b1"]] = Raise IndexError
  ∧ load_review_graph [["u1"; "b1"; "5"]; ["u2"; "b2"; "1"]] [["b1"; "Dune"]]
    = Raise KeyError.
Proof.
  split; [|split].
  - apply (proj1 (load_review_graph_raises [["u1"; "b1"; "5"]; ["u2"]]
                    [["b1"; "Dune"]])).
    intros H. apply Forall_cons in H as [_ H].
    apply Forall_cons in H as [H _]. simpl in H. lia.
  - apply (proj1 (proj2 (load_review_graph_raises [["u1"; "b1"; "5"]]
                           [["b1"]]))).
    + repeat constructor; simpl; lia.
    + intros H. apply Forall_cons in H as [(book & [= <-] & H) _].
      assert (2 ≤ 1)%nat; [|lia]. apply H.
      apply elem_of_list_to_set. simpl. by left.
  - apply (proj2 (proj2 (load_review_graph_raises
                           [["u1"; "b1"; "5"]; ["u2"; "b2"; "1"]]
                           [["b1"; "Dune"]]))).
    + repeat constructor; simpl; lia.
    + repeat constructor; eexists; (split; [reflexivity|]); simpl; lia.
    + exists "b2". split; [|reflexivity].
      apply elem_of_list_to_set. simpl. right. by left.
Defined.

(** ** The loops of [load_weighted_review_graph] *)

Lemma WeightedGraph_add_vertices_lookup (k : string) (l : list string)
    (g : WeightedGraph.t) (x : string) :
  foldl (λ g item, WeightedGraph.add_vertex item k g) g l !! x
  = match g !! x with
    | Some v => Some v
    | None => if decide (x ∈ l)
              then Some (WeightedGraph.mk_WeightedVertex k ∅)
              else None
    end.
Proof.
  revert g. induction l as [|v l IH]; intros g; cbn [foldl].
  - destruct (g !! x); [done|]. destruct (decide (x ∈ [])) as [Hx|]; [|done].
    by apply elem_of_nil in Hx.
  - rewrite IH. clear IH. unfold WeightedGraph.add_vertex.
    destruct (g !! v) as [vv|] eqn:Hv.
    + destruct (g !! x) eqn:Hx; [done|].
      assert (x ≠ v) by congruence.
      repeat case_decide; set_solver.
    + rewrite lookup_insert. destruct (decide (v = x)) as [->|Hne].
      * rewrite Hv. case_decide as Hx; [done|]. destruct Hx. by left.
      * destruct (g !! x); [done|].
        repeat case_decide; set_solver.
Qed.

Lemma weighted_review_user_eq (g : WeightedGraph.t) (D : gset string)
    (row : list string) :
  weighted_review_user (g, D) row
  = match row with
    | u :: b :: _ => Ok (WeightedGraph.add_vertex u "user" g, D ∪ {[b]})
    | _ => Raise IndexError
    end.
Proof. by destruct row as [|u [|b row]]. Qed.

Lemma weighted_review_book_eq (books : gset string) (g : WeightedGraph.t)
    (m : gmap string string) (row : list string) :
  weighted_review_book books (g, m) row
  = match row with
    | [] => Raise IndexError
    | b :: fields =>
        if bool_decide (b ∈ books)
        then match fields with
             | name :: _ =>
                 Ok (WeightedGraph.add_vertex name "book" g, <[b := name]> m)
             | [] => Raise IndexError
             end
        else Ok (g, m)
    end.
Proof.
  destruct row as [|b [|name row]]; [done|..];
    unfold weighted_review_book; simpl; by case_bool_decide.
Qed.

Lemma weighted_review_edge_eq (int : string → option Z)
    (m : gmap string string) (g : WeightedGraph.t) (row : list string)
    (u b name field : string) (n : Z) :
  row !! 0%nat = Some u → row !! 1%nat = Some b → m !! b = Some name →
  row !! 2%nat = Some field → int field = Some n →
  is_Some (g !! u) → is_Some (g !! name) →
  weighted_review_edge int m g row
  = Ok (WeightedGraph.add_edge u name (Qc_of_Z n) g).2.
Proof.
  intros H0 H1 Hm H2 Hint Hu Hname.
  unfold weighted_review_edge, row_at, dict_at, int_of.
  rewrite H0, H1. cbn [mbind result_bind]. rewrite Hm.
  cbn [mbind result_bind]. rewrite H2. cbn [mbind result_bind].
  rewrite Hint. cbn [mbind result_bind].
  by rewrite WeightedGraph_add_edge_present.
Qed.

Lemma weighted_review_edge_unnamed (int : string → option Z)
    (m : gmap string string) (g : WeightedGraph.t) (row : list string)
    (u b : string) :
  row !! 0%nat = Some u → row !! 1%nat = Some b → m !! b = None →
  weighted_review_edge int m g row = Raise KeyError.
Proof.
  intros H0 H1 Hm. unfold weighted_review_edge, row_at, dict_at.
  rewrite H0, H1. cbn [mbind result_bind]. by rewrite Hm.
Qed.

Lemma weighted_review_edge_unrated (int : string → option Z)
    (m : gmap string string) (g : WeightedGraph.t) (row : list string)
    (u b name : string) (e : exn) :
  row !! 0%nat = Some u → row !! 1%nat = Some b → m !! b = Some name →
  unrated int row e →
  weighted_review_edge int m g row = Raise e.
Proof.
  intros H0 H1 Hm. unfold unrated, weighted_review_edge, row_at, dict_at,
    int_of.
  rewrite H0, H1. cbn [mbind result_bind]. rewrite Hm.
  cbn [mbind result_bind].
  destruct (row !! 2%nat) as [field|]; [|by intros ->].
  cbn [mbind result_bind]. by intros [-> ->].
Qed.

Lemma weighted_review_users_read (reviews : list (list string))
    (g : WeightedGraph.t) (D : gset string) :
  reviews_read reviews →
  foldM weighted_review_user (g, D) reviews
  = Ok (foldl (λ g user, WeightedGraph.add_vertex user "user" g) g
              (omap (λ row, row !! 0%nat) reviews),
        D ∪ list_to_set (omap (λ row, row !! 1%nat) reviews)).
Proof.
  intros Hr. revert g D. induction Hr as [|row l Hrow _ IH]; intros g D.
  - simpl. by rewrite (right_id_L ∅ (∪) D).
  - destruct row as [|u [|b row]]; simpl in Hrow; [lia..|].
    cbn [foldM]. rewrite weighted_review_user_eq. cbn [mbind result_bind].
    rewrite IH. simpl. by rewrite (assoc_L (∪)).
Qed.

Lemma weighted_review_users_short (reviews : list (list string))
    (g : WeightedGraph.t) (D : gset string) :
  ¬ reviews_read reviews →
  foldM weighted_review_user (g, D) reviews = Raise IndexError.
Proof.
  revert g D. induction reviews as [|row l IH]; intros g D Hr.
  - destruct Hr. constructor.
  - cbn [foldM]. rewrite weighted_review_user_eq.
    destruct row as [|u [|b row]]; [done..|].
    cbn [mbind result_bind]. apply IH.
    intros Hl. apply Hr. constructor; [simpl; lia|done].
Qed.

Lemma weighted_review_books_read (books : gset string)
    (names : list (list string)) (g : WeightedGraph.t)
    (m : gmap string string) :
  names_read books names →
  ∃ m',
    foldM (weighted_review_book books) (g, m) names
    = Ok (foldl (λ g name, WeightedGraph.add_vertex name "book" g) g
                (names_of books names), m')
    ∧ (∀ book, book ∈ books →
         m' !! book = match book_name names book with
                      | Some name => Some name
                      | None => m !! book
                      end)
    ∧ (∀ book, book ∉ books → m' !! book = m !! book).
Proof.
  intros Hn. revert g m.
  induction Hn as [|row l (b & Hb & Hrow) _ IH]; intros g m.
  - exists m. split; [done|]. split; [|done]. by intros book _.
  - cbn [foldM]. rewrite weighted_review_book_eq.
    destruct row as [|b' fields]; [done|]. injection Hb as ->.
    rewrite names_of_cons. case_bool_decide as Hbooks.
    + destruct fields as [|name fields];
        [specialize (Hrow Hbooks); simpl in Hrow; lia|].
      cbn [mbind result_bind].
      destruct (IH (WeightedGraph.add_vertex name "book" g)
                  (<[b := name]> m)) as (m' & -> & Hin & Hout).
      exists m'. split; [done|]. split.
      * intros book Hbook. rewrite (Hin book Hbook), book_name_cons.
        destruct (book_name l book); [done|]. unfold named. simpl.
        rewrite lookup_insert. case_decide as Heq.
        -- subst. by rewrite bool_decide_eq_true_2.
        -- rewrite bool_decide_eq_false_2; [done|]. by intros [= ->].
      * intros book Hbook. rewrite (Hout book Hbook).
        apply lookup_insert_ne. by intros ->.
    + cbn [mbind result_bind]. destruct (IH g m) as (m' & Hrun & Hin & Hout).
      exists m'. split; [by destruct fields|]. split; [|done].
      intros book Hbook. rewrite (Hin book Hbook), book_name_cons.
      destruct (book_name l book); [done|]. unfold named. simpl.
      rewrite bool_decide_eq_false_2; [done|]. by intros [= ->].
Qed.

Lemma weighted_review_books_short (books : gset string)
    (names : list (list string)) (g : WeightedGraph.t)
    (m : gmap string string) :
  ¬ names_read books names →
  foldM (weighted_review_book books) (g, m) names = Raise IndexError.
Proof.
  revert g m. induction names as [|row l IH]; intros g m Hn.
  - destruct Hn. constructor.
  - cbn [foldM]. rewrite weighted_review_book_eq.
    destruct row as [|b fields]; [done|]. case_bool_decide as Hb.
    + destruct fields as [|name fields]; [done|].
      cbn [mbind result_bind]. apply IH.
      intros Hl. apply Hn. constructor; [|done]. exists b.
      split; [done|]. simpl. lia.
    + cbn [mbind result_bind]. apply IH.
      intros Hl. apply Hn. constructor; [|done]. exists b. by split.
Qed.

Lemma rated_row (title : string → option string) (int : string → option Z)
    (x y : string) (row : list string) (u b name field : string) (n : Z) :
  row !! 0%nat = Some u → row !! 1%nat = Some b → title b = Some name →
  row !! 2%nat = Some field → int field = Some n →
  rated title int x y row
  = if bool_decide ((x = u ∧ y = name) ∨ (x = name ∧ y = u))
    then Some n else None.
Proof.
  intros H0 H1 Ht H2 Hint. unfold rated. rewrite H0, H1. simpl.
  rewrite Ht. simpl. rewrite H2. simpl. by rewrite Hint.
Qed.

Lemma weighted_review_edges_read (int : string → option Z)
    (m : gmap string string) (reviews : list (list string))
    (g : WeightedGraph.t) :
  Forall (λ row, ∃ u b name field n,
            row !! 0%nat = Some u ∧ row !! 1%nat = Some b
            ∧ m !! b = Some name
            ∧ row !! 2%nat = Some field ∧ int field = Some n
            ∧ is_Some (g !! u) ∧ is_Some (g !! name)) reviews →
  ∃ g',
    foldM (weighted_review_edge int m) g reviews = Ok g'
    ∧ (∀ x, g !! x = None → g' !! x = None)
    ∧ (∀ x vx, g !! x = Some vx →
         ∃ vx', g' !! x = Some vx'
           ∧ WeightedGraph.kind vx' = WeightedGraph.kind vx
           ∧ ∀ y, WeightedGraph.neighbours vx' !! y
                  = match last (omap (rated (λ b, m !! b) int x y) reviews)
                    with
                    | Some n => Some (Qc_of_Z n)
                    | None => WeightedGraph.neighbours vx !! y
                    end).
Proof.
  revert g. induction reviews as [|row l IH]; intros g Hr.
  - exists g. split; [done|]. split; [done|]. intros x vx Hx.
    exists vx. split; [done|]. split; [done|]. done.
  - apply Forall_cons in Hr
      as [(u & b & name & field & n & H0 & H1 & Hm & H2 & Hint & Hu & Hname)
          Hl].
    cbn [foldM].
    rewrite (weighted_review_edge_eq int m g row u b name field n) by done.
    cbn [mbind result_bind].
    set (g1 := (WeightedGraph.add_edge u name (Qc_of_Z n) g).2).
    destruct (IH g1) as (g' & -> & Hnone & Hsome).
    { eapply Forall_impl; [exact Hl|]. simpl.
      intros row' (u' & b' & name' & field' & n' & ? & ? & ? & ? & ?
                   & [vu Hvu] & [vn Hvn]).
      exists u', b', name', field', n'. repeat (split; [done|]).
      destruct (WeightedGraph_add_edge_lookup g u name u' (Qc_of_Z n) vu
                  Hu Hname Hvu) as (? & ? & _).
      destruct (WeightedGraph_add_edge_lookup g u name name' (Qc_of_Z n) vn
                  Hu Hname Hvn) as (? & ? & _).
      split; by eexists. }
    exists g'. split; [done|]. split.
    + intros x Hx. apply Hnone. by apply WeightedGraph_add_edge_lookup_None.
    + intros x vx Hx.
      destruct (WeightedGraph_add_edge_lookup g u name x (Qc_of_Z n) vx
                  Hu Hname Hx) as (vx1 & Hx1 & Hk1 & Hn1).
      destruct (Hsome x vx1 Hx1) as (vx' & Hx' & Hk' & Hn').
      exists vx'. split; [done|]. split; [congruence|].
      intros y. rewrite Hn', Hn1. cbn [omap list_omap].
      rewrite (rated_row _ int x y row u b name field n) by done.
      case_bool_decide; [|done].
      rewrite last_cons. by destruct (last _).
Qed.

Lemma weighted_review_edges_unnamed (int : string → option Z)
    (m : gmap string string) (reviews : list (list string))
    (g : WeightedGraph.t) :
  Forall (λ row, ∃ u b field n,
            row !! 0%nat = Some u ∧ row !! 1%nat = Some b
            ∧ row !! 2%nat = Some field ∧ int field = Some n
            ∧ is_Some (g !! u)
            ∧ ∀ name, m !! b = Some name → is_Some (g !! name)) reviews →
  Exists (λ row, ∃ b, row !! 1%nat = Some b ∧ m !! b = None) reviews →
  foldM (weighted_review_edge int m) g reviews = Raise KeyError.
Proof.
  revert g. induction reviews as [|row l IH]; intros g Hr Hex.
  - by apply Exists_nil in Hex.
  - apply Forall_cons in Hr
      as [(u & b & field & n & H0 & H1 & H2 & Hint & Hu & Hname) Hl].
    cbn [foldM].
    destruct (m !! b) as [name|] eqn:Hm;
      [|by rewrite (weighted_review_edge_unnamed int m g row u b)].
    specialize (Hname name eq_refl).
    rewrite (weighted_review_edge_eq int m g row u b name field n) by done.
    cbn [mbind result_bind]. apply IH.
    + eapply Forall_impl; [exact Hl|]. simpl.
      intros row' (u' & b' & field' & n' & ? & ? & ? & ? & [vu Hvu] & Hn').
      exists u', b', field', n'. repeat (split; [done|]). split.
      * destruct (WeightedGraph_add_edge_lookup g u name u' (Qc_of_Z n) vu
                    Hu Hname Hvu) as (? & ? & _). by eexists.
      * intros name' [vn Hvn]%Hn'.
        destruct (WeightedGraph_add_edge_lookup g u name name' (Qc_of_Z n)
                    vn Hu Hname Hvn) as (? & ? & _). by eexists.
    + apply Exists_cons in Hex as [(b' & Hb' & Hnone)|Hex]; [|done].
      congruence.
Qed.

Lemma weighted_review_edges_unrated (int : string → option Z)
    (m : gmap string string) (l1 : list (list string)) (row : list string)
    (l2 : list (list string)) (g : WeightedGraph.t) (e : exn) :
  Forall (λ row, ∃ u b name,
            row !! 0%nat = Some u ∧ row !! 1%nat = Some b
            ∧ m !! b = Some name
            ∧ is_Some (g !! u) ∧ is_Some (g !! name)) (l1 ++ row :: l2) →
  ratings_read int l1 → unrated int row e →
  foldM (weighted_review_edge int m) g (l1 ++ row :: l2) = Raise e.
Proof.
  revert g. induction l1 as [|row1 l1 IH]; intros g Hr Hl1 Hrow.
  - apply Forall_cons in Hr as [(u & b & name & H0 & H1 & Hm & _) _].
    cbn [foldM app].
    by rewrite (weighted_review_edge_unrated int m g row u b name e).
  - apply Forall_cons in Hr as [(u & b & name & H0 & H1 & Hm & Hu & Hname) Hl].
    apply Forall_cons in Hl1 as [(field & H2 & [n Hint]) Hl1].
    cbn [foldM app].
    rewrite (weighted_review_edge_eq int m g row1 u b name field n) by done.
    cbn [mbind result_bind]. apply IH; [|done..].
    eapply Forall_impl; [exact Hl|]. simpl.
    intros row' (u' & b' & name' & ? & ? & ? & [vu Hvu] & [vn Hvn]).
    exists u', b', name'. repeat (split; [done|]).
    destruct (WeightedGraph_add_edge_lookup g u name u' (Qc_of_Z n) vu
                Hu Hname Hvu) as (? & ? & _).
    destruct (WeightedGraph_add_edge_lookup g u name name' (Qc_of_Z n) vn
                Hu Hname Hvn) as (? & ? & _).
    split; by eexists.
Qed.

(** The graph and the dict with which the third loop of
    [load_weighted_review_graph] starts. *)
Lemma weighted_review_loops (int : string → option Z)
    (reviews names : list (list string)) :
  reviews_read reviews → names_read (review_books reviews) names →
  ∃ g m,
    load_weighted_review_graph int reviews names
    = foldM (weighted_review_edge int m) g reviews
    ∧ (∀ book, book ∈ review_books reviews →
         m !! book = book_name names book)
    ∧ (∀ x, g !! x
            = if bool_decide (x ∈ review_users reviews)
              then Some (WeightedGraph.mk_WeightedVertex "user" ∅)
              else if bool_decide
                        (x ∈ names_of (review_books reviews) names)
                   then Some (WeightedGraph.mk_WeightedVertex "book" ∅)
                   else None).
Proof.
  intros Hr Hn. unfold load_weighted_review_graph.
  rewrite weighted_review_users_read by done. cbn [mbind result_bind].
  rewrite (left_id_L ∅ (∪)). fold (review_books reviews).
  destruct (weighted_review_books_read (review_books reviews) names
              (foldl (λ g user, WeightedGraph.add_vertex user "user" g)
                     WeightedGraph.empty
                     (omap (λ row, row !! 0%nat) reviews)) ∅ Hn)
    as (m & -> & Hin & _).
  cbn [mbind result_bind]. eexists _, m. split; [done|]. split.
  - intros book Hbook. rewrite (Hin book Hbook), lookup_empty.
    by destruct (book_name names book).
  - intros x. rewrite !WeightedGraph_add_vertices_lookup.
    unfold WeightedGraph.empty. rewrite lookup_empty.
    unfold review_users.
    destruct (decide (x ∈ omap (λ row, row !! 0%nat) reviews)) as [Hu|Hu].
    + by rewrite bool_decide_eq_true_2 by by apply elem_of_list_to_set.
    + rewrite (bool_decide_eq_false_2 (x ∈ list_to_set _))
        by by rewrite elem_of_list_to_set.
      destruct (decide (x ∈ names_of (review_books reviews) names)).
      * by rewrite bool_decide_eq_true_2.
      * by rewrite bool_decide_eq_false_2.
Qed.

Lemma ratings_read_reviews_read (int : string → option Z)
    (reviews : list (list string)) :
  ratings_read int reviews → reviews_read reviews.
Proof.
  intros Hr. eapply Forall_impl; [exact Hr|]. simpl.
  intros row (field & H2%lookup_lt_Some & _). lia.
Qed.

Lemma omap_ext_in {A B : Type} (f f' : A → option B) (l : list A) :
  (∀ x, x ∈ l → f x = f' x) → omap f l = omap f' l.
Proof.
  induction l as [|x l IH]; intros Hf; [done|]. cbn [omap list_omap].
  rewrite (Hf x) by by left. rewrite IH; [done|].
  intros y Hy. apply Hf. by right.
Qed.

Lemma rated_ext (title title' : string → option string)
    (int : string → option Z) (x y : string) (row : list string) :
  (∀ b, row !! 1%nat = Some b → title b = title' b) →
  rated title int x y row = rated title' int x y row.
Proof.
  intros Ht. unfold rated. destruct (row !! 0%nat); [|done]. simpl.
  destruct (row !! 1%nat) as [b|]; [|done]. simpl. by rewrite (Ht b).
Qed.

(** X25.  On rows of reviews that each have a user, a book and a rating
    that [int] reads, and rows of names that each have a book and, if the
    book is reviewed, a name, with a name for every book reviewed,
    [load_weighted_review_graph] returns a graph.  Its vertices are the
    users, of kind ['user'], and the names of the books reviewed, of kind
    ['book'] unless they are users too; two items are adjacent exactly when
    a row of reviews has the one as its user and a book whose name is the
    other; and the weight of their edge is the rating of the last such
    row. *)
Theorem load_weighted_review_graph_reads_the_ratings
    (int : string → option Z) (reviews names : list (list string)) :
  ratings_read int reviews → names_read (review_books reviews) names →
  (∀ book, book ∈ review_books reviews → is_Some (book_name names book)) →
  ∃ g,
    load_weighted_review_graph int reviews names = Ok g
    ∧ (∀ k, WeightedGraph.get_all_vertices k g
            = if bool_decide (k = "")
              then review_users reviews
                   ∪ list_to_set (names_of (review_books reviews) names)
              else if bool_decide (k = "user") then review_users reviews
              else if bool_decide (k = "book")
              then list_to_set (names_of (review_books reviews) names)
                   ∖ review_users reviews
              else ∅)
    ∧ (∀ x y, WeightedGraph.adjacent x y g = true
              ↔ is_Some (rating names int reviews x y))
    ∧ (∀ x y, x ∈ dom g → y ∈ dom g →
         WeightedGraph.get_weight x y g
         = Ok (from_option Qc_of_Z 0 (rating names int reviews x y))).
Proof.
  intros Hrt Hn Hnamed.
  pose proof (ratings_read_reviews_read int reviews Hrt) as Hr.
  destruct (weighted_review_loops int reviews names Hr Hn)
    as (g & m & -> & Hm & Hg).
  assert (∀ row, row ∈ reviews →
            ∃ u b name field n,
              row !! 0%nat = Some u ∧ row !! 1%nat = Some b
              ∧ m !! b = Some name
              ∧ row !! 2%nat = Some field ∧ int field = Some n
              ∧ is_Some (g !! u) ∧ is_Some (g !! name)) as Hrows.
  { intros row Hrow.
    destruct (review_row _ _ Hr Hrow) as (u & b & H0 & H1 & Hu & Hb).
    destruct (proj1 (Forall_forall _ _) Hrt row Hrow)
      as (field & H2 & [n Hint]).
    destruct (Hnamed b Hb) as [name Hname].
    exists u, b, name, field, n. repeat (split; [done|]).
    split; [by rewrite Hm|]. split; [done|]. split; [done|].
    pose proof (names_of_book_name _ _ _ _ Hb Hname).
    split.
    - rewrite Hg, bool_decide_eq_true_2 by done. by eexists.
    - rewrite Hg. case_bool_decide; [by eexists|].
      rewrite bool_decide_eq_true_2 by done. by eexists. }
  destruct (weighted_review_edges_read int m reviews g)
    as (g' & -> & Hnone & Hsome).
  { apply Forall_forall. intros row Hrow. by apply Hrows. }
  exists g'. split; [done|].
  assert (∀ x y vx', g' !! x = Some vx' →
            WeightedGraph.neighbours vx' !! y
            = Qc_of_Z <$> rating names int reviews x y) as Hnb.
  { intros x y vx' Hx'. destruct (g !! x) as [vx|] eqn:Hx;
      [|by rewrite (Hnone x Hx) in Hx'].
    destruct (Hsome x vx Hx) as (vx'' & Hx'' & _ & Heq).
    assert (vx'' = vx') as -> by congruence. rewrite Heq.
    assert (WeightedGraph.neighbours vx = ∅) as ->.
    { rewrite Hg in Hx. repeat case_bool_decide; by simplify_eq. }
    rewrite lookup_empty. unfold rating.
    rewrite (omap_ext_in (rated (λ b, m !! b) int x y)
                         (rated (book_name names) int x y)).
    { by destruct (last _). }
    intros row Hrow. apply rated_ext. intros b Hb. apply Hm.
    unfold review_books. apply elem_of_list_to_set, list_elem_of_omap.
    by exists row. }
  assert (∀ x, g' !! x
               = (λ v, WeightedGraph.mk_WeightedVertex
                         (WeightedGraph.kind v)
                         (WeightedGraph.neighbours (default v (g' !! x))))
                 <$> g !! x) as Hg'.
  { intros x. destruct (g !! x) as [vx|] eqn:Hx; simpl.
    - destruct (Hsome x vx Hx) as (vx' & -> & Hk & _). simpl.
      destruct vx'. simpl in *. by subst.
    - by apply Hnone. }
  assert (∀ x y, is_Some (rating names int reviews x y) →
            is_Some (g' !! x) ∧ is_Some (g' !! y)) as Hends.
  { intros x y [n Hn']. unfold rating in Hn'.
    apply last_Some_elem_of, list_elem_of_omap in Hn'
      as (row & Hrow & Hrated).
    destruct (Hrows row Hrow)
      as (u & b & name & field & n' & H0 & H1 & Hmb & H2 & Hint
          & [vu Hu] & [vn Hname]).
    rewrite (rated_row _ int x y row u b name field n') in Hrated;
      [|done|done|by rewrite <- Hm, Hmb;
          [|apply elem_of_list_to_set, list_elem_of_omap; by exists row]
       |done|done].
    destruct (Hsome u vu Hu) as (vu' & Hu' & _).
    destruct (Hsome name vn Hname) as (vn' & Hname' & _).
    case_bool_decide as Hxy; [|done].
    destruct Hxy as [[-> ->]|[-> ->]]; split; by eexists. }
  split; [|split].
  - intros k. apply set_eq. intros x.
    rewrite (WeightedGraph_get_all_vertices_iff g'), Hg', Hg.
    clear. repeat case_bool_decide; simplify_eq/=; set_solver.
  - intros x y. rewrite WeightedGraph_adjacent_iff. split.
    + intros (vx' & Hx' & _ & Hy). rewrite (Hnb x y vx' Hx') in Hy.
      by apply fmap_is_Some in Hy.
    + intros Hex. destruct (Hends x y Hex) as [[vx' Hx'] Hy].
      exists vx'. split; [done|]. split; [done|].
      rewrite (Hnb x y vx' Hx'). by apply fmap_is_Some.
  - intros x y [vx' Hx']%elem_of_dom [vy' Hy']%elem_of_dom.
    unfold WeightedGraph.get_weight. rewrite Hx', Hy'.
    rewrite (Hnb x y vx' Hx'). by destruct (rating _ _ _ _ _).
Qed.

Lemma load_weighted_review_graph_reads_the_ratings_witness :
  let int := λ field : string,
    if bool_decide (field = "5") then Some 5%Z
    else if bool_decide (field = "3") then Some 3%Z
    else if bool_decide (field = "4") then Some 4%Z else None in
  let reviews := [["u1"; "b1"; "5"]; ["u2"; "b1"; "3"]; ["u1"; "b1"; "4"]] in
  let names := [["b1"; "Dune"]; ["b2"; "Emma"]] in
  ∃ g,
    load_weighted_review_graph int reviews names = Ok g
    ∧ (∀ k, WeightedGraph.get_all_vertices k g
            = if bool_decide (k = "")
              then review_users reviews
                   ∪ list_to_set (names_of (review_books reviews) names)
              else if bool_decide (k = "user") then review_users reviews
              else if bool_decide (k = "book")
              then list_to_set (names_of (review_books reviews) names)
                   ∖ review_users reviews
              else ∅)
    ∧ (∀ x y, WeightedGraph.adjacent x y g = true
              ↔ is_Some (rating names int reviews x y))
    ∧ (∀ x y, x ∈ dom g → y ∈ dom g →
         WeightedGraph.get_weight x y g
         = Ok (from_option Qc_of_Z 0 (rating names int reviews x y))).
Proof.
  intros int reviews names.
  apply (load_weighted_review_graph_reads_the_ratings int reviews names).
  - repeat constructor; eexists; (split; [reflexivity|]); by eexists.
  - repeat constructor; eexists; (split; [reflexivity|]); simpl; lia.
  - intros book Hbook. apply elem_of_list_to_set in Hbook. simpl in Hbook.
    repeat (apply elem_of_cons in Hbook as [->|Hbook]);
      [by eexists..|by apply elem_of_nil in Hbook].
Defined.

(** ** The two loaders *)

Lemma forget_add_vertex (g : WeightedGraph.t) (item kind : string) :
  forget (WeightedGraph.add_vertex item kind g)
  = Graph.add_vertex item kind (forget g).
Proof. apply (forget_step g (WeightedGraph.AddVertex item kind)). Qed.

Lemma forget_add_edge (g : WeightedGraph.t) (a b : string) (w : Qc) :
  Graph.add_edge a b (forget g)
  = ((WeightedGraph.add_edge a b w g).1,
     forget (WeightedGraph.add_edge a b w g).2).
Proof.
  rewrite (surjective_pairing (Graph.add_edge a b (forget g))). f_equal.
  - unfold WeightedGraph.add_edge, Graph.add_edge. rewrite !forget_lookup.
    by destruct (g !! a), (g !! b).
  - symmetry. apply (forget_step g (WeightedGraph.AddEdge a b w)).
Qed.

Lemma forget_review_users (reviews : list (list string))
    (g : WeightedGraph.t) (D : gset string) :
  match foldM weighted_review_user (g, D) reviews with
  | Ok (g', D') => foldM review_user (forget g, D) reviews = Ok (forget g', D')
  | Raise e => foldM review_user (forget g, D) reviews = Raise e
  end.
Proof.
  revert g D. induction reviews as [|row l IH]; intros g D; cbn [foldM];
    [done|].
  rewrite weighted_review_user_eq, review_user_eq.
  destruct row as [|u [|b row]]; [done..|]. cbn [mbind result_bind].
  rewrite <- forget_add_vertex. apply IH.
Qed.

Lemma forget_review_books (books : gset string) (names : list (list string))
    (g : WeightedGraph.t) (m : gmap string string) :
  match foldM (weighted_review_book books) (g, m) names with
  | Ok (g', m') =>
      foldM (review_book books) (forget g, m) names = Ok (forget g', m')
  | Raise e => foldM (review_book books) (forget g, m) names = Raise e
  end.
Proof.
  revert g m. induction names as [|row l IH]; intros g m; cbn [foldM];
    [done|].
  rewrite weighted_review_book_eq, review_book_eq.
  destruct row as [|b fields]; [done|]. case_bool_decide.
  - destruct fields as [|name fields]; [done|]. cbn [mbind result_bind].
    rewrite <- forget_add_vertex. apply IH.
  - cbn [mbind result_bind]. apply IH.
Qed.

Lemma forget_review_edge (int : string → option Z) (m : gmap string string)
    (g : WeightedGraph.t) (row : list string) :
  match weighted_review_edge int m g row with
  | Ok g' => review_edge m (forget g) row = Ok (forget g')
  | Raise e =>
      (∃ field, row !! 2%nat = Some field ∧ is_Some (int field)) →
      review_edge m (forget g) row = Raise e
  end.
Proof.
  unfold weighted_review_edge, review_edge, row_at, dict_at, int_of.
  destruct (row !! 0%nat) as [u|]; [|done]. cbn [mbind result_bind].
  destruct (row !! 1%nat) as [b|]; [|done]. cbn [mbind result_bind].
  destruct (m !! b) as [name|]; [|done]. cbn [mbind result_bind].
  destruct (row !! 2%nat) as [field|]; cycle 1.
  { cbn [mbind result_bind]. by intros (? & ? & _). }
  cbn [mbind result_bind].
  destruct (int field) as [n|] eqn:Hint; cycle 1.
  { cbn [mbind result_bind]. intros (? & [= <-] & [? ?]). congruence. }
  cbn [mbind result_bind].
  rewrite (forget_add_edge g u name (Qc_of_Z n)).
  rewrite (surjective_pairing (WeightedGraph.add_edge u name (Qc_of_Z n) g)).
  by destruct (WeightedGraph.add_edge u name (Qc_of_Z n) g).1 as [[]|e].
Qed.

Lemma forget_review_edges (int : string → option Z)
    (m : gmap string string) (reviews : list (list string))
    (g : WeightedGraph.t) :
  match foldM (weighted_review_edge int m) g reviews with
  | Ok g' => foldM (review_edge m) (forget g) reviews = Ok (forget g')
  | Raise e =>
      ratings_read int reviews →
      foldM (review_edge m) (forget g) reviews = Raise e
  end.
Proof.
  revert g. induction reviews as [|row l IH]; intros g; cbn [foldM];
    [done|].
  pose proof (forget_review_edge int m g row) as Hrow.
  destruct (weighted_review_edge int m g row) as [g1|e];
    cbn [mbind result_bind].
  - rewrite Hrow. cbn [mbind result_bind]. specialize (IH g1).
    destruct (foldM (weighted_review_edge int m) g1 l); [done|].
    intros [_ Hl]%Forall_cons. by apply IH.
  - intros [Hr _]%Forall_cons. by rewrite Hrow.
Qed.

(** X26.  The two loaders build the same graph: when
    [load_weighted_review_graph] returns a graph, [load_review_graph]
    returns, for the same rows, that graph without its weights; and when
    every row of reviews has a rating that [int] reads, the weighted loader
    returns a graph whenever the unweighted one does, and raises the same
    exception whenever the unweighted one raises. *)
Theorem loaders_build_the_same_graph
    (int : string → option Z) (reviews names : list (list string)) :
  (∀ g, load_weighted_review_graph int reviews names = Ok g →
        load_review_graph reviews names = Ok (forget g))
  ∧ (ratings_read int reviews →
     (∀ g, load_review_graph reviews names = Ok g →
           ∃ g', load_weighted_review_graph int reviews names = Ok g'
                 ∧ forget g' = g)
     ∧ (∀ e, load_review_graph reviews names = Raise e →
             load_weighted_review_graph int reviews names = Raise e)).
Proof.
  assert (match load_weighted_review_graph int reviews names with
          | Ok g' => load_review_graph reviews names = Ok (forget g')
          | Raise e => ratings_read int reviews →
                       load_review_graph reviews names = Raise e
          end) as Hsim.
  { unfold load_weighted_review_graph, load_review_graph.
    pose proof (forget_review_users reviews WeightedGraph.empty ∅) as H1.
    assert (forget WeightedGraph.empty = Graph.empty) as Hempty
      by apply fmap_empty.
    rewrite Hempty in H1.
    destruct (foldM weighted_review_user _ _) as [[g1 D]|e];
      rewrite H1; cbn [mbind result_bind]; [|done].
    pose proof (forget_review_books D names g1 ∅) as H2.
    destruct (foldM (weighted_review_book D) _ _) as [[g2 m]|e];
      rewrite H2; cbn [mbind result_bind]; [|done].
    apply forget_review_edges. }
  split; [|intros Hr; split].
  - intros g Hg. by rewrite Hg in Hsim.
  - intros g Hg. destruct (load_weighted_review_graph int reviews names)
      as [g'|e].
    + exists g'. split; [done|]. congruence.
    + rewrite (Hsim Hr) in Hg. done.
  - intros e He. destruct (load_weighted_review_graph int reviews names)
      as [g'|e'].
    + congruence.
    + rewrite (Hsim Hr) in He. congruence.
Qed.

Lemma loaders_build_the_same_graph_witness :
  let int := λ field : string,
    if bool_decide (field = "5") then Some 5%Z
    else if bool_decide (field = "3") then Some 3%Z else None in
  let reviews := [["u1"; "b1"; "5"]; ["u2"; "b1"; "3"]] in
  let names := [["b1"; "Dune"]] in
  ∃ g', load_weighted_review_graph int reviews names = Ok g'
        ∧ forget g'
          = Graph.run [Graph.AddVertex "u1" "user";
                       Graph.AddVertex "u2" "user";
                       Graph.AddVertex "Dune" "book";
                       Graph.AddEdge "u1" "Dune"; Graph.AddEdge "u2" "Dune"].
Proof.
  intros int reviews names.
  apply (proj2 (loaders_build_the_same_graph int reviews names)).
  - repeat constructor; eexists; (split; [reflexivity|]); by eexists.
  - reflexivity.
Defined.

(** X27.  On rows that can be read, with a name for every book reviewed,
    [load_weighted_review_graph] raises at the first row of reviews whose
    rating cannot be read: [IndexError] when the row has no third field,
    and [ValueError] when [int] does not read its third field. *)
Theorem load_weighted_review_graph_raises_at_a_rating
    (int : string → option Z) (before : list (list string))
    (row : list string) (after names : list (list string)) (e : exn) :
  let reviews := before ++ row :: after in
  reviews_read reviews → names_read (review_books reviews) names →
  (∀ book, book ∈ review_books reviews → is_Some (book_name names book)) →
  ratings_read int before → unrated int row e →
  load_weighted_review_graph int reviews names = Raise e.
Proof.
  intros reviews Hr Hn Hnamed Hbefore Hrow.
  destruct (weighted_review_loops int reviews names Hr Hn)
    as (g & m & -> & Hm & Hg).
  apply weighted_review_edges_unrated; [|done..].
  apply Forall_forall. intros row' Hrow'.
  destruct (review_row _ _ Hr Hrow') as (u & b & H0 & H1 & Hu & Hb).
  destruct (Hnamed b Hb) as [name Hname].
  exists u, b, name. split; [done|]. split; [done|].
  split; [by rewrite Hm|].
  pose proof (names_of_book_name _ _ _ _ Hb Hname).
  split.
  - rewrite Hg, bool_decide_eq_true_2 by done. by eexists.
  - rewrite Hg. case_bool_decide; [by eexists|].
    rewrite bool_decide_eq_true_2 by done. by eexists.
Qed.

Lemma load_weighted_review_graph_raises_at_a_rating_witness :
  let int := λ field : string,
    if bool_decide (field = "5") then Some 5%Z else None in
  load_weighted_review_graph int
    ([["u1"; "b1"; "5"]] ++ ["u2"; "b1"; "five"] :: [["u3"; "b1"]])
    [["b1"; "Dune"]]
  = Raise ValueError.
Proof.
  intros int.
  apply (load_weighted_review_graph_raises_at_a_rating int
           [["u1"; "b1"; "5"]] ["u2"; "b1"; "five"] [["u3"; "b1"]]
           [["b1"; "Dune"]] ValueError).
  - repeat constructor; simpl; lia.
  - repeat constructor; eexists; (split; [reflexivity|]); simpl; lia.
  - intros book Hbook. apply elem_of_list_to_set in Hbook. simpl in Hbook.
    repeat (apply elem_of_cons in Hbook as [->|Hbook]);
      [by eexists..|by apply elem_of_nil in Hbook].
  - repeat constructor; eexists; (split; [reflexivity|]); by eexists.
  - by split.
Defined.

(** * Further properties of the evaluation *)

Lemma Qcabs_eq_0 (x y : Qc) : Qcabs.Qcabs (x - y) = 0 ↔ x = y.
Proof.
  split.
  - intros H%Qcabs.Qcabs_null.
    assert (x = (x - y) + y) as -> by ring. rewrite H. ring.
  - intros ->. assert (y - y = 0) as -> by ring. by apply Qcabs.Qcabs_pos.
Qed.

Lemma length_filter_le {A : Type} (P : A → Prop) `{∀ x, Decision (P x)}
    (l : list A) :
  (length (filter P l) ≤ length l)%nat.
Proof.
  induction l as [|x l IH]; [done|]. rewrite filter_cons.
  case_decide; simpl; lia.
Qed.

Lemma length_filter_all {A : Type} (P : A → Prop) `{∀ x, Decision (P x)}
    (l : list A) :
  length (filter P l) = length l ↔ Forall P l.
Proof.
  induction l as [|x l IH]; [by split; [constructor|]|].
  rewrite filter_cons, Forall_cons.
  pose proof (length_filter_le P l). case_decide; simpl.
  - rewrite <- IH. split; [intros [= ?]; by split|intros [_ ->]; done].
  - split; [lia|tauto].
Qed.

Section evaluation.

Context {P : Type} `{ReviewScorePredictor P}.
Context (predictor : P) (int : string → option Z).
Context (E : Qc → Prop).

Lemma test_review_tally (m : gmap string string) (n : nat)
    (acc acc' : Z * Z * list Qc) (row : list string) :
  errors_in E predictor int [row] → tally E n acc →
  test_review predictor int m acc row = Ok acc' →
  tally E (S n) acc'.
Proof.
  intros HE Hacc. destruct acc as [[total_reviews total_correct] errors].
  destruct Hacc as (Hn & Hlen & Herr & Hc). simpl in *.
  unfold test_review, row_at, dict_at, int_of.
  destruct (row !! 0%nat) as [user|]; [|done]. cbn [mbind result_bind].
  destruct (row !! 1%nat) as [book|]; [|done]. cbn [mbind result_bind].
  destruct (m !! book) as [name|]; [|done]. cbn [mbind result_bind].
  destruct (predict_review_score predictor user name) as [s|] eqn:Hs;
    [|done].
  cbn [mbind result_bind].
  destruct (row !! 2%nat) as [field|] eqn:H2; [|done].
  cbn [mbind result_bind].
  destruct (int field) as [actual|] eqn:Hint; [|done].
  cbn [mbind result_bind]. intros [= <-].
  split; [simpl; lia|]. split; [simpl; rewrite length_app; simpl; lia|].
  split.
  - simpl. apply Forall_app. split; [done|]. constructor; [|done].
    apply (HE row user name field s actual); [by left|done..].
  - simpl. rewrite filter_app, length_app, filter_cons, filter_nil.
    case_bool_decide as Hp; case_decide as He; simpl.
    + lia.
    + destruct He. by apply Qcabs_eq_0.
    + destruct Hp. by apply Qcabs_eq_0.
    + lia.
Qed.

Lemma test_reviews_tally (m : gmap string string) (test : list (list string))
    (n : nat) (acc acc' : Z * Z * list Qc) :
  errors_in E predictor int test → tally E n acc →
  foldM (test_review predictor int m) acc test = Ok acc' →
  tally E (n + length test) acc'.
Proof.
  revert n acc. induction test as [|row l IH]; intros n acc HE Hacc;
    cbn [foldM].
  - intros [= <-]. by rewrite Nat.add_0_r.
  - destruct (test_review predictor int m acc row) as [acc1|] eqn:Hrow;
      [|done].
    cbn [mbind result_bind]. intros Hl.
    replace (n + length (row :: l))%nat with (S n + length l)%nat
      by (simpl; lia).
    apply (IH (S n) acc1); [| |done].
    + intros row' user name field s actual Hrow'.
      apply (HE row' user name field s actual). by right.
    + apply (test_review_tally m n acc acc1 row); [|done..].
      intros row' user name field s actual ->%list_elem_of_singleton.
      apply (HE row user name field s actual). by left.
Qed.

(** What a report of [evaluate_predictor] holds, when it returns one. *)
Lemma evaluate_predictor_tally (test names : list (list string))
    (r : report) :
  errors_in E predictor int test →
  evaluate_predictor predictor int test names = Ok r →
  test ≠ []
  ∧ ∃ errors,
      tally E (length test) (num_reviews r, num_correct r, errors)
      ∧ average_error r = total errors / Qc_of_nat (length test).
Proof.
  intros HE. unfold evaluate_predictor.
  destruct (foldM test_name ∅ names) as [m|]; [|done].
  cbn [mbind result_bind].
  destruct (foldM (test_review predictor int m) (0%Z, 0%Z, []) test)
    as [[[total_reviews total_correct] errors]|] eqn:Hloop; [|done].
  cbn [mbind result_bind].
  apply (test_reviews_tally m test 0 (0%Z, 0%Z, [])) in Hloop;
    [|done|by repeat split].
  destruct Hloop as (Hn & Hlen & Herr & Hc). simpl in *. subst.
  unfold true_div. case_bool_decide as H0; [done|].
  cbn [mbind result_bind]. intros [= <-]. simpl. split.
  - intros Htest. rewrite Htest in H0. apply H0. apply Z2Qc_inj_0.
  - exists errors. split; [by repeat split|]. by rewrite sum_total.
Qed.

End evaluation.

Lemma test_names_read (names : list (list string))
    (m : gmap string string) :
  Forall (λ row, 2 ≤ length row)%nat names →
  ∃ m', foldM test_name m names = Ok m'.
Proof.
  intros Hn. revert m. induction Hn as [|row l Hrow _ IH]; intros m.
  - by eexists.
  - destruct row as [|b [|name row]]; simpl in Hrow; [lia..|].
    cbn [foldM]. unfold test_name at 1. simpl. apply IH.
Qed.

Lemma five_star_rating (g : WeightedGraph.t) (user book : string) (r : Qc) :
  ratings g →
  FiveStarPredictor.predict_review_score g user book = Ok r →
  ∃ k : Z, r = Qc_of_Z k ∧ (1 ≤ k ≤ 5)%Z.
Proof.
  intros Hr. unfold FiveStarPredictor.predict_review_score.
  destruct (WeightedGraph.adjacent user book g) eqn:Hadj.
  - destruct (adjacent_get_weight g user book Hadj)
      as (vu & w & Hu & Hw & ->).
    intros [= <-]. by eapply Hr.
  - intros [= <-]. exists 5%Z. split; [done|lia].
Qed.

(** X28.  A report that [evaluate_predictor] returns, for any predictor,
    is about at least one review: [num_reviews] is the number of rows of
    the test file and [num_correct] lies between 0 and [num_reviews].  When
    every prediction and every rating of the test file is an integer from
    [-2^53] to [2^53] (binary64 holds each of them exactly, and their
    difference is zero only when they are equal), [average_error] is not
    negative, and it is 0 exactly when every prediction is correct.  On a
    test file without rows, and rows of names of two fields at least, it
    raises [ZeroDivisionError]. *)
Theorem evaluate_predictor_reports_the_errors
    {P : Type} `{ReviewScorePredictor P} (predictor : P)
    (int : string → option Z) (test names : list (list string)) :
  (∀ r, evaluate_predictor predictor int test names = Ok r →
     num_reviews r = Z.of_nat (length test)
     ∧ (1 ≤ num_reviews r)%Z
     ∧ (0 ≤ num_correct r ≤ num_reviews r)%Z)
  ∧ (∀ r,
       (∀ user name s, predict_review_score predictor user name = Ok s →
          ∃ k : Z, s = Qc_of_Z k ∧ (- 2 ^ 53 ≤ k ≤ 2 ^ 53)%Z) →
       Forall (λ row, ∀ field n, row !! 2%nat = Some field →
                        int field = Some n → (- 2 ^ 53 ≤ n ≤ 2 ^ 53)%Z)
              test →
       evaluate_predictor predictor int test names = Ok r →
       0 ≤ average_error r
       ∧ (average_error r = 0 ↔ num_correct r = num_reviews r))
  ∧ (test = [] → Forall (λ row, 2 ≤ length row)%nat names →
     evaluate_predictor predictor int test names = Raise ZeroDivisionError).
Proof.
  assert (∀ r, evaluate_predictor predictor int test names = Ok r →
            num_reviews r = Z.of_nat (length test)
            ∧ (1 ≤ num_reviews r)%Z
            ∧ (0 ≤ num_correct r ≤ num_reviews r)%Z
            ∧ 0 ≤ average_error r
            ∧ (average_error r = 0 ↔ num_correct r = num_reviews r)) as Hall.
  { intros r Hr.
    destruct (evaluate_predictor_tally predictor int (Qcle 0) test names r)
      as (Htest & errors & (Hn & Hlen & Herr & Hc) & Havg); [|done|].
    { intros row user name field s actual _ _ _ _.
      apply Qcabs.Qcabs_nonneg. }
    simpl in *. split; [done|].
    assert (length test ≠ 0%nat) as Hne by by destruct test.
    pose proof (Qc_of_nat_pos _ Hne) as Hpos.
    pose proof (length_filter_le (λ e : Qc, e = 0) errors).
    split; [lia|]. split; [lia|]. rewrite Havg. split.
    - apply (Qcdiv_bounds _ _ 0 (total errors / Qc_of_nat (length test)));
        [done| |].
      + rewrite Qcmult_0_r. by apply total_nonneg.
      + rewrite Qcmult_div_r; [done|]. by apply not_eq_sym, Qclt_not_eq.
    - assert (Qc_of_nat (length test) ≠ 0) as Hd
        by by apply not_eq_sym, Qclt_not_eq.
      assert (total errors / Qc_of_nat (length test) = 0
              ↔ total errors = 0) as ->.
      { split.
        - intros Hz. rewrite <- (Qcmult_div_r (total errors) _ Hd), Hz.
          apply Qcmult_0_r.
        - intros ->. unfold Qcdiv. apply Qcmult_0_l. }
      rewrite (total_eq_0 errors Herr), <- length_filter_all, Hn, Hc, Hlen.
      by rewrite Nat2Z.inj_iff. }
  split; [|split].
  - intros r Hr. destruct (Hall r Hr) as (? & ? & ? & _). auto.
  - intros r _ _ Hr. destruct (Hall r Hr) as (_ & _ & _ & ? & ?). auto.
  - intros -> Hn. unfold evaluate_predictor.
    destruct (test_names_read names ∅ Hn) as [m ->].
    reflexivity.
Qed.

Lemma evaluate_predictor_reports_the_errors_witness :
  let g := WeightedGraph.run
             [WeightedGraph.AddVertex "u" "user";
              WeightedGraph.AddVertex "v" "user";
              WeightedGraph.AddVertex "Dune" "book";
              WeightedGraph.AddEdge "u" "Dune" (q 4)] in
  let int := λ field : string,
    if bool_decide (field = "4") then Some 4%Z
    else if bool_decide (field = "3") then Some 3%Z else None in
  let test := [["u"; "b1"; "4"]; ["v"; "b1"; "3"]] in
  let names := [["b1"; "Dune"]] in
  (∃ r, evaluate_predictor (FiveStar g) int test names = Ok r
        ∧ (num_reviews r = Z.of_nat (length test)
           ∧ (1 ≤ num_reviews r)%Z
           ∧ (0 ≤ num_correct r ≤ num_reviews r)%Z)
        ∧ 0 ≤ average_error r
        ∧ (average_error r = 0 ↔ num_correct r = num_reviews r))
  ∧ evaluate_predictor (FiveStar g) int [] names = Raise ZeroDivisionError.
Proof.
  intros g int test names.
  destruct (evaluate_predictor_reports_the_errors (FiveStar g) int test names)
    as (Hcount & Herror & _).
  split.
  - destruct (evaluate_predictor (FiveStar g) int test names) as [r|e] eqn:Hr;
      [|by vm_compute in Hr].
    exists r. split; [done|]. split; [by apply Hcount|].
    apply Herror; [| |done].
    + intros user name s Hs.
      destruct (five_star_rating g user name s) as (k & -> & Hk);
        [apply ratings_checked; by vm_compute|exact Hs|].
      exists k. split; [done|lia].
    + constructor; [|constructor; [|constructor]];
        intros field n [= <-] Hint; vm_compute in Hint;
        injection Hint as <-; lia.
  - apply (proj2 (proj2 (evaluate_predictor_reports_the_errors
                           (FiveStar g) int [] names))).
    + reflexivity.
    + repeat constructor; simpl; lia.
Defined.

Lemma book_average_score_rating (g : WeightedGraph.t) (user book : string)
    (r : Qc) :
  ratings g →
  BookAverageScorePredictor.predict_review_score g user book = Ok r →
  ∃ k : Z, r = Qc_of_Z k ∧ (1 ≤ k ≤ 5)%Z.
Proof.
  intros Hr. unfold BookAverageScorePredictor.predict_review_score.
  destruct (WeightedGraph.adjacent user book g) eqn:Hadj.
  - destruct (adjacent_get_weight g user book Hadj)
      as (vu & w & Hu & Hw & ->).
    intros [= <-]. by eapply Hr.
  - by apply (rounded_average_rating g book).
Qed.

Lemma rating_error (k n : Z) :
  (1 ≤ k ≤ 5)%Z → (1 ≤ n ≤ 5)%Z →
  0 ≤ Qcabs.Qcabs (Qc_of_Z k - Qc_of_Z n) ≤ Qc_of_Z 4.
Proof.
  intros Hk Hn. split; [apply Qcabs.Qcabs_nonneg|].
  apply Qcabs.Qcabs_Qcle_condition.
  rewrite <- Z2Qc_inj_sub, <- Z2Qc_inj_opp, <- !Z2Qc_inj_le. lia.
Qed.

Lemma ratings_average_error {P : Type} `{ReviewScorePredictor P}
    (predictor : P) (int : string → option Z)
    (test names : list (list string)) (r : report) :
  (∀ user name s, predict_review_score predictor user name = Ok s →
     ∃ k : Z, s = Qc_of_Z k ∧ (1 ≤ k ≤ 5)%Z) →
  Forall (λ row, ∀ field n, row !! 2%nat = Some field →
                   int field = Some n → (1 ≤ n ≤ 5)%Z) test →
  evaluate_predictor predictor int test names = Ok r →
  0 ≤ average_error r ≤ Qc_of_Z 4.
Proof.
  intros Hp Htest Hr.
  destruct (evaluate_predictor_tally predictor int
              (λ e, 0 ≤ e ≤ Qc_of_Z 4) test names r)
    as (Hne & errors & (Hn & Hlen & Herr & Hc) & ->); [|done|].
  { intros row user name field s actual Hrow H2 Hint Hs.
    destruct (Hp user name s Hs) as (k & -> & Hk).
    apply rating_error; [done|].
    by apply (proj1 (Forall_forall _ _) Htest row Hrow field). }
  simpl in *. apply Qcdiv_bounds.
  - apply Qc_of_nat_pos. by destruct test.
  - rewrite Qcmult_0_r. apply total_nonneg.
    eapply Forall_impl; [exact Herr|]. by intros e [? _].
  - rewrite <- Hlen. apply total_le.
    eapply Forall_impl; [exact Herr|]. by intros e [_ ?].
Qed.

(** X29.  On a graph whose weights are all integers from 1 to 5, and a
    test file whose ratings, where [int] reads them, are integers from 1 to
    5, the [average_error] that [evaluate_predictor] reports for any of the
    three predictors lies between 0 and 4. *)
Theorem evaluation_of_ratings
    (g : WeightedGraph.t) (score_type : string) (int : string → option Z)
    (test names : list (list string)) (r : report) :
  ratings g →
  Forall (λ row, ∀ field n, row !! 2%nat = Some field →
                   int field = Some n → (1 ≤ n ≤ 5)%Z) test →
  evaluate_predictor (FiveStar g) int test names = Ok r
  ∨ evaluate_predictor (BookAverageScore g) int test names = Ok r
  ∨ evaluate_predictor (SimilarUser g score_type) int test names = Ok r →
  0 ≤ average_error r ≤ Qc_of_Z 4.
Proof.
  intros Hg Htest [Hr|[Hr|Hr]].
  - apply (ratings_average_error (FiveStar g) int test names r);
      [|done..].
    intros user name s. by apply five_star_rating.
  - apply (ratings_average_error (BookAverageScore g) int test names r);
      [|done..].
    intros user name s. by apply book_average_score_rating.
  - apply (ratings_average_error (SimilarUser g score_type) int test names
             r); [|done..].
    intros user name s. by apply similar_user_rating.
Qed.

Lemma evaluation_of_ratings_witness :
  let g := WeightedGraph.run
             [WeightedGraph.AddVertex "u" "user";
              WeightedGraph.AddVertex "v" "user";
              WeightedGraph.AddVertex "Dune" "book";
              WeightedGraph.AddEdge "u" "Dune" (q 4)] in
  let int := λ field : string,
    if bool_decide (field = "4") then Some 4%Z
    else if bool_decide (field = "1") then Some 1%Z else None in
  let test := [["u"; "b1"; "4"]; ["v"; "b1"; "1"]] in
  let names := [["b1"; "Dune"]] in
  ∃ r, evaluate_predictor (BookAverageScore g) int test names = Ok r
       ∧ 0 ≤ average_error r ≤ Qc_of_Z 4.
Proof.
  intros g int test names.
  destruct (evaluate_predictor (BookAverageScore g) int test names)
    as [r|e] eqn:Hr; [|by vm_compute in Hr].
  exists r. split; [done|].
  apply (evaluation_of_ratings g "strict" int test names r).
  - apply ratings_checked. by vm_compute.
  - constructor; [|constructor; [|constructor]];
      intros field n [= <-] Hint; vm_compute in Hint;
      injection Hint as <-; lia.
  - right. left. exact Hr.
Defined.

(** * Further properties of the recommendations *)

Lemma count_absent (l : list string) (v : string) :
  v ∉ l → length (filter (λ x, x = v) l) = 0%nat.
Proof.
  induction l as [|x l IH]; [done|]. intros Hv.
  rewrite filter_cons_False; [|intros ->; apply Hv; by left].
  apply IH. intros ?. apply Hv. by right.
Qed.

Lemma count_NoDup (l : list string) (v : string) :
  NoDup l → v ∈ l → length (filter (λ x, x = v) l) = 1%nat.
Proof.
  induction 1 as [|x l Hx Hl IH]; [by intros ?%elem_of_nil|].
  intros [->|Hv]%elem_of_cons.
  - rewrite filter_cons_True by done. simpl. by rewrite count_absent.
  - rewrite filter_cons_False; [by apply IH|]. by intros ->.
Qed.

Lemma count_fmap (sc : string → Qc) (c : Qc) (l : list string) :
  length (filter (λ s, s = c) (sc <$> l))
  = length (filter (λ v, sc v = c) l).
Proof.
  induction l as [|x l IH]; [done|]. rewrite fmap_cons, !filter_cons.
  destruct (decide (sc x = c)); simpl; by rewrite IH.
Qed.

(** Before the list is cut, a book is listed once for each book with its
    score. *)
Lemma ranked_count (sc : string → Qc) (books : list string)
    (book v : string) :
  NoDup books → v ∈ books → v ≠ book →
  length (filter (λ x, x = v) (ranked sc books book))
  = length (filter (λ v', v' ≠ book ∧ sc v' = sc v) books).
Proof.
  intros Hnd Hv Hne. unfold ranked.
  assert (∀ L : list Qc,
    length (filter (λ x, x = v)
              (L ≫= λ s, filter (λ v', v' ≠ book ∧ sc v' = s) books))
    = length (filter (λ s, s = sc v) L)) as ->.
  { induction L as [|s L IH]; [done|].
    rewrite bind_cons, filter_app, length_app, IH, filter_cons.
    destruct (decide (s = sc v)) as [->|Hs]; simpl.
    - rewrite count_NoDup; [done|by apply NoDup_filter|].
      apply list_elem_of_filter. by repeat split.
    - rewrite count_absent; [done|].
      intros [[_ ?] _]%list_elem_of_filter. by destruct Hs. }
  unfold sort_reverse. rewrite merge_sort_Permutation, count_fmap.
  rewrite list_filter_filter. f_equal. apply list_filter_iff. tauto.
Qed.

Lemma ranking_count (score : string → result Qc) (sc : string → Qc)
    (books : list string) (book v : string) (limit : Z) (l : list string) :
  Forall (λ v, v ≠ book → score v = Ok (sc v)) books →
  NoDup books → v ∈ books → v ≠ book →
  ranking score books book limit = Ok l →
  (Z.of_nat (length l) < limit)%Z →
  length (filter (λ x, x = v) l)
  = length (filter (λ v', v' ≠ book ∧ sc v' = sc v) books).
Proof.
  intros Hb Hnd Hv Hne. rewrite (ranking_ranked score sc) by done.
  case_bool_decide as Hlen.
  - intros [= <-] _. by apply ranked_count.
  - intros [= <-]. unfold slice_to. case_bool_decide; [lia|].
    rewrite length_take. lia.
Qed.

(** X30.  When [recommend_books(book, limit)], for a vertex [book], returns
    fewer than [limit] entries, every other book is listed once for each
    of the other books that have its similarity score with [book], itself
    included: twice when it is tied with one other book, and so on.  In the
    unweighted graph and, for every score type, in the weighted graph. *)
Theorem recommend_books_lists_a_book_once_per_tie
    (book v : string) (limit : Z) (l : list string) :
  (∀ g : Graph.t, book ∈ dom g →
     v ∈ Graph.get_all_vertices "book" g → v ≠ book →
     Graph.recommend_books book limit g = Ok l →
     (Z.of_nat (length l) < limit)%Z →
     length (filter (λ x, x = v) l)
     = length (filter (λ v', v' ≠ book
                             ∧ value (Graph.get_similarity_score book v' g)
                               = value (Graph.get_similarity_score book v g))
                (elements (Graph.get_all_vertices "book" g))))
  ∧ (∀ (g : WeightedGraph.t) (score_type : string), book ∈ dom g →
       v ∈ WeightedGraph.get_all_vertices "book" g → v ≠ book →
       WeightedGraph.recommend_books book limit score_type g = Ok l →
       (Z.of_nat (length l) < limit)%Z →
       length (filter (λ x, x = v) l)
       = length
           (filter (λ v', v' ≠ book
                          ∧ value (WeightedGraph.get_similarity_score
                                     book v' score_type g)
                            = value (WeightedGraph.get_similarity_score
                                       book v score_type g))
              (elements (WeightedGraph.get_all_vertices "book" g)))).
Proof.
  split.
  - intros g Hb Hv Hne. rewrite Graph_recommend_books_ranking.
    apply (ranking_count _ (λ v, value (Graph.get_similarity_score book v g)));
      [by apply Graph_books_scored|apply NoDup_elements
      |by apply elem_of_elements|done].
  - intros g score_type Hb Hv Hne.
    rewrite WeightedGraph_recommend_books_ranking.
    apply (ranking_count _
             (λ v, value (WeightedGraph.get_similarity_score
                            book v score_type g)));
      [by apply WeightedGraph_books_scored|apply NoDup_elements
      |by apply elem_of_elements|done].
Qed.

Lemma recommend_books_lists_a_book_once_per_tie_witness :
  let g := Graph.run
             [Graph.AddVertex "u1" "user"; Graph.AddVertex "u2" "user";
              Graph.AddVertex "A" "book"; Graph.AddVertex "B" "book";
              Graph.AddVertex "C" "book";
              Graph.AddEdge "u1" "A"; Graph.AddEdge "u2" "B";
              Graph.AddEdge "u2" "C"] in
  ∃ l, Graph.recommend_books "A" 10 g = Ok l
       ∧ length (filter (λ x, x = "B") l)
         = length (filter (λ v', v' ≠ "A"
                            ∧ value (Graph.get_similarity_score "A" v' g)
                              = value (Graph.get_similarity_score "A" "B" g))
                    (elements (Graph.get_all_vertices "book" g))).
Proof.
  intros g.
  destruct (Graph.recommend_books "A" 10 g) as [l|e] eqn:Hl;
    [|by vm_compute in Hl].
  exists l. split; [done|].
  apply (proj1 (recommend_books_lists_a_book_once_per_tie "A" "B" 10 l) g).
  - apply elem_of_dom. eexists. vm_compute. reflexivity.
  - apply Graph_get_all_vertices_iff. eexists.
    split; [vm_compute; reflexivity|]. right. reflexivity.
  - done.
  - done.
  - vm_compute in Hl. injection Hl as <-. simpl. lia.
Defined.
